(** * MusMark engine: framing codec, Reed-Solomon codec, soft voter, embedder

    Shallow embedding of the TypeScript sources (bitUtils, reedSolomon,
    payload, engine, addon) and of the native embedder, extractor and
    WAV reader and writer (C++), followed by the properties established
    about them.

    Conventions.  A [Uint8Array] or a JS [number[]] holding bytes is a
    [list Z]; array indices and lengths are [nat].  A [for] loop with a
    counter is a [fold_left] over [seq]; a loop with an early [return]
    or a computed bound is a [Fixpoint].  A function that can [throw]
    returns a [result].  Floating-point numbers are the carrier types of
    the interface [FloatOps].

    Contents: arrays and errors; bitUtils; reedSolomon; payload; the
    native embedder; addon; engine; specification-side definitions and
    sample inputs; the native extractor; wav.cc; signing; properties. *)

From Stdlib Require Import String Ascii ZArith Lia Bool List.
Import ListNotations.

Local Open Scope Z_scope.

(** ** Arrays *)

(** [a[i] = v] on an array; an index past the end leaves a typed array
    unchanged (no call site below ever writes out of range). *)
Fixpoint upd {A : Type} (i : nat) (v : A) (l : list A) : list A :=
  match l, i with
  | [], _ => []
  | _ :: t, O => v :: t
  | h :: t, S i' => h :: upd i' v t
  end.

(** [new Uint8Array(n)], [new Array(n).fill(0)] *)
Definition zeros (n : nat) : list Z := repeat 0 n.

(** [dst.set(src, off)] on a typed array; every call below has
    [off + src.length <= dst.length] (the source would throw otherwise). *)
Definition arraySet (dst src : list Z) (off : nat) : list Z :=
  firstn off dst ++ src ++ skipn (off + length src) dst.

(** [a.slice(s, e)] with JS index normalisation: a negative bound counts
    from the end, and both bounds are clamped to [0, a.length]. *)
Definition jsIndex (len : nat) (k : Z) : nat :=
  if k <? 0 then Z.to_nat (Z.max (Z.of_nat len + k) 0)
  else Nat.min (Z.to_nat k) len.

Definition jsSlice {A : Type} (l : list A) (s e : Z) : list A :=
  let s' := jsIndex (length l) s in
  let e' := jsIndex (length l) e in
  firstn (e' - s') (skipn s' l).

(** ** Errors *)

Inductive result (A : Type) : Type :=
| Ok (a : A)
| Throw (msg : string).
Arguments Ok {A} a.
Arguments Throw {A} msg.

Definition bind {A B : Type} (r : result A) (k : A -> result B) : result B :=
  match r with
  | Ok a => k a
  | Throw m => Throw m
  end.

Notation "x <- r ;; k" := (bind r (fun x => k))
  (at level 61, r at next level, right associativity).
Notation "' pat <- r ;; k" := (bind r (fun pat => k))
  (at level 61, pat pattern, r at next level, right associativity).

(** ** bitUtils.ts *)

Module BitUtils.

(** [bits[i * 8 + b] = (bytes[i] >> (7 - b)) & 1] *)
Definition byteBits (x : Z) : list Z :=
  map (fun b => Z.land (Z.shiftr x (7 - Z.of_nat b)) 1) (seq 0 8).

Definition bytesToBits (bytes : list Z) : list Z :=
  flat_map byteBits bytes.

(** [value = (value << 1) | (idx < bits.length ? bits[idx] & 1 : 0)] *)
Definition packByte (bits : list Z) (i : nat) : Z :=
  fold_left
    (fun value b =>
       let idx := (i * 8 + b)%nat in
       Z.lor (Z.shiftl value 1)
             (if (idx <? length bits)%nat then Z.land (nth idx bits 0) 1 else 0))
    (seq 0 8) 0.

Definition bitsToBytes (bits : list Z) : list Z :=
  let byteCount := ((length bits + 7) / 8)%nat in
  map (packByte bits) (seq 0 byteCount).

(** [Math.ceil(n / rows)] for [rows >= 2] *)
Definition ceilDiv (n rows : nat) : nat := ((n + rows - 1) / rows)%nat.

(** [padded = new Uint8Array(rows * cols); padded.set(bits, 0)] *)
Definition padTo (n : nat) (bits : list Z) : list Z :=
  arraySet (zeros n) bits 0.

Definition interleaveBits (bits : list Z) (depth : nat) : list Z :=
  if (depth <=? 1)%nat then bits
  else
    let rows := depth in
    let cols := ceilDiv (length bits) rows in
    let padded := padTo (rows * cols) bits in
    let interleaved :=
      flat_map (fun c => map (fun r => nth (r * cols + c) padded 0) (seq 0 rows))
               (seq 0 cols) in
    firstn (length bits) interleaved.

(** The loop of [deinterleaveBits]: [idx] runs over [c * rows + r] in
    loop order, each step writing [deinterleaved[r * cols + c]]. *)
Definition deinterleaveBits (bits : list Z) (depth : nat) : list Z :=
  if (depth <=? 1)%nat then bits
  else
    let rows := depth in
    let cols := ceilDiv (length bits) rows in
    let padded := padTo (rows * cols) bits in
    let deinterleaved :=
      fold_left
        (fun acc c =>
           fold_left
             (fun acc' r => upd (r * cols + c) (nth (c * rows + r) padded 0) acc')
             (seq 0 rows) acc)
        (seq 0 cols) (zeros (rows * cols)) in
    firstn (length bits) deinterleaved.

End BitUtils.

(** ** reedSolomon.ts *)

Module ReedSolomon.

Definition GF_SIZE : nat := 256.
Definition PRIMITIVE_POLY : Z := 0x11d.

(** [initTables]: the first loop fills [gfExp[0..254]] and [gfLog];
    the second copies [gfExp[i - 255]] into [gfExp[255..511]]. *)
Definition initTables : list Z * list Z :=
  let '(_, e1, l1) :=
    fold_left
      (fun '(x, e, l) i =>
         let e := upd i x e in
         let l := upd (Z.to_nat x) (Z.of_nat i) l in
         let x := Z.shiftl x 1 in
         let x := if Z.eqb (Z.land x 0x100) 0 then x else Z.lxor x PRIMITIVE_POLY in
         (x, e, l))
      (seq 0 (GF_SIZE - 1)) (1, zeros (GF_SIZE * 2), zeros GF_SIZE) in
  let e2 :=
    fold_left (fun e i => upd i (nth (i - (GF_SIZE - 1)) e 0) e)
              (seq (GF_SIZE - 1) (GF_SIZE * 2 - (GF_SIZE - 1))) e1 in
  (e2, l1).

Definition gfExp : list Z := Eval vm_compute in fst initTables.
Definition gfLog : list Z := Eval vm_compute in snd initTables.

Definition expAt (i : Z) : Z := nth (Z.to_nat i) gfExp 0.
Definition logOf (a : Z) : Z := nth (Z.to_nat a) gfLog 0.

Definition gfMul (a b : Z) : Z :=
  if (a =? 0) || (b =? 0) then 0
  else expAt (logOf a + logOf b).

Definition gfDiv (a b : Z) : result Z :=
  if a =? 0 then Ok 0
  else if b =? 0 then Throw "Division by zero"
  else Ok (expAt ((logOf a + (Z.of_nat GF_SIZE - 1) - logOf b) mod (Z.of_nat GF_SIZE - 1))).

Definition gfPow (a : Z) (power : Z) : Z :=
  expAt ((logOf a * power) mod (Z.of_nat GF_SIZE - 1)).

Definition polyScale (p : list Z) (x : Z) : list Z :=
  map (fun c => gfMul c x) p.

(** [p[p.length - length + i] ?? 0]: the shorter polynomial is read as
    if padded with zeros on the left. *)
Definition polyAdd (p q : list Z) : list Z :=
  let length' := Nat.max (length p) (length q) in
  map (fun i =>
         let a := if (length' - length p <=? i)%nat
                  then nth (i - (length' - length p)) p 0 else 0 in
         let b := if (length' - length q <=? i)%nat
                  then nth (i - (length' - length q)) q 0 else 0 in
         Z.lxor a b)
      (seq 0 length').

Definition polyMul (p q : list Z) : list Z :=
  fold_left
    (fun res i =>
       fold_left
         (fun res' j =>
            upd (i + j) (Z.lxor (nth (i + j) res' 0) (gfMul (nth i p 0) (nth j q 0))) res')
         (seq 0 (length q)) res)
    (seq 0 (length p)) (zeros (length p + length q - 1)).

(** Horner evaluation.  On an empty array the source reads [p[0]],
    which is [undefined]; the only caller that can pass an empty array
    is [rsDecode] on an empty codeword, handled there. *)
Definition polyEval (p : list Z) (x : Z) : Z :=
  match p with
  | [] => 0
  | p0 :: rest => fold_left (fun y c => Z.lxor (gfMul y x) c) rest p0
  end.

Definition rsGeneratorPoly (nsym : nat) : list Z :=
  fold_left (fun g i => polyMul g [1; gfPow 2 (Z.of_nat i)]) (seq 0 nsym) [1].

(** The division loop of [rsEncode]: for each data position [i] with a
    non-zero coefficient, [msg[i + j] ^= gfMul(gen[j], coef)]. *)
Definition encodeLoop (gen : list Z) (n : nat) (msg0 : list Z) : list Z :=
  fold_left
    (fun msg i =>
       let coef := nth i msg 0 in
       if coef =? 0 then msg
       else
         fold_left
           (fun m j => upd (i + j) (Z.lxor (nth (i + j) m 0) (gfMul (nth j gen 0) coef)) m)
           (seq 0 (length gen)) msg)
    (seq 0 n) msg0.

Definition rsEncode (data : list Z) (nsym : nat) : list Z :=
  let gen := rsGeneratorPoly nsym in
  let msg0 := data ++ zeros nsym in
  let msg := encodeLoop gen (length data) msg0 in
  let parity := skipn (length data) msg in
  let codeword := zeros (length data + nsym) in
  let codeword := arraySet codeword data 0 in
  arraySet codeword parity (length data).

Record Decoded : Type := mkDecoded {
  data : list Z;
  corrected : bool;
  errorCount : nat
}.

(** Syndromes [synd[i] = polyEval(msg, gfPow(2, i))]. *)
Definition syndromes (msg : list Z) (nsym : nat) : list Z :=
  map (fun i => polyEval msg (gfPow 2 (Z.of_nat i))) (seq 0 nsym).

(** The Berlekamp-Massey loop; the state is [(errLoc, oldLoc)]. *)
Definition findErrLoc (synd : list Z) (nsym : nat) : result (list Z * list Z) :=
  fold_left
    (fun st i =>
       '(errLoc, oldLoc) <- st ;;
       let delta :=
         fold_left
           (fun d j =>
              Z.lxor d
                (if (j <=? i)%nat
                 then gfMul (nth (length errLoc - 1 - j) errLoc 0) (nth (i - j) synd 0)
                 else 0))
           (seq 1 (length errLoc - 1)) (nth i synd 0) in
       let oldLoc := oldLoc ++ [0] in
       if delta =? 0 then Ok (errLoc, oldLoc)
       else
         '(errLoc, oldLoc) <-
           (if (length errLoc <? length oldLoc)%nat then
              let newLoc := polyScale oldLoc delta in
              inv <- gfDiv 1 delta ;;
              Ok (newLoc, polyScale errLoc inv)
            else Ok (errLoc, oldLoc)) ;;
         Ok (polyAdd errLoc (polyScale oldLoc delta), oldLoc))
    (seq 0 nsym) (Ok ([1], [1])).

(** The position search: [i] with [errLoc(2^i) = 0] gives position
    [msg.length - 1 - i]. *)
Definition findErrPositions (errLoc : list Z) (msgLen : nat) : list nat :=
  flat_map
    (fun i => if polyEval errLoc (gfPow 2 (Z.of_nat i)) =? 0
              then [(msgLen - 1 - i)%nat] else [])
    (seq 0 msgLen).

(** [for (let j = 1; j < errLoc.length; j += 2)] *)
Definition oddIndices (n : nat) : list nat :=
  filter Nat.odd (seq 0 n).

Definition correctErrors (msg errLoc errEval : list Z) (errPositions : list nat)
  : result (list Z) :=
  fold_left
    (fun st pos =>
       msg <- st ;;
       let xi := gfPow 2 (Z.of_nat (length msg - 1 - pos)) in
       let errLocPrime :=
         fold_left
           (fun acc j =>
              Z.lxor acc (gfMul (nth (length errLoc - 1 - j) errLoc 0)
                                (gfPow xi (Z.of_nat j))))
           (oddIndices (length errLoc)) 1 in
       let y := polyEval errEval xi in
       magnitude <- gfDiv (gfMul y xi) errLocPrime ;;
       Ok (upd pos (Z.lxor (nth pos msg 0) magnitude) msg))
    errPositions (Ok msg).

Definition rsDecode (codeword : list Z) (nsym : nat) : result Decoded :=
  let msg := codeword in
  let prefix := jsSlice codeword 0 (Z.of_nat (length codeword) - Z.of_nat nsym) in
  match codeword with
  | [] =>
      (* [polyEval([], x)] is [undefined]: every syndrome is [!== 0], the
         locator loop runs on [undefined] values without throwing
         ([gfDiv] is only reached with [a = 1] and [b !== 0]), and the
         position search over an empty message finds nothing. *)
      if (nsym =? 0)%nat then Ok (mkDecoded prefix true 0)
      else Ok (mkDecoded prefix false 0)
  | _ :: _ =>
      let synd := syndromes msg nsym in
      let hasError := existsb (fun s => negb (s =? 0)) synd in
      if negb hasError then Ok (mkDecoded prefix true 0)
      else
        '(errLoc, _) <- findErrLoc synd nsym ;;
        let errPositions := findErrPositions errLoc (length msg) in
        if ((length errPositions =? 0) || (nsym <? length errPositions))%nat
        then Ok (mkDecoded prefix false (length errPositions))
        else
          let syndPoly := 0 :: synd in
          let errLocRev := rev errLoc in
          let errEval0 := polyMul syndPoly errLocRev in
          let errEval := jsSlice errEval0 (Z.of_nat (length errEval0) - Z.of_nat nsym)
                                 (Z.of_nat (length errEval0)) in
          msg' <- correctErrors msg errLoc errEval errPositions ;;
          Ok (mkDecoded (jsSlice msg' 0 (Z.of_nat (length msg') - Z.of_nat nsym))
                        true (length errPositions))
  end.

End ReedSolomon.

(** ** Floating point

    The sources compute on IEEE-754 numbers: C++ [float] and JS
    [Float32Array] elements ([f32]), C++ [double] and JS [number]
    ([f64]).  Their operations are an interface; no property below
    depends on how an instance rounds.  [f64_dec m e] is the literal
    [m * 10^e]. *)

Class FloatOps : Type := {
  f32 : Type;
  f64 : Type;
  f32_zero : f32;
  f32_add : f32 -> f32 -> f32;
  f32_gt0 : f32 -> bool;
  f32_to_f64 : f32 -> f64;
  f64_to_f32 : f64 -> f32;
  f64_dec : Z -> Z -> f64;
  f64_of_Z : Z -> f64;
  f64_add : f64 -> f64 -> f64;
  f64_sub : f64 -> f64 -> f64;
  f64_mul : f64 -> f64 -> f64;
  f64_div : f64 -> f64 -> f64;
  f64_sqrt : f64 -> f64;
  f64_cos : f64 -> f64;
  f64_lt : f64 -> f64 -> bool;
  f64_round : f64 -> Z
}.

(** ** payload.ts *)

Module Payload.

Import BitUtils ReedSolomon.

Definition SYNC_PATTERN : list Z :=
  [1;0;1;0;1;1;0;1;  0;1;0;1;0;0;1;0;
   1;1;1;0;0;1;1;0;  0;1;1;0;0;0;1;1;
   1;0;0;1;1;0;1;0;  0;1;1;1;0;0;1;0;
   1;0;1;1;0;1;0;0;  1;1;0;0;1;0;1;1].

Definition PARITY_BYTES : nat := 32.
Definition INTERLEAVE_DEPTH : nat := 8.

(** *** Hexadecimal strings *)

Definition hexDigit (d : Z) : ascii :=
  nth (Z.to_nat d)
      ["0"; "1"; "2"; "3"; "4"; "5"; "6"; "7"; "8"; "9";
       "a"; "b"; "c"; "d"; "e"; "f"]%char "0"%char.

Definition hexValue (c : ascii) : option Z :=
  let n := Z.of_nat (nat_of_ascii c) in
  if (48 <=? n) && (n <=? 57) then Some (n - 48)
  else if (97 <=? n) && (n <=? 102) then Some (n - 87)
  else if (65 <=? n) && (n <=? 70) then Some (n - 55)
  else None.

(** [b.toString(16)] for an element [b] of a [Uint8Array] *)
Definition toString16 (b : Z) : string :=
  if b <? 16 then String (hexDigit b) EmptyString
  else String (hexDigit (b / 16)) (String (hexDigit (b mod 16)) EmptyString).

(** [s.padStart(2, "0")] *)
Definition padStart2 (s : string) : string :=
  match String.length s with
  | O => "00"
  | S O => String "0" s
  | _ => s
  end.

(** [uuid.replace(/-/g, "")] *)
Fixpoint removeDashes (s : string) : string :=
  match s with
  | EmptyString => EmptyString
  | String c rest =>
      if Ascii.eqb c "-" then removeDashes rest else String c (removeDashes rest)
  end.

Definition isSpace (c : ascii) : bool :=
  let n := nat_of_ascii c in
  ((n =? 32) || ((9 <=? n) && (n <=? 13)))%nat.

Fixpoint skipSpace (s : string) : string :=
  match s with
  | String c rest => if isSpace c then skipSpace rest else s
  | EmptyString => s
  end.

(** The longest prefix of hexadecimal digits, read as a number;
    [None] when there is no digit. *)
Fixpoint hexPrefix (s : string) (acc : option Z) : option Z :=
  match s with
  | String c rest =>
      match hexValue c with
      | Some d => hexPrefix rest (Some (match acc with Some a => 16 * a + d | None => d end))
      | None => acc
      end
  | EmptyString => acc
  end.

(** [parseInt(s, 16)] on a string of 7-bit characters; [None] is [NaN]. *)
Definition parseInt16 (s : string) : option Z :=
  let s := skipSpace s in
  let '(sign, s) :=
    match s with
    | String "-" rest => (-1, rest)
    | String "+" rest => (1, rest)
    | _ => (1, s)
    end in
  let s :=
    match s with
    | String "0" (String "x" rest) => rest
    | String "0" (String "X" rest) => rest
    | _ => s
    end in
  option_map (Z.mul sign) (hexPrefix s None).

(** A store into a [Uint8Array]: [NaN] becomes 0, a number is taken
    modulo 256. *)
Definition toUint8 (v : option Z) : Z :=
  match v with
  | Some z => z mod 256
  | None => 0
  end.

Definition uuidToBytes (uuid : string) : list Z :=
  let hex := removeDashes uuid in
  map (fun i => toUint8 (parseInt16 (substring (i * 2) 2 hex))) (seq 0 16).

(** [hex.slice(a, b)] for [0 <= a <= b] *)
Definition strSlice (s : string) (a b : nat) : string := substring a (b - a) s.

Definition bytesToUuid (bytes : list Z) : string :=
  let hex := String.concat EmptyString (map (fun b => padStart2 (toString16 b)) bytes) in
  (strSlice hex 0 8 ++ "-" ++ strSlice hex 8 12 ++ "-" ++ strSlice hex 12 16 ++ "-"
     ++ strSlice hex 16 20 ++ "-" ++ strSlice hex 20 32)%string.

(** *** Numbers and bits *)

(** [bits[bitCount - 1 - i] = (value >> i) & 1], for a non-negative
    [value] below [2^31] and [bitCount <= 32]. *)
Definition numberToBits (value : Z) (bitCount : nat) : list Z :=
  fold_left
    (fun bits i => upd (bitCount - 1 - i) (Z.land (Z.shiftr value (Z.of_nat i)) 1) bits)
    (seq 0 bitCount) (zeros bitCount).

(** [value = (value << 1) | (bits[i] & 1)]; the callers pass at most
    16 bits, so the 32-bit shift never wraps. *)
Definition bitsToNumber (bits : list Z) : Z :=
  fold_left (fun value b => Z.lor (Z.shiftl value 1) (Z.land b 1)) bits 0.

(** *** Sync search *)

Definition countMatches (data pattern : list Z) (i : nat) : nat :=
  fold_left
    (fun matches j => if nth (i + j) data 0 =? nth j pattern 0 then S matches else matches)
    (seq 0 (length pattern)) O.

(** [matches / pattern.length >= num / den]: the quotient of two
    integers compared with the decimal literal [num / den].  For the
    64-bit pattern the division is exact, and for any length below
    [2^49] the double comparison agrees with the rational one; a zero
    length gives [NaN], which compares false. *)
Definition ratioGe (matches len : nat) (num den : Z) : bool :=
  (0 <? len)%nat && (num * Z.of_nat len <=? den * Z.of_nat matches).

(** The loop of [findSync] over the candidate indices still to visit:
    [inl i] is the early [return i], [inr] the state at the end of the
    loop. *)
Fixpoint syncLoop (data pattern : list Z) (candidates : list nat)
         (bestMatch : nat) (bestIndex : Z) : Z + (nat * Z) :=
  match candidates with
  | [] => inr (bestMatch, bestIndex)
  | i :: rest =>
      let matches := countMatches data pattern i in
      let '(bestMatch, bestIndex) :=
        if (bestMatch <? matches)%nat then (matches, Z.of_nat i)
        else (bestMatch, bestIndex) in
      if ratioGe matches (length pattern) 17 20 then inl (Z.of_nat i)
      else syncLoop data pattern rest bestMatch bestIndex
  end.

(** [for (let i = 0; i <= data.length - pattern.length; i++)] *)
Definition syncCandidates (data pattern : list Z) : list nat :=
  if (length pattern <=? length data)%nat
  then seq 0 (length data - length pattern + 1)
  else [].

Definition findSync (data pattern : list Z) : Z :=
  match syncLoop data pattern (syncCandidates data pattern) 0 (-1) with
  | inl i => i
  | inr (bestMatch, bestIndex) =>
      if ratioGe bestMatch (length pattern) 3 5 then bestIndex else -1
  end.

(** *** Frames *)

Definition buildBitstream (signatureId : string) : list Z :=
  let payloadBuffer := uuidToBytes signatureId in
  let encoded := rsEncode payloadBuffer PARITY_BYTES in
  let bits := bytesToBits encoded in
  let interleaved := interleaveBits bits INTERLEAVE_DEPTH in
  let lengthBits := numberToBits (Z.of_nat (length payloadBuffer)) 16 in
  let bitstream := zeros (length SYNC_PATTERN + length lengthBits + length interleaved) in
  let bitstream := arraySet bitstream SYNC_PATTERN 0 in
  let bitstream := arraySet bitstream lengthBits (length SYNC_PATTERN) in
  arraySet bitstream interleaved (length SYNC_PATTERN + length lengthBits).

Record DecodedPayload : Type := mkDecodedPayload {
  signatureId : option string;
  payloadHash : option string;
  success : bool;
  dErrorCount : nat
}.

Section Decode.

(** [crypto.createHash("sha256").update(bytes).digest("hex")] *)
Variable sha256_hex : list Z -> string.

(** The frame fields read by [decodeBitstream] once the sync index
    is known: the length field and the codeword handed to
    [rsDecode]. *)
Definition frameLength (bitstream : list Z) (syncIndex : Z) : Z :=
  let start := syncIndex + Z.of_nat (length SYNC_PATTERN) in
  bitsToNumber (jsSlice bitstream start (start + 16)).

Definition frameCodeword (bitstream : list Z) (syncIndex : Z) : list Z :=
  let start := syncIndex + Z.of_nat (length SYNC_PATTERN) in
  let payloadLength := frameLength bitstream syncIndex in
  let expectedCodewordBits := (payloadLength + Z.of_nat PARITY_BYTES) * 8 in
  let payloadBits := jsSlice bitstream (start + 16) (start + 16 + expectedCodewordBits) in
  let deinterleaved := deinterleaveBits payloadBits INTERLEAVE_DEPTH in
  bitsToBytes deinterleaved.

Definition decodeBitstream (bitstream : list Z) : result DecodedPayload :=
  let syncIndex := findSync bitstream SYNC_PATTERN in
  if syncIndex <? 0 then Ok (mkDecodedPayload None None false 0)
  else
    let payloadLength := frameLength bitstream syncIndex in
    let codeword := frameCodeword bitstream syncIndex in
    d <- rsDecode codeword PARITY_BYTES ;;
    if negb (corrected d) then Ok (mkDecodedPayload None None false (errorCount d))
    else
      let payloadBytes := jsSlice (data d) 0 payloadLength in
      if payloadLength =? 16 then
        Ok (mkDecodedPayload (Some (bytesToUuid payloadBytes))
                             (Some (sha256_hex payloadBytes))
                             true (errorCount d))
      else Ok (mkDecodedPayload None None false (errorCount d)).

End Decode.

(** *** Soft voting *)

Section Voting.

Context {FO : FloatOps}.

Definition period : nat := 64 + 16 + (16 + 32) * 8.

Definition signBit (x : f32) : Z := if f32_gt0 x then 1 else 0.

(** The folding loops: [positionSums[i] += correlations[idx]]
    whenever [idx < correlations.length]. *)
Definition positionSums (correlations : list f32) (repetitions : nat) : list f32 :=
  fold_left
    (fun sums r =>
       fold_left
         (fun sums' i =>
            let idx := (r * period + i)%nat in
            if (idx <? length correlations)%nat
            then upd i (f32_add (nth i sums' f32_zero) (nth idx correlations f32_zero)) sums'
            else sums')
         (seq 0 period) sums)
    (seq 0 repetitions) (repeat f32_zero period).

Definition applySoftMajorityVoting (correlations : list f32) : list Z :=
  let repetitions := (length correlations / period)%nat in
  if (repetitions <? 2)%nat then map signBit correlations
  else map signBit (positionSums correlations repetitions).

End Voting.

End Payload.

(** ** The native embedder (watermark addon, C++) *)

Module Native.

Record WavData {FO : FloatOps} : Type := mkWavData {
  sampleRate : Z;
  channels : Z;
  samples : list f32
}.
Arguments mkWavData {FO} sampleRate channels samples.

(** What a call of the addon can do: return after [writeWav], raise a
    JavaScript exception, or run into behaviour C++ leaves undefined
    (a division by zero, an access past the end of a vector, a loop
    that never ends). *)
Inductive outcome (A : Type) : Type :=
| Done (a : A)
| Raised (msg : string)
| Undef.
Arguments Done {A} a.
Arguments Raised {A} msg.
Arguments Undef {A}.

Definition two64 : Z := 2 ^ 64.

(** FNV-1a over the bytes of the secret, in [uint64_t] arithmetic. *)
Definition hashSecret (secret : string) : Z :=
  fold_left
    (fun hash c =>
       let hash := Z.lxor hash (Z.of_nat (nat_of_ascii c)) in
       (hash * 1099511628211) mod two64)
    (list_ascii_of_string secret) 1469598103934665603.

Module XorShift64.

Definition init (seed : Z) : Z :=
  if seed =? 0 then 0x9e3779b97f4a7c15 else seed.

(** [next] returns the new state, which is also the value drawn. *)
Definition next (state : Z) : Z :=
  let x := state in
  let x := Z.lxor x (Z.shiftl x 13 mod two64) in
  let x := Z.lxor x (Z.shiftr x 7) in
  let x := Z.lxor x (Z.shiftl x 17 mod two64) in
  x.

End XorShift64.

Section Embedder.

Context {FO : FloatOps}.

Definition kPi : f64 := f64_dec 314159265358979323846 (-20).

Definition nextDouble (x : Z) : f64 :=
  f64_mul (f64_of_Z (Z.shiftr x 11))
          (f64_div (f64_dec 1 0) (f64_dec 9007199254740992 0)).

(** [rawPN[i] = prng.nextDouble() * 2.0 - 1.0] for [i < n] *)
Fixpoint rawPN (n : nat) (state : Z) : list f64 :=
  match n with
  | O => []
  | S n' =>
      let x := XorShift64.next state in
      f64_sub (f64_mul (nextDouble x) (f64_dec 2 0)) (f64_dec 1 0) :: rawPN n' x
  end.

(** The mean of [v[idx]] over [idx = i + j], [-width <= j <= width],
    [0 <= idx < samplesPerBit]: [sum / count]. *)
Definition windowMean (v : list f64) (samplesPerBit : nat) (width : nat) (i : nat) : f64 :=
  let '(sum, count) :=
    fold_left
      (fun '(sum, count) k =>
         let idx := Z.of_nat i + (Z.of_nat k - Z.of_nat width) in
         if (0 <=? idx) && (idx <? Z.of_nat samplesPerBit)
         then (f64_add sum (nth (Z.to_nat idx) v (f64_of_Z 0)), count + 1)
         else (sum, count))
      (seq 0 (2 * width + 1)) (f64_of_Z 0, 0) in
  f64_div sum (f64_of_Z count).

(** The carrier of bit position [pos]: raw noise, low-pass filter,
    DC removal, normalisation, Hann window. *)
Definition pnSequence (baseSeed : Z) (samplesPerBit : nat) (pos : nat) : list f64 :=
  let seed := Z.lxor baseSeed ((Z.of_nat pos * 0x9e3779b97f4a7c15) mod two64) in
  let raw := rawPN samplesPerBit (XorShift64.init seed) in
  let filterWidth := 32%nat in
  let pn := map (windowMean raw samplesPerBit filterWidth) (seq 0 samplesPerBit) in
  let dcWidth := 256%nat in
  let temp := pn in
  let pn :=
    map (fun i => f64_sub (nth i pn (f64_of_Z 0))
                          (windowMean temp samplesPerBit dcWidth i))
        (seq 0 samplesPerBit) in
  let energy := fold_left (fun e x => f64_add e (f64_mul x x)) pn (f64_of_Z 0) in
  let norm := f64_sqrt (f64_div energy (f64_of_Z (Z.of_nat samplesPerBit))) in
  let pn := if f64_lt (f64_dec 1 (-10)) norm
            then map (fun x => f64_div x norm) pn else pn in
  map (fun i =>
         let window :=
           f64_mul (f64_dec 5 (-1))
             (f64_sub (f64_dec 1 0)
                (f64_cos (f64_div (f64_mul (f64_mul (f64_dec 2 0) kPi)
                                           (f64_of_Z (Z.of_nat i)))
                                  (f64_of_Z (Z.of_nat samplesPerBit - 1))))) in
         f64_mul (nth i pn (f64_of_Z 0)) window)
      (seq 0 samplesPerBit).

(** [std::clamp(v, lo, hi)] *)
Definition clamp (v lo hi : f64) : f64 :=
  if f64_lt v lo then lo else if f64_lt hi v then hi else v.

(** The number of iterations of
    [for (i = 0, j = channelIndex; j < size; i++, j += channels)]. *)
Definition strideCount (size channels channelIndex : nat) : nat :=
  if (channelIndex <? size)%nat
  then ((size - channelIndex + channels - 1) / channels)%nat
  else 0%nat.

(** [getChannelSamples], for [channels >= 1]: [out] has
    [size / channels] elements and iteration [i] writes [out[i]]. *)
Definition getChannelSamples (interleaved : list f32) (channels channelIndex : nat)
  : list f32 :=
  fold_left
    (fun out i => upd i (nth (channelIndex + i * channels) interleaved f32_zero) out)
    (seq 0 (strideCount (length interleaved) channels channelIndex))
    (repeat f32_zero (length interleaved / channels)).

Definition writeChannelSamples (interleaved channelData : list f32)
           (channels channelIndex : nat) : list f32 :=
  fold_left
    (fun acc i => upd (channelIndex + i * channels) (nth i channelData f32_zero) acc)
    (seq 0 (strideCount (length interleaved) channels channelIndex))
    interleaved.

(** Both loops above stay inside their vectors exactly when the
    iteration count does not exceed the per-channel length. *)
Definition strideInBounds (size channels channelIndex : nat) : bool :=
  (strideCount size channels channelIndex <=? size / channels)%nat.

(** One block of the embedding loop. *)
Definition embedBlock (strength : f64) (pnSequences : nat -> list f64)
           (bitstream removeBits : list Z) (samplesPerBit : nat)
           (blockStart bitIndex : nat) (lr : list f32 * list f32)
  : list f32 * list f32 :=
  let '(left_, right_) := lr in
  let actualBitIndex := (bitIndex mod length bitstream)%nat in
  let bit := if nth actualBitIndex bitstream 0 =? 0 then 0 else 1 in
  let pnSequence := pnSequences actualBitIndex in
  let sign := if bit =? 0 then f64_dec (-1) 0 else f64_dec 1 0 in
  let localEnergy :=
    fold_left
      (fun e i =>
         let sample :=
           f64_mul (f32_to_f64 (f32_add (nth (blockStart + i) left_ f32_zero)
                                        (nth (blockStart + i) right_ f32_zero)))
                   (f64_dec 5 (-1)) in
         f64_add e (f64_mul sample sample))
      (seq 0 samplesPerBit) (f64_of_Z 0) in
  let localEnergy := f64_sqrt (f64_div localEnergy (f64_of_Z (Z.of_nat samplesPerBit))) in
  let adaptiveStrength :=
    f64_mul strength (clamp (f64_mul localEnergy (f64_dec 4 0))
                            (f64_dec 1 (-1)) (f64_dec 6 (-1))) in
  let removeBit :=
    match removeBits with
    | [] => -1
    | _ => if nth (actualBitIndex mod length removeBits) removeBits 0 =? 0 then 0 else 1
    end in
  fold_left
    (fun '(left_, right_) i =>
       let idx := (blockStart + i)%nat in
       let delta :=
         f64_mul (f64_mul (nth i pnSequence (f64_of_Z 0)) sign) adaptiveStrength in
       let delta :=
         if 0 <=? removeBit then
           let oldSign := if removeBit =? 0 then f64_dec (-1) 0 else f64_dec 1 0 in
           f64_sub delta
             (f64_mul (f64_mul (nth i pnSequence (f64_of_Z 0)) oldSign) adaptiveStrength)
         else delta in
       (upd idx (f32_add (nth idx left_ f32_zero) (f64_to_f32 delta)) left_,
        upd idx (f32_add (nth idx right_ f32_zero) (f64_to_f32 delta)) right_))
    (seq 0 samplesPerBit) (left_, right_).

(** [for (blockStart = 0; blockStart + samplesPerBit <= totalSamples;
    blockStart += samplesPerBit)], with [bitIndex++] at the end of the
    body.  [None] when the fuel runs out before the loop condition
    fails. *)
Fixpoint embedLoop (fuel : nat) (step : nat -> nat -> list f32 * list f32 -> list f32 * list f32)
         (samplesPerBit totalSamples : nat) (blockStart bitIndex : nat)
         (lr : list f32 * list f32) : option (list f32 * list f32) :=
  if (blockStart + samplesPerBit <=? totalSamples)%nat then
    match fuel with
    | O => None
    | S fuel' =>
        embedLoop fuel' step samplesPerBit totalSamples
                  (blockStart + samplesPerBit) (S bitIndex)
                  (step blockStart bitIndex lr)
    end
  else Some lr.

Record Options : Type := mkOptions {
  oSampleRate : Z;
  oChannels : Z;
  oBlockSize : Z;
  oHopSize : Z;
  oSecret : string;
  oEmbedStrength : f64;
  oRotationSeconds : f64;
  oRemoveBitstream : option (list Z)
}.

Definition int_max : Z := 2 ^ 31 - 1.

(** [Napi::Number::Int32Value] on a number with an integral value: the
    low 32 bits of the value, read as an [int]. *)
Definition int32Value (v : Z) : Z := (v + 2 ^ 31) mod 2 ^ 32 - 2 ^ 31.

(** [EmbedWatermark], from the result of [readWav] to the data
    handed to [writeWav]; the options are the values read from the
    options object.  The lines printed on [stderr] are left out.
    A negative [samplesPerBit] makes the [std::vector] constructor
    throw (the message is the library's); a zero one makes the block
    loop run for ever; an empty bitstream is read out of bounds. *)
Definition EmbedWatermark (wav : WavData) (bitBuffer : list Z) (options : Options)
  : outcome WavData :=
  let sampleRate' := oSampleRate options in
  let channels' := oChannels options in
  let hopSize := oHopSize options in
  let secret := oSecret options in
  let embedStrength := oEmbedStrength options in
  let bitstream := bitBuffer in
  let removeBits :=
    match oRemoveBitstream options with
    | Some b => b
    | None => []
    end in
  if negb ((sampleRate wav =? sampleRate') && (channels wav =? channels'))
  then Raised "Unexpected WAV format"
  else if channels' <=? 0 then Undef
  else
    let ch := Z.to_nat channels' in
    let size := length (samples wav) in
    if negb (strideInBounds size ch 0
             && ((channels' <=? 1) || strideInBounds size ch 1))
    then Undef
    else
      let left_ := getChannelSamples (samples wav) ch 0 in
      let right_ := if 1 <? channels' then getChannelSamples (samples wav) ch 1 else left_ in
      let totalSamples := length left_ in
      let baseSeed := hashSecret secret in
      if negb ((- int_max - 1 <=? hopSize * 4) && (hopSize * 4 <=? int_max)) then Undef
      else
        let samplesPerBit := hopSize * 4 in
        let strength := f64_dec 7 (-3) in
        if samplesPerBit <? 0
        then Raised "cannot create std::vector larger than max_size()"
        else if (samplesPerBit =? 0) || (length bitstream =? 0)%nat then Undef
        else
          let spb := Z.to_nat samplesPerBit in
          let pnSequences := pnSequence baseSeed spb in
          match embedLoop (S totalSamples)
                          (embedBlock strength pnSequences bitstream removeBits spb)
                          spb totalSamples 0 0 (left_, right_) with
          | None => Undef
          | Some (left_, right_) =>
              let interleaved := repeat f32_zero size in
              let interleaved := writeChannelSamples interleaved left_ ch 0 in
              let interleaved :=
                if 1 <? channels' then writeChannelSamples interleaved right_ ch 1
                else interleaved in
              Done (mkWavData (sampleRate wav) (channels wav) interleaved)
          end.

End Embedder.

End Native.

(** ** addon.ts *)

Module Addon.

Import Native.

Section Addon.

Context {FO : FloatOps}.

Record EmbedOptions : Type := mkEmbedOptions {
  secret : string;
  sampleRate : option Z;
  channels : option Z;
  blockSize : option Z;
  hopSize : option Z;
  embedStrength : option f64;
  rotationSeconds : option f64;
  removeBitstream : option (list Z)
}.

(** [x ?? d] *)
Definition orDefault {A : Type} (x : option A) (d : A) : A :=
  match x with
  | Some v => v
  | None => d
  end.

(** The options object built by [embedWatermark], as the native code
    reads it: the four numbers read with [Int32Value()], the two others
    with [DoubleValue()].  A number given for one of the four is taken
    to have an integral value. *)
Definition nativeOptions (options : EmbedOptions) : Options :=
  mkOptions (int32Value (orDefault (sampleRate options) 44100))
            (int32Value (orDefault (channels options) 2))
            (int32Value (orDefault (blockSize options) 4096))
            (int32Value (orDefault (hopSize options) 1024))
            (secret options)
            (orDefault (embedStrength options) (f64_dec 5 (-4)))
            (orDefault (rotationSeconds options) (f64_dec 5 0))
            (removeBitstream options).

(** The file system seen by the addon: what [readWav] returns for a
    path, or the message of the exception it raises. *)
Variable readWav : string -> result WavData.

(** Whether a path can be opened for writing: [writeWav] throws when
    its [std::ofstream] fails to open, and writes the data otherwise. *)
Variable canOpen : string -> bool.

(** [embedWatermark]: the native call reads the input, embeds, and
    hands the result to [writeWav(outputPath, outWav)] as its last
    step.  The outcome carries the output path and the data written
    there. *)
Definition embedWatermark (inputPath outputPath : string) (bitstream : list Z)
           (options : EmbedOptions) : outcome (string * WavData) :=
  match readWav inputPath with
  | Throw msg => Raised msg
  | Ok wav =>
      match EmbedWatermark wav bitstream (nativeOptions options) with
      | Done out =>
          if canOpen outputPath then Done (outputPath, out)
          else Raised "Failed to open output WAV file"
      | Raised msg => Raised msg
      | Undef => Undef
      end
  end.

(** The same options with another [embedStrength]. *)
Definition withEmbedStrength (options : EmbedOptions) (s : option f64) : EmbedOptions :=
  mkEmbedOptions (secret options) (sampleRate options) (channels options)
                 (blockSize options) (hopSize options) s
                 (rotationSeconds options) (removeBitstream options).

End Addon.

End Addon.

(** ** engine.ts *)

Module Engine.

Import Payload.

Record WatermarkPayload : Type := mkWatermarkPayload {
  signature_id : string;
  project_id : string;
  recipient_identifier : string;
  timestamp : string
}.

Section Engine.

Context {FO : FloatOps}.

Record ExtractResult : Type := mkExtractResult {
  bitstream : list Z;
  correlations : list f32;
  bitConfidence : f64;
  bandAgreement : f64;
  blocksAnalyzed : f64
}.

Record Stats : Type := mkStats {
  sBitConfidence : f64;
  sBandAgreement : f64;
  sBlocksAnalyzed : f64;
  sErrorCount : nat
}.

Record DetectResult : Type := mkDetectResult {
  detected : bool;
  confidence : Z;
  payload : option WatermarkPayload;
  dPayloadHash : option string;
  stats : Stats
}.

Variable sha256_hex : list Z -> string.

(** [Math.max(0, x)] *)
Definition max0 (x : f64) : f64 :=
  if f64_lt x (f64_of_Z 0) then f64_of_Z 0 else x.

(** [!decoded.signatureId]: [null] and the empty string are falsy. *)
Definition falsyId (id : option string) : bool :=
  match id with
  | None => true
  | Some s => String.eqb s EmptyString
  end.

(** [detect], from the result of [extractWatermark]; [lookupFn]
    answers [None] for [null] or [undefined], and the [await] is a
    plain call. *)
Definition detect (extracted : ExtractResult)
           (lookupFn : string -> option WatermarkPayload) : result DetectResult :=
  let votedBitstream := applySoftMajorityVoting (correlations extracted) in
  decoded <- decodeBitstream sha256_hex votedBitstream ;;
  let stats := mkStats (bitConfidence extracted) (bandAgreement extracted)
                       (blocksAnalyzed extracted) (dErrorCount decoded) in
  if negb (success decoded) || falsyId (signatureId decoded)
  then Ok (mkDetectResult false 0 None (payloadHash decoded) stats)
  else
    let storedPayload := lookupFn (Addon.orDefault (signatureId decoded) EmptyString) in
    let bitRecoveryRatio :=
      max0 (f64_sub (f64_of_Z 1)
                    (f64_div (f64_of_Z (Z.of_nat (dErrorCount decoded))) (f64_of_Z 32))) in
    let hit (b : bool) : f64 := if b then f64_of_Z 1 else f64_of_Z 0 in
    let confidence :=
      f64_round
        (f64_mul (f64_of_Z 100)
           (f64_add
              (f64_add
                 (f64_add
                    (f64_add (f64_mul (f64_dec 35 (-2)) (bitConfidence extracted))
                             (f64_mul (f64_dec 2 (-1)) (bandAgreement extracted)))
                    (f64_mul (f64_dec 2 (-1)) bitRecoveryRatio))
                 (f64_mul (f64_dec 15 (-2)) (hit (success decoded))))
              (f64_mul (f64_dec 1 (-1))
                       (hit (match storedPayload with Some _ => true | None => false end))))) in
    Ok (mkDetectResult (match storedPayload with Some _ => true | None => false end)
                       confidence storedPayload (payloadHash decoded) stats).

End Engine.

End Engine.

Import BitUtils ReedSolomon Payload.

(** ** Specification-side definitions and sample inputs *)

(** *** An instance of the floating-point interface

    Integers with their exact arithmetic stand in for the IEEE numbers
    wherever a property is run on a concrete input. *)

#[local] Instance IntFloat : FloatOps := {|
  f32 := Z;
  f64 := Z;
  f32_zero := 0;
  f32_add := Z.add;
  f32_gt0 := fun x => 0 <? x;
  f32_to_f64 := fun x => x;
  f64_to_f32 := fun x => x;
  f64_dec := fun m e => if e <? 0 then m / 10 ^ (- e) else m * 10 ^ e;
  f64_of_Z := fun z => z;
  f64_add := Z.add;
  f64_sub := Z.sub;
  f64_mul := Z.mul;
  f64_div := Z.div;
  f64_sqrt := Z.sqrt;
  f64_cos := fun _ => 1;
  f64_lt := Z.ltb;
  f64_round := fun z => z
|}.

Section Specification.

Context {FO : FloatOps}.

(** *** Sums and frames of the claims *)

(** The sum of the spec: [S[p]] adds [C[r * T + p]] over the [reps]
    whole repetitions, in the order of [r], starting from zero. *)
Definition foldedSum (C : list f32) (reps p : nat) : f32 :=
  fold_left (fun s r => f32_add s (nth (r * period + p) C f32_zero)) (seq 0 reps) f32_zero.

(** What a block step may touch: the samples of its own block. *)
Definition touchesOnly (spb : nat)
           (step : nat -> nat -> list f32 * list f32 -> list f32 * list f32) : Prop :=
  forall blockStart bitIndex l r,
    let '(l', r') := step blockStart bitIndex (l, r) in
    length l' = length l /\ length r' = length r /\
    forall j, (j < blockStart \/ blockStart + spb <= j)%nat ->
              nth j l' f32_zero = nth j l f32_zero /\
              nth j r' f32_zero = nth j r f32_zero.

End Specification.

(** *** Sample inputs *)

(** A 64-bit vector that agrees with the sync pattern in exactly 38
    places: the first 26 bits are complemented. *)
Definition sync38 : list Z :=
  [0;1;0;1;0;0;1;0;  1;0;1;0;1;1;0;1;
   0;0;0;1;1;0;0;1;  1;0;1;0;0;0;1;1;
   1;0;0;1;1;0;1;0;  0;1;1;1;0;0;1;0;
   1;0;1;1;0;1;0;0;  1;1;0;0;1;0;1;1].

(** Two full periods and two extra correlations, with values 1, -2
    and 0 by position, under the integer instance. *)
Definition sampleCorrelations : list Z :=
  map (fun i => Z.of_nat (i mod 3) * (if (i mod 2 =? 0)%nat then 1 else -2)) (seq 0 930).

(** A stereo buffer of five frames, embedded with 4 samples per bit:
    one whole block, and a one-frame tail. *)
Definition sampleWav : Native.WavData (FO := IntFloat) :=
  Native.mkWavData (FO := IntFloat) 44100 2 [10; 11; 20; 21; 30; 31; 40; 41; 50; 51].

Definition sampleOptions : Addon.EmbedOptions (FO := IntFloat) :=
  Addon.mkEmbedOptions (FO := IntFloat) "k" None None None (Some 1) None None None.

(** The extraction of an 88-block recording whose correlation signs
    spell the sync pattern, the length 16 and eight zero bits. *)
Definition truncatedFrame : list Z := SYNC_PATTERN ++ numberToBits 16 16 ++ zeros 8.

Definition truncatedExtraction : Engine.ExtractResult (FO := IntFloat) :=
  Engine.mkExtractResult (FO := IntFloat) truncatedFrame truncatedFrame 1 1 88.

Definition anyPayload : Engine.WatermarkPayload :=
  Engine.mkWatermarkPayload "id" "project" "recipient" "2024-01-01T00:00:00.000Z".

(** *** Field elements, sums of polynomials *)

Definition isByte (z : Z) : Prop := 0 <= z < 256.
Definition isByteb (z : Z) : bool := (0 <=? z) && (z <? 256).

(** Every element of [GF(2^8)], for checks by enumeration. *)
Definition allBytes : list Z := map Z.of_nat (seq 0 256).

(** [gfMul a x] as the sum over the set bits [k] of [a] of
    [gfMul (2^k) x]. *)
Definition bitwiseMul (a x : Z) : Z :=
  fold_left (fun acc k => Z.lxor acc (if Z.testbit a (Z.of_nat k) then gfMul (2 ^ Z.of_nat k) x else 0))
            (seq 0 8) 0.

(** Pointwise sum of two polynomials of the same length. *)
Fixpoint xorl (p q : list Z) : list Z :=
  match p, q with
  | a :: p', b :: q' => Z.lxor a b :: xorl p' q'
  | _, _ => []
  end.

(** The generator scaled by [coef] and aligned at position [i] of a
    message of [len] coefficients. *)
Definition shiftedGen (gen : list Z) (coef : Z) (i len : nat) : list Z :=
  zeros i ++ map (fun gj => gfMul gj coef) gen ++ zeros (len - i - length gen).

(** The generator polynomial of the 32 parity bytes, computed once. *)
Definition generator32 : list Z := Eval vm_compute in rsGeneratorPoly 32.

(** The 32 points [2^0 .. 2^31] at which syndromes are taken. *)
Definition roots32 : list Z := map (fun i => gfPow 2 (Z.of_nat i)) (seq 0 32).

(** Multiplication by [x] distributes over the sum of two bytes. *)
Definition additiveAt (x : Z) : Prop :=
  forall a b, isByte a -> isByte b ->
              gfMul (Z.lxor a b) x = Z.lxor (gfMul a x) (gfMul b x).

(** A byte as the sum of its set bits. *)
Definition bitsOf (c : Z) : Z :=
  fold_left (fun acc k => Z.lxor acc (if Z.testbit c (Z.of_nat k) then 2 ^ Z.of_nat k else 0))
            (seq 0 8) 0.

(** The generator scaled by a field element. *)
Definition scaledGen (coef : Z) : list Z := map (fun gj => gfMul gj coef) generator32.

(** *** Bits read with padding *)

(** The bit read by [bitsToBytes] at index [idx]: the low bit of the
    entry, or 0 past the end. *)
Definition paddedBit (bits : list Z) (idx : nat) : Z :=
  if (idx <? length bits)%nat then Z.land (nth idx bits 0) 1 else 0.

(** *** Multiplication by the generator of the field *)

(** A byte times [x] in [GF(2)[x]] modulo the primitive polynomial:
    one shift and a conditional reduction, as in [initTables]. *)
Definition xtime (a : Z) : Z :=
  let x := Z.shiftl a 1 in
  if Z.eqb (Z.land x 0x100) 0 then x else Z.lxor x PRIMITIVE_POLY.

(** *** Option records that differ in one field *)

(** The same options with another [blockSize] and another
    [rotationSeconds]. *)
Definition withBlockSizeRotation {FO : FloatOps} (options : Addon.EmbedOptions)
           (b : option Z) (r : option f64) : Addon.EmbedOptions :=
  Addon.mkEmbedOptions (Addon.secret options) (Addon.sampleRate options)
                       (Addon.channels options) b (Addon.hopSize options)
                       (Addon.embedStrength options) r (Addon.removeBitstream options).

(** A three-channel buffer of two frames. *)
Definition sampleWav3 : Native.WavData (FO := IntFloat) :=
  Native.mkWavData (FO := IntFloat) 44100 3 [10; 11; 12; 20; 21; 22].

Definition sampleOptions3 : Addon.EmbedOptions (FO := IntFloat) :=
  Addon.mkEmbedOptions (FO := IntFloat) "k" None (Some 3) None (Some 1) None None None.

(** *** What the embedder adds *)

Section Increments.

Context {FO : FloatOps}.

(** A block step that adds one and the same increment to the left and
    to the right sample of every frame of its block, whatever the
    block holds. *)
Definition addsSameIncrement (spb : nat)
           (step : nat -> nat -> list f32 * list f32 -> list f32 * list f32) : Prop :=
  forall blockStart bitIndex l r,
    (blockStart + spb <= length l)%nat -> (blockStart + spb <= length r)%nat ->
    let '(l', r') := step blockStart bitIndex (l, r) in
    exists D : nat -> f32,
      forall i, (i < spb)%nat ->
                nth (blockStart + i) l' f32_zero
                = f32_add (nth (blockStart + i) l f32_zero) (D i) /\
                nth (blockStart + i) r' f32_zero
                = f32_add (nth (blockStart + i) r f32_zero) (D i).

End Increments.

(** ** The native extractor (watermark addon, C++) *)

(** [std::abs] on a [double], the one operation of the extractor that
    the embedder does not use. *)
Class FloatAbs (FO : FloatOps) : Type := {
  f64_abs : f64 -> f64
}.

Module NativeExtract.

Import Native.

Section Extractor.

Context {FO : FloatOps} {FA : FloatAbs FO}.

(** The object returned to JavaScript. *)
Record Extracted : Type := mkExtracted {
  xBitstream : list Z;
  xCorrelations : list f32;
  xBitConfidence : f64;
  xBandAgreement : f64;
  xBlocksAnalyzed : f64
}.

(** [64 + 16 + (16 + 32) * 8] *)
Definition payloadLen : nat := 64 + 16 + (16 + 32) * 8.

(** One block of the correlation loop: the value pushed on
    [correlations] and the term added to [confidenceSum]. *)
Definition extractBlock (pnSequences : nat -> list f64) (samplesPerBit : nat)
           (left_ right_ : list f32) (blockStart bitIndex : nat) : f32 * f64 :=
  let actualBitIndex := (bitIndex mod payloadLen)%nat in
  let pnSequence := pnSequences actualBitIndex in
  let '(correlation, signalEnergy, pnEnergy) :=
    fold_left
      (fun '(correlation, signalEnergy, pnEnergy) i =>
         let sample :=
           f64_mul (f32_to_f64 (f32_add (nth (blockStart + i) left_ f32_zero)
                                        (nth (blockStart + i) right_ f32_zero)))
                   (f64_dec 5 (-1)) in
         let pn := nth i pnSequence (f64_of_Z 0) in
         (f64_add correlation (f64_mul sample pn),
          f64_add signalEnergy (f64_mul sample sample),
          f64_add pnEnergy (f64_mul pn pn)))
      (seq 0 samplesPerBit) (f64_dec 0 0, f64_dec 0 0, f64_dec 0 0) in
  let normalizedCorr :=
    if f64_lt (f64_dec 1 (-20)) signalEnergy
    then f64_div correlation (f64_sqrt signalEnergy)
    else f64_dec 0 0 in
  let conf :=
    if f64_lt (f64_dec 1 (-20)) signalEnergy && f64_lt (f64_dec 1 (-20)) pnEnergy
    then f64_div (f64_abs correlation) (f64_sqrt (f64_mul signalEnergy pnEnergy))
    else f64_of_Z 0 in
  (f64_to_f32 normalizedCorr,
   if f64_lt conf (f64_dec 1 0) then conf else f64_dec 1 0).

(** [for (blockStart = 0; blockStart + samplesPerBit <= totalSamples;
    blockStart += samplesPerBit)]; the state is [(correlations,
    confidenceSum, bitsAnalyzed)].  [None] when the fuel runs out
    before the loop condition fails. *)
Fixpoint extractLoop (fuel : nat) (block : nat -> nat -> f32 * f64)
         (samplesPerBit totalSamples : nat) (blockStart bitIndex : nat)
         (st : list f32 * f64 * nat) : option (list f32 * f64 * nat) :=
  if (blockStart + samplesPerBit <=? totalSamples)%nat then
    match fuel with
    | O => None
    | S fuel' =>
        let '(correlations, confidenceSum, bitsAnalyzed) := st in
        let '(c, conf) := block blockStart bitIndex in
        extractLoop fuel' block samplesPerBit totalSamples
                    (blockStart + samplesPerBit) (S bitIndex)
                    (correlations ++ [c], f64_add confidenceSum conf, S bitsAnalyzed)
    end
  else Some st.

(** [ExtractWatermark], from the result of [readWav] to the object
    returned.  The lines printed on [stderr] are left out.  As in the
    embedder, a negative [samplesPerBit] makes the [std::vector]
    constructor throw.  With a zero one the block loop never leaves its
    first position and pushes correlations until memory runs out; the
    model does not follow it there and answers [Undef]. *)
Definition ExtractWatermark (wav : WavData) (options : Options) : outcome Extracted :=
  let sampleRate' := oSampleRate options in
  let channels' := oChannels options in
  let hopSize := oHopSize options in
  let secret := oSecret options in
  if negb ((sampleRate wav =? sampleRate') && (channels wav =? channels'))
  then Raised "Unexpected WAV format"
  else if channels' <=? 0 then Undef
  else
    let ch := Z.to_nat channels' in
    let size := length (samples wav) in
    if negb (strideInBounds size ch 0
             && ((channels' <=? 1) || strideInBounds size ch 1))
    then Undef
    else
      let left_ := getChannelSamples (samples wav) ch 0 in
      let right_ := if 1 <? channels' then getChannelSamples (samples wav) ch 1 else left_ in
      let totalSamples := length left_ in
      let baseSeed := hashSecret secret in
      if negb ((- int_max - 1 <=? hopSize * 4) && (hopSize * 4 <=? int_max)) then Undef
      else
        let samplesPerBit := hopSize * 4 in
        if samplesPerBit <? 0
        then Raised "cannot create std::vector larger than max_size()"
        else if samplesPerBit =? 0 then Undef
        else
          let spb := Z.to_nat samplesPerBit in
          let pnSequences := pnSequence baseSeed spb in
          match extractLoop (S totalSamples) (extractBlock pnSequences spb left_ right_)
                            spb totalSamples 0 0 ([], f64_dec 0 0, 0%nat) with
          | None => Undef
          | Some (correlations, confidenceSum, bitsAnalyzed) =>
              let bits := map (fun c => if f32_gt0 c then 1 else 0) correlations in
              Done (mkExtracted
                      bits correlations
                      (if (bitsAnalyzed =? 0)%nat then f64_dec 0 0
                       else f64_div confidenceSum (f64_of_Z (Z.of_nat bitsAnalyzed)))
                      (f64_dec 1 0)
                      (f64_of_Z (Z.of_nat bitsAnalyzed)))
          end.

(** [extractWatermark] of addon.ts: the defaults of the options (the
    four numbers read with [Int32Value()] by the native code), and the
    native result with its two buffers viewed as typed arrays.  The
    object passed has no [rotationSeconds] and no [removeBitstream];
    the extractor reads neither, and the record carries the embedder's
    defaults there. *)
Definition extractWatermark (readWav : string -> result WavData) (inputPath : string)
           (options : Addon.EmbedOptions) : outcome Engine.ExtractResult :=
  match readWav inputPath with
  | Throw msg => Raised msg
  | Ok wav =>
      match ExtractWatermark wav
              (mkOptions (int32Value (Addon.orDefault (Addon.sampleRate options) 44100))
                         (int32Value (Addon.orDefault (Addon.channels options) 2))
                         (int32Value (Addon.orDefault (Addon.blockSize options) 4096))
                         (int32Value (Addon.orDefault (Addon.hopSize options) 1024))
                         (Addon.secret options)
                         (Addon.orDefault (Addon.embedStrength options) (f64_dec 5 (-4)))
                         (f64_dec 5 0) None) with
      | Done x =>
          Done (Engine.mkExtractResult (xBitstream x) (xCorrelations x) (xBitConfidence x)
                                       (xBandAgreement x) (xBlocksAnalyzed x))
      | Raised msg => Raised msg
      | Undef => Undef
      end
  end.

End Extractor.

End NativeExtract.

(** The same options with another [embedStrength] and another
    [blockSize]. *)
Definition withStrengthBlockSize {FO : FloatOps} (options : Addon.EmbedOptions)
           (s : option f64) (b : option Z) : Addon.EmbedOptions :=
  Addon.mkEmbedOptions (Addon.secret options) (Addon.sampleRate options)
                       (Addon.channels options) b (Addon.hopSize options)
                       s (Addon.rotationSeconds options) (Addon.removeBitstream options).

#[local] Instance IntAbs : FloatAbs IntFloat :=
  {| f64_abs := (Z.abs : @f64 IntFloat -> @f64 IntFloat) |}.

(** ** wav.cc: reading and writing 32-bit float WAV files *)

(** A file is its bytes.  The three header structs have no padding
    (12, 24 and 8 bytes) and are read and written as they lie in
    memory, on a little-endian machine.  A sample is moved as its four
    bytes and never computed on: it is kept as its 32-bit pattern.
    Allocation and the writes to the output stream are taken to
    succeed. *)

Module Wav.

Import Native.

Record WavData : Type := mkWavData {
  sampleRate : Z;
  channels : Z;
  samples : list Z
}.

(** The value of a little-endian field. *)
Definition le (bytes : list Z) : Z :=
  fold_right (fun b acc => b + 256 * acc) 0 bytes.

(** The [n] bytes of an unsigned field holding [v]. *)
Definition toLe (n : nat) (v : Z) : list Z :=
  map (fun i => (v / 256 ^ Z.of_nat i) mod 256) (seq 0 n).

(** The characters of a chunk identifier. *)
Definition tag (s : string) : list Z :=
  map (fun c => Z.of_nat (nat_of_ascii c)) (list_ascii_of_string s).

(** The field of [len] bytes at offset [off] of a struct. *)
Definition field (bytes : list Z) (off len : nat) : list Z :=
  firstn len (skipn off bytes).

(** [vector<float>] from its bytes, four at a time. *)
Fixpoint floats (bytes : list Z) : list Z :=
  match bytes with
  | b0 :: b1 :: b2 :: b3 :: rest => le [b0; b1; b2; b3] :: floats rest
  | _ => []
  end.

(** Equality of two byte strings, as [strncmp] decides it on four
    characters none of which is NUL in the identifier looked for. *)
Fixpoint bytesEqb (a b : list Z) : bool :=
  match a, b with
  | [], [] => true
  | x :: a', y :: b' => (x =? y) && bytesEqb a' b'
  | _, _ => false
  end.

Definition obind {A B : Type} (o : outcome A) (k : A -> outcome B) : outcome B :=
  match o with
  | Done a => k a
  | Raised m => Raised m
  | Undef => Undef
  end.

(** [readExact] at stream position [pos]: the bytes read and the new
    position.  A position past the end (after a [seekg]) yields no
    byte. *)
Definition readExact (file : list Z) (pos size : nat) : outcome (list Z * nat) :=
  if (size =? 0)%nat then Done ([], pos)
  else if (pos + size <=? length file)%nat
       then Done (firstn size (skipn pos file), (pos + size)%nat)
       else Raised "Unexpected EOF".

(** The search for the data chunk: a header is read; while its
    identifier is not "data" its payload is skipped and the next header
    read.  Returns [subchunk2Size] and the position of the payload.
    Every turn consumes eight bytes, so [length file] turns of fuel are
    never used up. *)
Fixpoint findData (fuel : nat) (file : list Z) (pos : nat) : outcome (Z * nat) :=
  obind (readExact file pos 8) (fun '(dataHeader, pos) =>
    if bytesEqb (field dataHeader 0 4) (tag "data")
    then Done (le (field dataHeader 4 4), pos)
    else
      match fuel with
      | O => Undef
      | S fuel' => findData fuel' file (pos + Z.to_nat (le (field dataHeader 4 4)))%nat
      end).

(** [static_cast<int>] of a [uint32_t]. *)
Definition toInt32 (v : Z) : Z := if v <? 2 ^ 31 then v else v - 2 ^ 32.

(** [readWav]; [None] is a path that cannot be opened. *)
Definition readWav (file : option (list Z)) : outcome WavData :=
  match file with
  | None => Raised "Failed to open WAV file"
  | Some file =>
      obind (readExact file 0 12) (fun '(riff, pos) =>
      if negb (bytesEqb (field riff 0 4) (tag "RIFF")
               && bytesEqb (field riff 8 4) (tag "WAVE"))
      then Raised "Invalid WAV file"
      else
        obind (readExact file pos 24) (fun '(fmt, pos) =>
        if negb (bytesEqb (field fmt 0 4) (tag "fmt "))
        then Raised "Invalid fmt chunk"
        else
          let subchunk1Size := le (field fmt 4 4) in
          let pos := if 16 <? subchunk1Size
                     then (pos + Z.to_nat (subchunk1Size - 16))%nat else pos in
          if negb ((le (field fmt 8 2) =? 3) && (le (field fmt 22 2) =? 32))
          then Raised "Only 32-bit float WAV supported"
          else
            obind (findData (length file) file pos) (fun '(subchunk2Size, pos) =>
            let size := Z.to_nat subchunk2Size in
            let sampleCount := (size / 4)%nat in
            let got := Nat.min (length file - pos) size in
            if (sampleCount * 4 <? got)%nat then Undef
            else if (got <? size)%nat then Raised "Unexpected EOF"
            else
              Done (mkWavData (toInt32 (le (field fmt 12 4)))
                              (le (field fmt 10 2))
                              (floats (firstn size (skipn pos file)))))))
  end.

(** [writeWav]: the bytes written; [canOpen] tells whether the output
    path can be opened. *)
Definition writeWav (canOpen : bool) (data : WavData) : result (list Z) :=
  if negb canOpen then Throw "Failed to open output WAV file"
  else
    let dataSize := (Z.of_nat (length (samples data)) * 4) mod 2 ^ 32 in
    let fmtChunkSize := 16 in
    let riffSize := (4 + (8 + fmtChunkSize) + (8 + dataSize)) mod 2 ^ 32 in
    let numChannels := channels data mod 2 ^ 16 in
    let sampleRate' := sampleRate data mod 2 ^ 32 in
    let bitsPerSample := 32 in
    let byteRate := (sampleRate' * numChannels * (bitsPerSample / 8)) mod 2 ^ 32 in
    let blockAlign := (numChannels * (bitsPerSample / 8)) mod 2 ^ 16 in
    Ok ((tag "RIFF" ++ toLe 4 riffSize ++ tag "WAVE")
        ++ (tag "fmt " ++ toLe 4 fmtChunkSize ++ toLe 2 3 ++ toLe 2 numChannels
            ++ toLe 4 sampleRate' ++ toLe 4 byteRate ++ toLe 2 blockAlign
            ++ toLe 2 bitsPerSample)
        ++ (tag "data" ++ toLe 4 dataSize)
        ++ firstn (Z.to_nat dataSize) (flat_map (toLe 4) (samples data))).

End Wav.

(** A stereo buffer of two frames: the samples 0.0, 1.0, -1.0 and 0.5
    as bit patterns. *)
Definition sampleFloatWav : Wav.WavData :=
  Wav.mkWavData 44100 2 [0; 0x3F800000; 0xBF800000; 0x3F000000].

(** A 16-bit PCM header: the 36 bytes up to the end of the format
    chunk, with [audioFormat = 1] and [bitsPerSample = 16]. *)
Definition pcm16Header : list Z :=
  (Wav.tag "RIFF" ++ Wav.toLe 4 36 ++ Wav.tag "WAVE")
  ++ (Wav.tag "fmt " ++ Wav.toLe 4 16 ++ Wav.toLe 2 1 ++ Wav.toLe 2 2
      ++ Wav.toLe 4 44100 ++ Wav.toLe 4 176400 ++ Wav.toLe 2 4 ++ Wav.toLe 2 16).

(** The result of the data-chunk search, moved [k] bytes further. *)
Definition shiftPos (k : nat) (o : Native.outcome (Z * nat)) : Native.outcome (Z * nat) :=
  match o with
  | Native.Done (size, pos) => Native.Done (size, (pos + k)%nat)
  | Native.Raised m => Native.Raised m
  | Native.Undef => Native.Undef
  end.

(** The float WAV header of [sampleFloatWav], and a "LIST" chunk of two
    bytes. *)
Definition floatHeader : list Z :=
  (Wav.tag "RIFF" ++ Wav.toLe 4 62 ++ Wav.tag "WAVE")
  ++ (Wav.tag "fmt " ++ Wav.toLe 4 16 ++ Wav.toLe 2 3 ++ Wav.toLe 2 2
      ++ Wav.toLe 4 44100 ++ Wav.toLe 4 352800 ++ Wav.toLe 2 8 ++ Wav.toLe 2 32).

Definition floatData : list Z :=
  (Wav.tag "data" ++ Wav.toLe 4 16)
  ++ flat_map (Wav.toLe 4) (Wav.samples sampleFloatWav).

(** ** payload.ts and engine.ts: signing *)

Module Sign.

Section Sign.

Context {FO : FloatOps}.

(** [crypto.createHash("sha256").update(s).digest("hex")] on a string,
    and [JSON.stringify] on a payload object. *)
Variable sha256_hex_string : string -> string.
Variable json_stringify : Engine.WatermarkPayload -> string.

Record EncodedPayload : Type := mkEncodedPayload {
  ePayload : Engine.WatermarkPayload;
  ePayloadHash : string;
  eBitstream : list Z
}.

(** [encodePayload]; [uuid] is the value drawn by [uuidv4()] and [now]
    the value of [new Date().toISOString()]. *)
Definition encodePayload (uuid now : string) (projectId recipientIdentifier : string)
  : EncodedPayload :=
  let signatureId := uuid in
  let payload := Engine.mkWatermarkPayload signatureId projectId recipientIdentifier now in
  let payloadHash := sha256_hex_string (json_stringify payload) in
  mkEncodedPayload payload payloadHash (buildBitstream signatureId).

Record WatermarkOptions : Type := mkWatermarkOptions {
  wSecret : string;
  wSampleRate : option Z;
  wChannels : option Z;
  wEmbedStrength : option f64;
  wBlockSize : option Z;
  wHopSize : option Z
}.

Record SignResult : Type := mkSignResult {
  outputPath : string;
  sSignatureId : string;
  sPayloadHash : string;
  sPayload : Engine.WatermarkPayload
}.

Variable readWav : string -> result Native.WavData.
Variable canOpen : string -> bool.

(** [sign]: the result object together with what [embedWatermark]
    wrote; an exception of [embedWatermark] rejects the promise. *)
Definition sign (uuid now : string) (inputWavPath outputWavPath : string)
           (projectId recipientId : string) (options : WatermarkOptions)
  : Native.outcome (SignResult * (string * Native.WavData)) :=
  let e := encodePayload uuid now projectId recipientId in
  match Addon.embedWatermark readWav canOpen inputWavPath outputWavPath (eBitstream e)
          (Addon.mkEmbedOptions (wSecret options) (wSampleRate options) (wChannels options)
                                (wBlockSize options) (wHopSize options)
                                (wEmbedStrength options) None None) with
  | Native.Done written =>
      Native.Done (mkSignResult outputWavPath (Engine.signature_id (ePayload e))
                                (ePayloadHash e) (ePayload e),
                   written)
  | Native.Raised msg => Native.Raised msg
  | Native.Undef => Native.Undef
  end.

(** What a call wrote, without the result object. *)
Definition written (o : Native.outcome (SignResult * (string * Native.WavData)))
  : Native.outcome (string * Native.WavData) :=
  match o with
  | Native.Done (_, w) => Native.Done w
  | Native.Raised msg => Native.Raised msg
  | Native.Undef => Native.Undef
  end.

End Sign.

End Sign.


(** An extraction of 464 blocks whose correlations are +1 where the
    frame of the identifier 00010203-... has a 1 and -1 where it has a
    0. *)
Definition cleanExtraction : Engine.ExtractResult (FO := IntFloat) :=
  let frame := buildBitstream "00010203-0405-0607-0809-0a0b0c0d0e0f" in
  Engine.mkExtractResult (FO := IntFloat) frame (map (fun b => 2 * b - 1) frame) 1 1 464.

(** * Properties *)

(** ** Array updates *)

Lemma upd_length : forall (A : Type) (l : list A) i v, length (upd i v l) = length l.
Proof.
  induction l as [| h t IH]; intros [| i] v; cbn; auto.
Qed.

Lemma upd_nth_same :
  forall (A : Type) (l : list A) i v d, (i < length l)%nat -> nth i (upd i v l) d = v.
Proof.
  induction l as [| h t IH]; intros [| i] v d H; cbn in *; try lia; auto.
  apply IH. lia.
Qed.

Lemma upd_nth_other :
  forall (A : Type) (l : list A) i j v d, i <> j -> nth j (upd i v l) d = nth j l d.
Proof.
  induction l as [| h t IH]; intros [| i] [| j] v d H; cbn; auto; try contradiction.
Qed.

Lemma fold_seq_S :
  forall (A : Type) (f : A -> nat -> A) (s k : nat) (a : A),
    fold_left f (seq s (S k)) a = f (fold_left f (seq s k) a) (s + k)%nat.
Proof.
  intros. rewrite seq_S, fold_left_app. reflexivity.
Qed.

(** ** Typed-array plumbing *)

Lemma zeros_length : forall n, length (zeros n) = n.
Proof. intros n. apply repeat_length. Qed.

Lemma zeros_app : forall a b, zeros (a + b) = zeros a ++ zeros b.
Proof. intros a b. apply repeat_app. Qed.

(** Writing [src] over the middle part of [pre ++ mid ++ post]. *)
Lemma arraySet_app :
  forall pre mid post src : list Z,
    length mid = length src ->
    arraySet (pre ++ mid ++ post) src (length pre) = pre ++ src ++ post.
Proof.
  intros pre mid post src Hlen. unfold arraySet.
  rewrite firstn_app, firstn_all, Nat.sub_diag, firstn_O, app_nil_r.
  rewrite skipn_app.
  rewrite (skipn_all2 pre) by lia.
  replace (length pre + length src - length pre)%nat with (length mid) by lia.
  rewrite skipn_app, skipn_all, Nat.sub_diag, skipn_O. reflexivity.
Qed.

Lemma arraySet_zeros_0 :
  forall (src : list Z) n, arraySet (zeros (length src + n)) src 0 = src ++ zeros n.
Proof.
  intros src n. rewrite zeros_app.
  apply (arraySet_app [] (zeros (length src)) (zeros n) src). apply zeros_length.
Qed.

Lemma fold_upd_length :
  forall (A B : Type) (idx : list A -> B -> nat) (val : list A -> B -> A) (bs : list B) (l : list A),
    length (fold_left (fun acc b => upd (idx acc b) (val acc b) acc) bs l) = length l.
Proof.
  intros A B idx val bs. induction bs as [| b bs IH]; intros l; cbn; [reflexivity |].
  rewrite IH. apply upd_length.
Qed.

(** ** GF(2^8) *)

(** The tables are the ones [initTables] builds. *)
Lemma gfTables_init : (gfExp, gfLog) = initTables.
Proof. vm_compute. reflexivity. Qed.

(** C9: [gfDiv] gives 0 for a zero dividend whatever the divisor, throws
    "Division by zero" for a non-zero dividend and a zero divisor, and
    otherwise returns [exp[(log[a] + 255 - log[b]) mod 255]]. *)
Theorem gfDiv_cases :
  (forall b, gfDiv 0 b = Ok 0) /\
  (forall a, a <> 0 -> gfDiv a 0 = Throw "Division by zero") /\
  (forall a b, a <> 0 -> b <> 0 ->
     gfDiv a b = Ok (nth (Z.to_nat ((nth (Z.to_nat a) gfLog 0 + 255
                                      - nth (Z.to_nat b) gfLog 0) mod 255)) gfExp 0)).
Proof.
  repeat split.
  - intros a Ha. unfold gfDiv.
    destruct (Z.eqb_spec a 0) as [E | _]; [contradiction | reflexivity].
  - intros a b Ha Hb. unfold gfDiv.
    destruct (Z.eqb_spec a 0) as [E | _]; [contradiction |].
    destruct (Z.eqb_spec b 0) as [E | _]; [contradiction |].
    reflexivity.
Qed.

Lemma gfDiv_cases_witness :
  gfDiv 0 0 = Ok 0 /\ gfDiv 7 0 = Throw "Division by zero" /\ gfDiv 6 3 = Ok 2.
Proof.
  destruct gfDiv_cases as (H0 & Hz & Hd).
  split; [apply H0 |].
  split; [apply Hz; discriminate |].
  rewrite (Hd 6 3); [reflexivity | discriminate | discriminate].
Defined.

(** ** The embedder's strength option *)

(** C4: two runs of [embedWatermark] that differ only in the
    [embedStrength] option have the same outcome, output samples
    included: the embedder reads the option and then works with its own
    constant 0.007. *)
Theorem embedStrength_has_no_effect :
  forall (FO : FloatOps) (readWav : string -> result Native.WavData)
         (canOpen : string -> bool)
         (inputPath outputPath : string) (bitstream : list Z)
         (options : Addon.EmbedOptions) (s1 s2 : option f64),
    Addon.embedWatermark readWav canOpen inputPath outputPath bitstream
                         (Addon.withEmbedStrength options s1)
    = Addon.embedWatermark readWav canOpen inputPath outputPath bitstream
                           (Addon.withEmbedStrength options s2).
Proof.
  intros. unfold Addon.embedWatermark.
  destruct (readWav inputPath) as [wav | msg]; [| reflexivity].
  reflexivity.
Qed.

(** ** Interleaver *)

(** C1, at a 5-bit vector and depth 4: the interleaver drops the bit at
    index 3 when it truncates, and the round trip returns all zeros. *)
Theorem interleave_roundtrip_loses_bit :
  interleaveBits [0; 0; 0; 1; 0] 4 = [0; 0; 0; 0; 0] /\
  deinterleaveBits (interleaveBits [0; 0; 0; 1; 0] 4) 4 = [0; 0; 0; 0; 0] /\
  deinterleaveBits (interleaveBits [0; 0; 0; 1; 0] 4) 4 <> [0; 0; 0; 1; 0] /\
  deinterleaveBits (interleaveBits (bytesToBits [1]) 5) 5 = bytesToBits [0] /\
  deinterleaveBits (interleaveBits (bytesToBits [1]) 5) 5 <> bytesToBits [1].
Proof. vm_compute. repeat split; discriminate. Qed.

(** ** Reed-Solomon decoding of a corrupted codeword *)

(** C2, at the all-zero key with the first codeword byte changed to 1:
    the position search finds no root, and [rsDecode] gives back the
    corrupted prefix with [corrected = false] and [errorCount = 0].  With
    the last byte changed instead, the magnitude computation divides by
    zero and [rsDecode] throws. *)
Theorem rsDecode_single_error_not_corrected :
  rsEncode (repeat 0 16) 32 = repeat 0 48
  /\ rsDecode (1 :: repeat 0 47) 32 = Ok (mkDecoded (1 :: repeat 0 15) false 0)
  /\ rsDecode (repeat 0 47 ++ [1]) 32 = Throw "Division by zero".
Proof. vm_compute. repeat split. Qed.

(** ** Sync search *)

Section SyncSearch.

Variables data pattern : list Z.

Let m := countMatches data pattern.
Let high (x : nat) := ratioGe x (length pattern) 17 20.

(** The loop returns at the first candidate whose agreement reaches
    the upper threshold. *)
Lemma syncLoop_early :
  forall k s bestMatch bestIndex i,
    (s <= i < s + k)%nat ->
    high (m i) = true ->
    (forall j, (s <= j < i)%nat -> high (m j) = false) ->
    syncLoop data pattern (seq s k) bestMatch bestIndex = inl (Z.of_nat i).
Proof.
  induction k as [| k IH]; intros s bm bi i Hi Hhi Hlo; [lia |].
  cbn [seq syncLoop]. fold m. fold (high (m s)).
  destruct (Nat.eq_dec s i) as [-> | Hne].
  - rewrite Hhi. destruct (bm <? m i)%nat; reflexivity.
  - rewrite (Hlo s) by lia.
    destruct (bm <? m s)%nat; apply IH; try lia; auto;
      intros j Hj; apply Hlo; lia.
Qed.

(** When no candidate reaches the upper threshold the loop ends with
    the largest agreement seen and the first index that attains it. *)
Lemma syncLoop_best :
  forall k s bestMatch bestIndex,
    (forall j, (s <= j < s + k)%nat -> high (m j) = false) ->
    exists bm' bi',
      syncLoop data pattern (seq s k) bestMatch bestIndex = inr (bm', bi') /\
      (bestMatch <= bm')%nat /\
      (forall j, (s <= j < s + k)%nat -> (m j <= bm')%nat) /\
      ((bm' = bestMatch /\ bi' = bestIndex) \/
       (exists i, (s <= i < s + k)%nat /\ bi' = Z.of_nat i /\ m i = bm' /\
                  (bestMatch < bm')%nat /\
                  forall j, (s <= j < i)%nat -> (m j < bm')%nat)).
Proof.
  induction k as [| k IH]; intros s bm bi Hlo.
  - exists bm, bi. cbn [seq syncLoop].
    split; [reflexivity |]. split; [lia |]. split; [intros; lia |].
    left; split; reflexivity.
  - cbn [seq syncLoop]. fold m. fold (high (m s)).
    rewrite (Hlo s) by lia.
    destruct (Nat.ltb_spec bm (m s)) as [Hlt | Hge].
    + destruct (IH (S s) (m s) (Z.of_nat s)) as (bm' & bi' & E & Hle & Hmax & Hwho).
      { intros j Hj. apply Hlo. lia. }
      exists bm', bi'. split; [exact E |]. split; [lia |]. split.
      * intros j Hj. destruct (Nat.eq_dec j s) as [-> | Hne]; [lia | apply Hmax; lia].
      * right. destruct Hwho as [[-> ->] | (i & Hi & -> & Hmi & Hlt' & Hfirst)].
        -- exists s. repeat split; try lia.
        -- exists i. repeat split; try lia.
           intros j Hj. destruct (Nat.eq_dec j s) as [-> | Hne]; [lia | apply Hfirst; lia].
    + destruct (IH (S s) bm bi) as (bm' & bi' & E & Hle & Hmax & Hwho).
      { intros j Hj. apply Hlo. lia. }
      exists bm', bi'. split; [exact E |]. split; [lia |]. split.
      * intros j Hj. destruct (Nat.eq_dec j s) as [-> | Hne]; [lia | apply Hmax; lia].
      * destruct Hwho as [[-> ->] | (i & Hi & -> & Hmi & Hlt' & Hfirst)].
        -- left; split; reflexivity.
        -- right. exists i. repeat split; try lia.
           intros j Hj. destruct (Nat.eq_dec j s) as [-> | Hne]; [lia | apply Hfirst; lia].
Qed.

End SyncSearch.

(** For the 64-bit pattern the two ratio tests are integer thresholds:
    85% is 55 matching bits and 60% is 39 matching bits. *)
Lemma ratioGe_85_of_64 : forall x, ratioGe x 64 17 20 = (55 <=? x)%nat.
Proof.
  intros x. unfold ratioGe.
  replace (0 <? 64)%nat with true by reflexivity. rewrite andb_true_l.
  destruct (Nat.leb_spec 55 x); [apply Z.leb_le | apply Z.leb_gt]; lia.
Qed.

Lemma ratioGe_60_of_64 : forall x, ratioGe x 64 3 5 = (39 <=? x)%nat.
Proof.
  intros x. unfold ratioGe.
  replace (0 <? 64)%nat with true by reflexivity. rewrite andb_true_l.
  destruct (Nat.leb_spec 39 x); [apply Z.leb_le | apply Z.leb_gt]; lia.
Qed.

Lemma syncCandidates_seq :
  forall data pattern,
    exists k, syncCandidates data pattern = seq 0 k /\
              forall j, (j < k)%nat <-> (j + length pattern <= length data)%nat.
Proof.
  intros data pattern. unfold syncCandidates.
  destruct (Nat.leb_spec (length pattern) (length data)).
  - eexists; split; [reflexivity | intros; lia].
  - exists 0%nat; split; [reflexivity | intros; lia].
Qed.

(** C3 as stated fails: with the best agreement at 38 of 64 bits, which
    is 59.375%, [findSync] reports no sync. *)
Lemma findSync_rejects_38_of_64 :
  length sync38 = 64%nat /\
  countMatches sync38 SYNC_PATTERN 0 = 38%nat /\
  findSync sync38 SYNC_PATTERN = -1.
Proof. vm_compute. repeat split. Qed.

(** C3, amended: over the candidate indices [i] (those with
    [i + 64 <= length data]), [findSync] returns the first index whose
    agreement is at least 55 of 64; when there is none, the first index
    of largest agreement provided that agreement is at least 39 of 64;
    and -1 when every agreement is below 39. *)
Theorem findSync_thresholds :
  forall data : list Z,
    let m := countMatches data SYNC_PATTERN in
    let candidate (i : nat) := (i + 64 <= length data)%nat in
    (forall i, candidate i -> (55 <= m i)%nat ->
               (forall j, (j < i)%nat -> (m j < 55)%nat) ->
               findSync data SYNC_PATTERN = Z.of_nat i) /\
    (forall i, candidate i ->
               (forall j, candidate j -> (m j < 55)%nat) ->
               (39 <= m i)%nat ->
               (forall j, candidate j -> (m j <= m i)%nat) ->
               (forall j, (j < i)%nat -> (m j < m i)%nat) ->
               findSync data SYNC_PATTERN = Z.of_nat i) /\
    ((forall j, candidate j -> (m j < 39)%nat) ->
     findSync data SYNC_PATTERN = -1).
Proof.
  intros data m candidate.
  destruct (syncCandidates_seq data SYNC_PATTERN) as (k & Ek & Hk).
  change (length SYNC_PATTERN) with 64%nat in Hk.
  unfold findSync. rewrite Ek.
  change (length SYNC_PATTERN) with 64%nat.
  split; [| split].
  - intros i Hi Hm Hfirst.
    rewrite (syncLoop_early data SYNC_PATTERN k 0 0%nat (-1) i); [reflexivity | | |].
    + apply Hk in Hi. lia.
    + change (length SYNC_PATTERN) with 64%nat. rewrite ratioGe_85_of_64.
      apply Nat.leb_le. exact Hm.
    + intros j Hj. change (length SYNC_PATTERN) with 64%nat. rewrite ratioGe_85_of_64.
      apply Nat.leb_gt. apply Hfirst. lia.
  - intros i Hi Hlow Hm Hmax Hfirst.
    destruct (syncLoop_best data SYNC_PATTERN k 0 0%nat (-1))
      as (bm' & bi' & E & _ & Hall & Hwho).
    { intros j Hj. change (length SYNC_PATTERN) with 64%nat. rewrite ratioGe_85_of_64.
      apply Nat.leb_gt. apply Hlow. apply Hk. lia. }
    rewrite E.
    assert (Hib : (m i <= bm')%nat) by (apply Hall; apply Hk in Hi; lia).
    destruct Hwho as [[-> _] | (i' & Hi' & -> & Hmi' & _ & Hfirst')]; [fold m in Hib; lia |].
    fold m in Hmi', Hfirst', Hib.
    rewrite ratioGe_60_of_64.
    assert (Hle : (m i' <= m i)%nat) by (apply Hmax; apply Hk; lia).
    destruct (Nat.leb_spec 39 bm'); [| lia].
    f_equal.
    destruct (Nat.lt_trichotomy i' i) as [Hlt | [-> | Hgt]]; [| reflexivity |].
    + specialize (Hfirst i' Hlt). lia.
    + specialize (Hfirst' i). lia.
  - intros Hlow.
    destruct (syncLoop_best data SYNC_PATTERN k 0 0%nat (-1))
      as (bm' & bi' & E & _ & Hall & Hwho).
    { intros j Hj. change (length SYNC_PATTERN) with 64%nat. rewrite ratioGe_85_of_64.
      apply Nat.leb_gt. assert (m j < 39)%nat by (apply Hlow; apply Hk; lia).
      fold m. lia. }
    rewrite E. rewrite ratioGe_60_of_64.
    destruct Hwho as [[-> _] | (i' & Hi' & -> & Hmi' & _ & _)]; [reflexivity |].
    fold m in Hmi'.
    assert (m i' < 39)%nat by (apply Hlow; apply Hk; lia).
    destruct (Nat.leb_spec 39 bm'); [lia | reflexivity].
Qed.

Lemma findSync_thresholds_witness :
  findSync (1 :: SYNC_PATTERN) SYNC_PATTERN = 1 /\
  findSync (map (fun b => 1 - b) (firstn 20 SYNC_PATTERN) ++ skipn 20 SYNC_PATTERN)
           SYNC_PATTERN = 0 /\
  findSync sync38 SYNC_PATTERN = -1.
Proof.
  split; [| split].
  - apply (proj1 (findSync_thresholds (1 :: SYNC_PATTERN)) 1%nat).
    + vm_compute. lia.
    + vm_compute. lia.
    + intros j Hj. assert (j = 0%nat) as -> by lia. vm_compute. lia.
  - apply (proj1 (proj2 (findSync_thresholds _)) 0%nat).
    + vm_compute. lia.
    + intros j Hj. assert (j = 0%nat) as -> by (change (j + 64 <= 64)%nat in Hj; lia). vm_compute. lia.
    + vm_compute. lia.
    + intros j Hj. assert (j = 0%nat) as -> by (change (j + 64 <= 64)%nat in Hj; lia). vm_compute. lia.
    + intros j Hj. lia.
  - apply (proj2 (proj2 (findSync_thresholds sync38))).
    intros j Hj. assert (j = 0%nat) as -> by (change (j + 64 <= 64)%nat in Hj; lia). vm_compute. lia.
Defined.

(** ** Soft voting *)

Section VotingProperties.

Context {FO : FloatOps}.

(** One pass over the positions adds repetition [r] to the first [k]
    sums. *)
Lemma positionSums_pass :
  forall (C : list f32) (r k : nat) (sums : list f32),
    (k <= length sums)%nat ->
    (r * period + k <= length C)%nat ->
    let pass :=
      fold_left
        (fun sums' i =>
           let idx := (r * period + i)%nat in
           if (idx <? length C)%nat
           then upd i (f32_add (nth i sums' f32_zero) (nth idx C f32_zero)) sums'
           else sums')
        (seq 0 k) sums in
    length pass = length sums /\
    forall p, nth p pass f32_zero =
              if (p <? k)%nat
              then f32_add (nth p sums f32_zero) (nth (r * period + p) C f32_zero)
              else nth p sums f32_zero.
Proof.
  intros C r k. induction k as [| k IH]; intros sums Hk HC pass.
  - subst pass. cbn. split; [reflexivity | intros p; reflexivity].
  - subst pass. rewrite fold_seq_S.
    destruct (IH sums) as (Hlen & Hnth); [lia | lia |].
    match type of Hlen with length ?prev = _ => set (acc := prev) in * end.
    cbn zeta. cbn [Nat.add].
    destruct (Nat.ltb_spec (r * period + k) (length C)) as [_ | Hbad]; [| lia].
    split.
    + rewrite upd_length. exact Hlen.
    + intros p. destruct (Nat.eq_dec p k) as [-> | Hne].
      * rewrite upd_nth_same by (rewrite Hlen; lia). rewrite Hnth.
        destruct (Nat.ltb_spec k k); [lia |].
        destruct (Nat.ltb_spec k (S k)); [reflexivity | lia].
      * rewrite upd_nth_other by auto. rewrite Hnth.
        destruct (Nat.ltb_spec p k), (Nat.ltb_spec p (S k)); try lia; reflexivity.
Qed.

Lemma positionSums_nth :
  forall (C : list f32) (reps : nat),
    (reps * period <= length C)%nat ->
    length (positionSums C reps) = period /\
    forall p, (p < period)%nat ->
              nth p (positionSums C reps) f32_zero = foldedSum C reps p.
Proof.
  intros C reps. unfold positionSums, foldedSum.
  induction reps as [| reps IH]; intros HC.
  - cbn [seq fold_left]. split; [apply repeat_length |].
    intros p Hp. apply nth_repeat.
  - rewrite !fold_seq_S. cbn [Nat.add].
    destruct IH as (Hlen & Hnth); [lia |].
    match goal with
    | |- context [fold_left ?f (seq 0 period) ?sums] =>
        destruct (positionSums_pass C reps period sums) as (Hlen' & Hnth')
    end; [lia | lia |].
    cbn zeta in Hlen', Hnth'.
    split; [rewrite Hlen'; exact Hlen |].
    intros p Hp. rewrite Hnth'.
    destruct (Nat.ltb_spec p period); [| lia].
    rewrite Hnth by exact Hp.
    rewrite fold_seq_S. reflexivity.
Qed.

Lemma signBit_binary : forall x : f32, signBit x = 0 \/ signBit x = 1.
Proof. intros x. unfold signBit. destruct (f32_gt0 x); auto. Qed.

Lemma nth_map_signBit :
  forall (l : list f32) i,
    (i < length l)%nat -> nth i (map signBit l) 0 = signBit (nth i l f32_zero).
Proof.
  intros l i Hi. rewrite (nth_indep _ 0 (signBit f32_zero)) by (rewrite length_map; exact Hi).
  apply map_nth.
Qed.

(** C7: with [reps = floor(N / 464)], two or more repetitions give
    464 bits, bit [p] being 1 when the sum of [C[r * 464 + p]] over the
    whole repetitions [r < reps] is greater than 0 and 0 otherwise;
    fewer than two give [N] bits, bit [i] being 1 when [C[i]] is
    greater than 0 and 0 otherwise. *)
Theorem soft_voting_folds_whole_repetitions :
  forall C : list f32,
    let N := length C in
    let reps := (N / period)%nat in
    period = 464%nat /\
    ((2 <= reps)%nat ->
     length (applySoftMajorityVoting C) = period /\
     forall p, (p < period)%nat ->
               nth p (applySoftMajorityVoting C) 0
               = if f32_gt0 (foldedSum C reps p) then 1 else 0) /\
    ((reps < 2)%nat ->
     length (applySoftMajorityVoting C) = N /\
     forall i, (i < N)%nat ->
               nth i (applySoftMajorityVoting C) 0
               = if f32_gt0 (nth i C f32_zero) then 1 else 0).
Proof.
  intros C N reps. split; [reflexivity |].
  unfold applySoftMajorityVoting. fold N. fold reps.
  split; intros Hreps.
  - destruct (Nat.ltb_spec reps 2); [lia |].
    destruct (positionSums_nth C reps) as (Hlen & Hnth).
    { unfold reps, N. rewrite Nat.mul_comm. apply Nat.Div0.mul_div_le. }
    split; [rewrite length_map; exact Hlen |].
    intros p Hp. rewrite nth_map_signBit by (rewrite Hlen; exact Hp).
    rewrite Hnth by exact Hp. reflexivity.
  - destruct (Nat.ltb_spec reps 2); [| lia].
    split; [apply length_map |].
    intros i Hi. rewrite nth_map_signBit by exact Hi. reflexivity.
Qed.

(** C10: every voted bit is 0 or 1; a correlation, or a folded sum,
    that is not greater than zero gives bit 0; an all-zero input gives
    all-zero bits. *)
Theorem soft_voting_ties_to_zero :
  forall C : list f32,
    let N := length C in
    let reps := (N / period)%nat in
    Forall (fun b => b = 0 \/ b = 1) (applySoftMajorityVoting C) /\
    ((reps < 2)%nat ->
     forall i, (i < N)%nat -> f32_gt0 (nth i C f32_zero) = false ->
               nth i (applySoftMajorityVoting C) 0 = 0) /\
    ((2 <= reps)%nat ->
     forall p, (p < period)%nat -> f32_gt0 (foldedSum C reps p) = false ->
               nth p (applySoftMajorityVoting C) 0 = 0) /\
    (f32_gt0 f32_zero = false ->
     f32_add f32_zero f32_zero = f32_zero ->
     Forall (fun c => c = f32_zero) C ->
     Forall (fun b => b = 0) (applySoftMajorityVoting C)).
Proof.
  intros C N reps.
  assert (Hbits : forall l : list f32, Forall (fun b => b = 0 \/ b = 1) (map signBit l)).
  { intros l. apply Forall_forall. intros b Hb. apply in_map_iff in Hb.
    destruct Hb as (x & <- & _). apply signBit_binary. }
  unfold applySoftMajorityVoting. fold N. fold reps.
  split; [destruct (reps <? 2)%nat; apply Hbits |].
  split; [| split].
  - intros Hreps i Hi Hgt. destruct (Nat.ltb_spec reps 2); [| lia].
    rewrite nth_map_signBit by exact Hi. unfold signBit. rewrite Hgt. reflexivity.
  - intros Hreps p Hp Hgt. destruct (Nat.ltb_spec reps 2); [lia |].
    destruct (positionSums_nth C reps) as (Hlen & Hnth).
    { unfold reps, N. rewrite Nat.mul_comm. apply Nat.Div0.mul_div_le. }
    rewrite nth_map_signBit by (rewrite Hlen; exact Hp).
    rewrite Hnth by exact Hp. unfold signBit. rewrite Hgt. reflexivity.
  - intros Hz Hadd HC.
    assert (Hzero : forall l : list f32,
               Forall (fun c => c = f32_zero) l -> Forall (fun b => b = 0) (map signBit l)).
    { intros l Hl. apply Forall_forall. intros b Hb. apply in_map_iff in Hb.
      destruct Hb as (x & <- & Hx). rewrite Forall_forall in Hl.
      rewrite (Hl x Hx). unfold signBit. rewrite Hz. reflexivity. }
    destruct (Nat.ltb_spec reps 2) as [Hlt | Hge]; [apply Hzero; exact HC |].
    apply Hzero.
    destruct (positionSums_nth C reps) as (Hlen & Hnth).
    { unfold reps, N. rewrite Nat.mul_comm. apply Nat.Div0.mul_div_le. }
    apply Forall_forall. intros x Hx.
    destruct (In_nth _ _ f32_zero Hx) as (p & Hp & <-).
    rewrite Hlen in Hp. rewrite Hnth by exact Hp.
    assert (Hnz : forall j, nth j C f32_zero = f32_zero).
    { intros j. destruct (Nat.lt_ge_cases j (length C)) as [Hj | Hj].
      - rewrite Forall_forall in HC. apply HC. apply nth_In. exact Hj.
      - apply nth_overflow. exact Hj. }
    unfold foldedSum. generalize (seq 0 reps). intros l.
    induction l as [| r l IHl]; [reflexivity |].
    cbn [fold_left]. rewrite Hnz, Hadd. exact IHl.
Qed.

End VotingProperties.

Lemma soft_voting_folds_whole_repetitions_witness :
  (nth 1 (applySoftMajorityVoting (FO := IntFloat) sampleCorrelations) 0
   = if f32_gt0 (FloatOps := IntFloat) (foldedSum (FO := IntFloat) sampleCorrelations 2 1)
     then 1 else 0) /\
  (nth 1 (applySoftMajorityVoting (FO := IntFloat) [5; -2; 0]) 0
   = if f32_gt0 (FloatOps := IntFloat) (-2) then 1 else 0).
Proof.
  split.
  - destruct (soft_voting_folds_whole_repetitions (FO := IntFloat) sampleCorrelations)
      as (_ & H2 & _).
    apply H2; vm_compute; lia.
  - destruct (soft_voting_folds_whole_repetitions (FO := IntFloat) [5; -2; 0])
      as (_ & _ & H1).
    apply H1; vm_compute; lia.
Defined.

Lemma soft_voting_ties_to_zero_witness :
  nth 2 (applySoftMajorityVoting (FO := IntFloat) [5; -2; 0]) 0 = 0 /\
  nth 1 (applySoftMajorityVoting (FO := IntFloat) sampleCorrelations) 0 = 0 /\
  Forall (fun b => b = 0) (applySoftMajorityVoting (FO := IntFloat) (repeat 0 930)).
Proof.
  split; [| split].
  - destruct (soft_voting_ties_to_zero (FO := IntFloat) [5; -2; 0]) as (_ & H1 & _).
    apply H1; [vm_compute; lia | vm_compute; lia | reflexivity].
  - destruct (soft_voting_ties_to_zero (FO := IntFloat) sampleCorrelations) as (_ & _ & H2 & _).
    apply H2; [vm_compute; lia | vm_compute; lia | reflexivity].
  - destruct (soft_voting_ties_to_zero (FO := IntFloat) (repeat 0 930)) as (_ & _ & _ & H3).
    apply H3; [reflexivity | reflexivity |].
    apply Forall_forall. intros c Hc. apply repeat_spec in Hc. exact Hc.
Defined.

(** ** Bits and bytes *)

Lemma byteBits_length : forall x, length (byteBits x) = 8%nat.
Proof. intros x. reflexivity. Qed.

Lemma bytesToBits_length : forall bytes, length (bytesToBits bytes) = (8 * length bytes)%nat.
Proof.
  induction bytes as [| x t IH]; [reflexivity |].
  unfold bytesToBits in *. cbn [flat_map]. rewrite length_app, IH, byteBits_length.
  cbn [length]. lia.
Qed.

Lemma ceilDiv_covers : forall n rows, (0 < rows)%nat -> (n <= rows * ceilDiv n rows)%nat.
Proof.
  intros n rows Hr. unfold ceilDiv.
  pose proof (Nat.div_mod_eq (n + rows - 1) rows) as E.
  pose proof (Nat.mod_upper_bound (n + rows - 1) rows) as B.
  lia.
Qed.

Lemma flat_map_const_length :
  forall (A B : Type) (f : A -> list B) (k : nat) (l : list A),
    (forall a, length (f a) = k) -> length (flat_map f l) = (length l * k)%nat.
Proof.
  intros A B f k l Hf. induction l as [| a l IH]; [reflexivity |].
  cbn [flat_map length]. rewrite length_app, Hf, IH. lia.
Qed.

Lemma interleaveBits_length :
  forall bits depth, length (interleaveBits bits depth) = length bits.
Proof.
  intros bits depth. unfold interleaveBits.
  destruct (Nat.leb_spec depth 1) as [_ | Hd]; [reflexivity |].
  rewrite length_firstn.
  rewrite (flat_map_const_length _ _ _ depth)
    by (intros c; rewrite length_map, length_seq; reflexivity).
  rewrite length_seq.
  pose proof (ceilDiv_covers (length bits) depth). lia.
Qed.

(** ** Encoder output *)

Lemma encodeLoop_length :
  forall gen n msg0, length (encodeLoop gen n msg0) = length msg0.
Proof.
  intros gen n. unfold encodeLoop. generalize (seq 0 n). intros l.
  induction l as [| i l IH]; intros msg0; cbn [fold_left]; [reflexivity |].
  rewrite IH. destruct (nth i msg0 0 =? 0); [reflexivity |].
  apply (fold_upd_length Z nat (fun _ j => (i + j)%nat)
           (fun m j => Z.lxor (nth (i + j) m 0) (gfMul (nth j gen 0) (nth i msg0 0)))).
Qed.

(** The codeword is the data followed by the parity bytes left by the
    division loop. *)
Lemma rsEncode_systematic :
  forall data nsym,
    rsEncode data nsym
    = data ++ skipn (length data)
                    (encodeLoop (rsGeneratorPoly nsym) (length data) (data ++ zeros nsym)).
Proof.
  intros data nsym. unfold rsEncode. fold (encodeLoop (rsGeneratorPoly nsym) (length data) (data ++ zeros nsym)).
  cbv zeta.
  set (msg := encodeLoop _ _ _).
  assert (Hmsg : length msg = (length data + nsym)%nat).
  { unfold msg. rewrite encodeLoop_length, length_app, zeros_length. reflexivity. }
  rewrite arraySet_zeros_0.
  pose proof (arraySet_app data (zeros nsym) [] (skipn (length data) msg)) as E.
  rewrite !app_nil_r in E. apply E.
  rewrite zeros_length, length_skipn. lia.
Qed.

Lemma rsEncode_length :
  forall data nsym, length (rsEncode data nsym) = (length data + nsym)%nat.
Proof.
  intros data nsym. rewrite rsEncode_systematic, length_app, length_skipn.
  rewrite encodeLoop_length, length_app, zeros_length. lia.
Qed.

(** ** UUID strings *)

Lemma hexDigit_not_dash : forall d, Ascii.eqb (hexDigit d) "-" = false.
Proof.
  intros d. unfold hexDigit. generalize (Z.to_nat d). intros n.
  do 16 (destruct n as [| n]; [reflexivity |]). destruct n; reflexivity.
Qed.

(** A byte prints as its two hexadecimal digits. *)
Lemma byte_hex :
  forall b, 0 <= b < 256 ->
    padStart2 (toString16 b)
    = String (hexDigit (b / 16)) (String (hexDigit (b mod 16)) EmptyString).
Proof.
  intros b Hb. unfold toString16.
  destruct (Z.ltb_spec b 16) as [Hlt | Hge]; [| reflexivity].
  rewrite Z.div_small, Z.mod_small by lia. reflexivity.
Qed.

Lemma parseInt16_digits :
  forall h l, 0 <= h < 16 -> 0 <= l < 16 ->
    parseInt16 (String (hexDigit h) (String (hexDigit l) EmptyString)) = Some (16 * h + l).
Proof.
  intros h l Hh Hl.
  assert (Eh : exists n, (n < 16)%nat /\ h = Z.of_nat n) by (exists (Z.to_nat h); lia).
  assert (El : exists n, (n < 16)%nat /\ l = Z.of_nat n) by (exists (Z.to_nat l); lia).
  destruct Eh as (n & Hn & ->), El as (k & Hk & ->).
  do 16 (destruct n as [| n]; [do 16 (destruct k as [| k]; [reflexivity |]); lia |]).
  lia.
Qed.

Lemma parse_byte_hex :
  forall b, 0 <= b < 256 ->
    toUint8 (parseInt16 (String (hexDigit (b / 16)) (String (hexDigit (b mod 16)) EmptyString)))
    = b.
Proof.
  intros b Hb.
  rewrite parseInt16_digits.
  - unfold toUint8. rewrite <- Z.div_mod by lia. apply Z.mod_small. exact Hb.
  - split; [apply Z.div_pos; lia | apply Z.div_lt_upper_bound; lia].
  - apply Z.mod_pos_bound. lia.
Qed.

Lemma removeDashes_dash : forall s, removeDashes (String "-" s) = removeDashes s.
Proof. reflexivity. Qed.

Lemma removeDashes_keep :
  forall c s, Ascii.eqb c "-" = false -> removeDashes (String c s) = String c (removeDashes s).
Proof. intros c s E. cbn [removeDashes]. rewrite E. reflexivity. Qed.

(** Printing 16 bytes as a UUID and reading the UUID back gives the
    bytes. *)
Lemma uuid_roundtrip :
  forall K, length K = 16%nat -> Forall (fun b => 0 <= b < 256) K ->
    uuidToBytes (bytesToUuid K) = K.
Proof.
  intros K Hlen HK.
  do 16 (destruct K as [| ? K]; [discriminate Hlen |]).
  destruct K; [| discriminate Hlen]. clear Hlen.
  repeat match goal with
         | H : Forall _ (_ :: _) |- _ => inversion H as [| ? ? ? ?]; subst; clear H
         end.
  unfold bytesToUuid. cbn [map].
  rewrite !byte_hex by assumption.
  repeat match goal with
         | |- context [hexDigit ?x] =>
             let c := fresh "c" in
             let E := fresh "E" in
             pose proof (hexDigit_not_dash x) as E;
             remember (hexDigit x) as c
         end.
  unfold strSlice.
  cbn [String.concat String.append substring Nat.sub].
  unfold uuidToBytes.
  repeat first [rewrite removeDashes_dash | rewrite removeDashes_keep by assumption].
  cbn [removeDashes].
  cbn [map seq Nat.mul Nat.add substring].
  subst.
  rewrite !parse_byte_hex by assumption.
  reflexivity.
Qed.

(** ** Frame layout *)



(** Three [set] calls that fill a fresh array end to end. *)
Lemma arraySet_three :
  forall a b c : list Z,
    arraySet (arraySet (arraySet (zeros (length a + length b + length c)) a 0)
                       b (length a))
             c (length a + length b)
    = a ++ b ++ c.
Proof.
  intros a b c.
  rewrite <- Nat.add_assoc, arraySet_zeros_0, zeros_app.
  rewrite (arraySet_app a (zeros (length b)) (zeros (length c)) b) by apply zeros_length.
  pose proof (arraySet_app (a ++ b) (zeros (length c)) [] c (zeros_length _)) as E.
  rewrite app_nil_r, length_app, <- !app_assoc in E. rewrite app_nil_r in E. exact E.
Qed.

(** ** The embedder: shape of the output and the trailing partial block *)

Section EmbedderProperties.

Context {FO : FloatOps}.

Import Native.

(** A loop that writes [out[i] = f i] for [i < k]. *)
Lemma fold_upd_identity_index :
  forall (A : Type) (f : nat -> A) (d : A) (k : nat) (init : list A),
    (k <= length init)%nat ->
    let out := fold_left (fun out i => upd i (f i) out) (seq 0 k) init in
    length out = length init /\
    forall i, nth i out d = if (i <? k)%nat then f i else nth i init d.
Proof.
  intros A f d k. induction k as [| k IH]; intros init Hk out; subst out.
  - cbn. split; [reflexivity | intros i; reflexivity].
  - rewrite fold_seq_S. cbn [Nat.add].
    destruct (IH init) as (Hlen & Hnth); [lia |].
    split; [rewrite upd_length; exact Hlen |].
    intros i. destruct (Nat.eq_dec i k) as [-> | Hne].
    + rewrite upd_nth_same by (rewrite Hlen; lia).
      destruct (Nat.ltb_spec k (S k)); [reflexivity | lia].
    + rewrite upd_nth_other by auto. rewrite Hnth.
      destruct (Nat.ltb_spec i k), (Nat.ltb_spec i (S k)); try lia; reflexivity.
Qed.

Lemma stride_index_inj :
  forall ch c c' i i' : nat,
    (c < ch)%nat -> (c' < ch)%nat -> (c + i * ch = c' + i' * ch)%nat -> c = c' /\ i = i'.
Proof.
  intros ch c c' i i' Hc Hc' E.
  assert (i = i').
  { destruct (Nat.lt_trichotomy i i') as [Hlt | [-> | Hgt]]; [| reflexivity |].
    - assert (S i * ch <= i' * ch)%nat by (apply Nat.mul_le_mono_r; lia). cbn in H. lia.
    - assert (S i' * ch <= i * ch)%nat by (apply Nat.mul_le_mono_r; lia). cbn in H. lia. }
  subst i'. split; [lia | reflexivity].
Qed.

Lemma strideCount_exact :
  forall total ch c : nat, (c < ch)%nat -> strideCount (total * ch) ch c = total.
Proof.
  intros total ch c Hc. unfold strideCount.
  destruct (Nat.ltb_spec c (total * ch)) as [Hlt | Hge].
  - symmetry. apply (Nat.div_unique _ ch total (ch - 1 - c)); lia.
  - destruct total as [| total]; [reflexivity |]. cbn in Hge. lia.
Qed.

Lemma getChannelSamples_nth :
  forall (interleaved : list f32) (total ch c : nat),
    length interleaved = (total * ch)%nat -> (c < ch)%nat ->
    length (getChannelSamples interleaved ch c) = total /\
    forall i, (i < total)%nat ->
              nth i (getChannelSamples interleaved ch c) f32_zero
              = nth (c + i * ch) interleaved f32_zero.
Proof.
  intros interleaved total ch c Hlen Hc. unfold getChannelSamples.
  rewrite Hlen, strideCount_exact by exact Hc.
  rewrite Nat.div_mul by lia.
  destruct (fold_upd_identity_index f32
              (fun i => nth (c + i * ch) interleaved f32_zero) f32_zero
              total (repeat f32_zero total)) as (Hl & Hn).
  { rewrite repeat_length. lia. }
  split; [rewrite Hl; apply repeat_length |].
  intros i Hi. rewrite Hn. destruct (Nat.ltb_spec i total); [reflexivity | lia].
Qed.

(** A loop that writes [out[c + i * ch] = f i] for [i < k] fills lane
    [c] of a [ch]-strided array and leaves the other lanes. *)
Lemma fold_upd_stride :
  forall (A : Type) (f : nat -> A) (d : A) (ch c : nat) (k : nat) (init : list A),
    (c < ch)%nat -> (k * ch <= length init)%nat ->
    let out := fold_left (fun acc i => upd (c + i * ch) (f i) acc) (seq 0 k) init in
    length out = length init /\
    forall c' i, (c' < ch)%nat ->
                 nth (c' + i * ch) out d
                 = if (c' =? c)%nat && (i <? k)%nat then f i
                   else nth (c' + i * ch) init d.
Proof.
  intros A f d ch c k. induction k as [| k IH]; intros init Hc Hk out; subst out.
  - cbn [seq fold_left]. split; [reflexivity |].
    intros c' i Hc'. rewrite andb_false_r. reflexivity.
  - rewrite fold_seq_S. cbn [Nat.add].
    destruct (IH init Hc) as (Hlen & Hnth); [lia |].
    split; [rewrite upd_length; exact Hlen |].
    intros c' i Hc'.
    destruct (Nat.eq_dec (c + k * ch) (c' + i * ch)) as [E | Hne].
    + destruct (stride_index_inj ch c c' k i Hc Hc' E) as [<- <-].
      rewrite upd_nth_same by (rewrite Hlen; cbn in Hk; lia).
      rewrite Nat.eqb_refl. destruct (Nat.ltb_spec k (S k)); [reflexivity | lia].
    + rewrite upd_nth_other by exact Hne. rewrite Hnth by exact Hc'.
      destruct (Nat.eqb_spec c' c) as [-> | Hcc]; [| reflexivity].
      cbn [andb].
      destruct (Nat.ltb_spec i k), (Nat.ltb_spec i (S k)); try lia; try reflexivity.
      assert (i = k) by lia. subst i. contradiction.
Qed.

Lemma embedBlock_touchesOnly :
  forall strength pnSequences bitstream removeBits spb,
    touchesOnly spb (embedBlock strength pnSequences bitstream removeBits spb).
Proof.
  intros strength pnSequences bitstream removeBits spb blockStart bitIndex l r.
  unfold embedBlock.
  match goal with
  | |- context [fold_left ?F (seq 0 spb) (l, r)] => set (body := F)
  end.
  assert (H : forall (idxs : list nat) l0 r0,
             let '(l', r') := fold_left body idxs (l0, r0) in
             length l' = length l0 /\ length r' = length r0 /\
             forall j, ~ In j (map (fun i => (blockStart + i)%nat) idxs) ->
                       nth j l' f32_zero = nth j l0 f32_zero /\
                       nth j r' f32_zero = nth j r0 f32_zero).
  { induction idxs as [| i idxs IH]; intros l0 r0.
    - cbn. repeat split.
    - cbn [fold_left]. unfold body at 2. cbv zeta.
      match goal with
      | |- context [fold_left body idxs (upd ?a ?v ?x, upd ?b ?w ?y)] =>
          specialize (IH (upd a v x) (upd b w y))
      end.
      destruct (fold_left body idxs _) as [l' r'].
      destruct IH as (Hl & Hr & Hn).
      rewrite !upd_length in Hl, Hr.
      split; [exact Hl |]. split; [exact Hr |].
      intros j Hj. cbn [map In] in Hj.
      destruct (Hn j) as [Hjl Hjr]; [tauto |].
      rewrite Hjl, Hjr.
      rewrite !upd_nth_other by tauto. split; reflexivity. }
  specialize (H (seq 0 spb) l r).
  destruct (fold_left body (seq 0 spb) (l, r)) as [l' r'].
  destruct H as (Hl & Hr & Hn).
  split; [exact Hl |]. split; [exact Hr |].
  intros j Hj. apply Hn. intros Hin. apply in_map_iff in Hin.
  destruct Hin as (i & <- & Hi). apply in_seq in Hi. lia.
Qed.

(** The block loop ends, and leaves alone every sample at or beyond
    the last whole block. *)
Lemma embedLoop_tail :
  forall spb total step,
    (1 <= spb)%nat -> touchesOnly spb step ->
    forall fuel k bitIndex l r,
      (total < k * spb + fuel * spb)%nat ->
      exists l' r',
        embedLoop fuel step spb total (k * spb) bitIndex (l, r) = Some (l', r') /\
        length l' = length l /\ length r' = length r /\
        forall j, (total / spb * spb <= j)%nat ->
                  nth j l' f32_zero = nth j l f32_zero /\
                  nth j r' f32_zero = nth j r f32_zero.
Proof.
  intros spb total step Hspb Hstep.
  induction fuel as [| fuel IH]; intros k bitIndex l r Hfuel.
  - cbn [embedLoop].
    destruct (Nat.leb_spec (k * spb + spb) total); [lia |].
    exists l, r. repeat split.
  - cbn [embedLoop].
    destruct (Nat.leb_spec (k * spb + spb) total) as [Hle | Hgt].
    + specialize (Hstep (k * spb)%nat bitIndex l r).
      destruct (step (k * spb)%nat bitIndex (l, r)) as [l1 r1].
      destruct Hstep as (Hl1 & Hr1 & Hn1).
      destruct (IH (S k) (S bitIndex) l1 r1) as (l' & r' & E & Hl & Hr & Hn).
      { cbn [Nat.mul]. cbn [Nat.mul] in Hfuel. lia. }
      replace (k * spb + spb)%nat with (S k * spb)%nat by (cbn [Nat.mul]; lia).
      exists l', r'. split; [exact E |].
      split; [lia |]. split; [lia |].
      intros j Hj. destruct (Hn j Hj) as [Hjl Hjr]. rewrite Hjl, Hjr.
      apply Hn1. right.
      assert (S k <= total / spb)%nat.
      { apply Nat.div_le_lower_bound; [lia |]. cbn [Nat.mul]. lia. }
      assert (S k * spb <= total / spb * spb)%nat by (apply Nat.mul_le_mono_r; lia).
      cbn [Nat.mul] in H0. lia.
    + exists l, r. repeat split.
Qed.

Lemma strideInBounds_exact :
  forall total ch c : nat, (c < ch)%nat -> strideInBounds (total * ch) ch c = true.
Proof.
  intros total ch c Hc. unfold strideInBounds.
  rewrite strideCount_exact by exact Hc. rewrite Nat.div_mul by lia.
  apply Nat.leb_refl.
Qed.

(** The native embedder on a mono or stereo buffer of whole frames. *)
Lemma native_embed_shape_and_tail :
  forall (wav : WavData) (bitBuffer : list Z) (options : Options) (total ch : nat),
    channels wav = Z.of_nat ch ->
    ch = 1%nat \/ ch = 2%nat ->
    length (samples wav) = (total * ch)%nat ->
    sampleRate wav = oSampleRate options ->
    channels wav = oChannels options ->
    1 <= oHopSize options ->
    oHopSize options * 4 <= int_max ->
    bitBuffer <> [] ->
    exists out,
      EmbedWatermark wav bitBuffer options = Done out /\
      sampleRate out = sampleRate wav /\
      channels out = channels wav /\
      length (samples out) = length (samples wav) /\
      forall c i,
        (c < ch)%nat ->
        (total / Z.to_nat (oHopSize options * 4) * Z.to_nat (oHopSize options * 4) <= i < total)%nat ->
        nth (c + i * ch) (samples out) f32_zero = nth (c + i * ch) (samples wav) f32_zero.
Proof.
  intros wav bitBuffer options total ch Hch Hmono Hlen Hrate Hchan Hhop Hmax Hbits.
  unfold EmbedWatermark.
  rewrite <- Hrate, <- Hchan, !Z.eqb_refl. cbn [andb negb].
  rewrite Hch.
  destruct (Z.leb_spec (Z.of_nat ch) 0) as [Hbad | _]; [lia |].
  rewrite Nat2Z.id, Hlen.
  rewrite (strideInBounds_exact total ch 0) by lia.
  assert (Hsecond : ((Z.of_nat ch <=? 1) || strideInBounds (total * ch) ch 1) = true).
  { destruct Hmono as [-> | ->]; [reflexivity |].
    rewrite (strideInBounds_exact total 2 1) by lia. apply orb_true_r. }
  rewrite Hsecond. cbn [andb negb].
  unfold int_max in Hmax |- *.
  destruct (Z.leb_spec (- (2 ^ 31 - 1) - 1) (oHopSize options * 4)) as [_ | Hbad]; [| lia].
  destruct (Z.leb_spec (oHopSize options * 4) (2 ^ 31 - 1)) as [_ | Hbad]; [| lia].
  cbn [andb negb].
  destruct (Z.ltb_spec (oHopSize options * 4) 0) as [Hbad | _]; [lia |].
  destruct (Z.eqb_spec (oHopSize options * 4) 0) as [Hbad | _]; [lia |].
  destruct (Nat.eqb_spec (length bitBuffer) 0) as [Hbad | _].
  { destruct bitBuffer; [contradiction | discriminate Hbad]. }
  cbn [orb].
  set (spb := Z.to_nat (oHopSize options * 4)).
  destruct (getChannelSamples_nth (samples wav) total ch 0 Hlen) as (HlenL & HnthL); [lia |].
  set (left_ := getChannelSamples (samples wav) ch 0) in *.
  set (right_ := if 1 <? Z.of_nat ch then getChannelSamples (samples wav) ch 1 else left_).
  assert (HR : length right_ = total /\
               (ch = 2%nat -> forall i, (i < total)%nat ->
                  nth i right_ f32_zero = nth (1 + i * ch) (samples wav) f32_zero)).
  { unfold right_. destruct Hmono as [-> | ->].
    - cbn. split; [exact HlenL | discriminate].
    - destruct (getChannelSamples_nth (samples wav) total 2 1 Hlen) as (Hl & Hn); [lia |].
      cbn. split; [exact Hl | intros _; exact Hn]. }
  destruct HR as (HlenR & HnthR).
  rewrite HlenL.
  match goal with
  | |- context [embedLoop _ ?step _ _ _ _ _] =>
      destruct (embedLoop_tail spb total step) with (fuel := S total) (k := 0%nat)
                                                    (bitIndex := 0%nat) (l := left_) (r := right_)
        as (l' & r' & E & Hl' & Hr' & Htail)
  end.
  { unfold spb. lia. }
  { apply embedBlock_touchesOnly. }
  { assert (1 <= spb)%nat by (unfold spb; lia). cbn [Nat.mul]. nia. }
  cbn [Nat.mul] in E. rewrite E.
  eexists. split; [reflexivity |]. cbn [sampleRate channels samples].
  split; [reflexivity |]. split; [reflexivity |].
  unfold writeChannelSamples. rewrite !repeat_length.
  rewrite (strideCount_exact total ch 0) by lia.
  destruct (fold_upd_stride f32 (fun i => nth i l' f32_zero) f32_zero
                            ch 0 total (repeat f32_zero (total * ch)))
    as (Hw1 & Hn1); [lia | rewrite repeat_length; lia |].
  set (w1 := fold_left (fun acc i => upd (0 + i * ch) (nth i l' f32_zero) acc)
                       (seq 0 total) (repeat f32_zero (total * ch))) in *.
  rewrite repeat_length in Hw1.
  destruct Hmono as [-> | ->].
  - cbn [Z.of_nat Pos.of_succ_nat Z.ltb Z.compare Pos.compare Pos.compare_cont].
    split; [exact Hw1 |].
    intros c i Hc Hi. assert (c = 0%nat) by lia. subst c.
    rewrite Hn1 by lia. cbn [Nat.eqb andb].
    destruct (Nat.ltb_spec i total); [| lia].
    destruct (Htail i) as [Hjl _]; [lia |].
    rewrite Hjl. apply HnthL. lia.
  - cbn [Z.of_nat Pos.of_succ_nat Pos.succ Z.ltb Z.compare Pos.compare Pos.compare_cont].
    rewrite Hw1. rewrite (strideCount_exact total 2 1) by lia.
    destruct (fold_upd_stride f32 (fun i => nth i r' f32_zero) f32_zero 2 1 total w1)
      as (Hw2 & Hn2); [lia | lia |].
    split; [rewrite Hw2; exact Hw1 |].
    intros c i Hc Hi. rewrite Hn2 by exact Hc.
    destruct (Htail i) as [Hjl Hjr]; [lia |].
    destruct (Nat.ltb_spec i total); [| lia].
    assert (c = 0 \/ c = 1)%nat as [-> | ->] by lia.
    + cbn [Nat.eqb andb]. rewrite Hn1 by lia. cbn [Nat.eqb andb].
      destruct (Nat.ltb_spec i total); [| lia].
      rewrite Hjl. apply HnthL. lia.
    + cbn [Nat.eqb andb]. rewrite Hjr. apply HnthR; [reflexivity | lia].
Qed.

End EmbedderProperties.

(** On a mono or stereo buffer of whole frames whose header agrees
    with the options, and an output path that can be opened,
    [embedWatermark] writes an output with the same sample rate, channel
    count and sample count, and every sample of the trailing partial
    block (per-channel index at or beyond
    [floor(total / samplesPerBit) * samplesPerBit]) equals the input
    sample. *)
Lemma embedWatermark_shape_and_tail :
  forall (FO : FloatOps) (readWav : string -> result Native.WavData)
         (canOpen : string -> bool)
         (inputPath outputPath : string) (bitstream : list Z)
         (options : Addon.EmbedOptions) (wav : Native.WavData)
         (total ch samplesPerBit : nat),
    readWav inputPath = Ok wav ->
    Native.channels wav = Z.of_nat ch ->
    ch = 1%nat \/ ch = 2%nat ->
    length (Native.samples wav) = (total * ch)%nat ->
    Native.sampleRate wav
    = Native.int32Value (Addon.orDefault (Addon.sampleRate options) 44100) ->
    Native.channels wav = Native.int32Value (Addon.orDefault (Addon.channels options) 2) ->
    Native.int32Value (Addon.orDefault (Addon.hopSize options) 1024) * 4
    = Z.of_nat samplesPerBit ->
    (1 <= samplesPerBit)%nat ->
    Z.of_nat samplesPerBit <= Native.int_max ->
    bitstream <> [] ->
    canOpen outputPath = true ->
    exists out,
      Addon.embedWatermark readWav canOpen inputPath outputPath bitstream options
      = Native.Done (outputPath, out) /\
      Native.sampleRate out = Native.sampleRate wav /\
      Native.channels out = Native.channels wav /\
      length (Native.samples out) = length (Native.samples wav) /\
      forall c i,
        (c < ch)%nat ->
        (total / samplesPerBit * samplesPerBit <= i < total)%nat ->
        nth (i * ch + c) (Native.samples out) f32_zero
        = nth (i * ch + c) (Native.samples wav) f32_zero.
Proof.
  intros FO readWav canOpen inputPath outputPath bitstream options wav total ch spb
         Hread Hch Hmono Hlen Hrate Hchan Hspb Hpos Hmax Hbits Hopen.
  unfold Addon.embedWatermark. rewrite Hread.
  destruct (native_embed_shape_and_tail wav bitstream (Addon.nativeOptions options) total ch)
    as (out & E & Hr & Hc & Hl & Htail); try assumption.
  - cbn [Addon.nativeOptions Native.oHopSize]. lia.
  - cbn [Addon.nativeOptions Native.oHopSize]. lia.
  - rewrite E, Hopen. exists out. repeat (split; [assumption || reflexivity |]).
    intros c i Hci Hi. rewrite (Nat.add_comm (i * ch) c). apply Htail; [exact Hci |].
    cbn [Addon.nativeOptions Native.oHopSize]. rewrite Hspb, Nat2Z.id. exact Hi.
Qed.

Lemma embedWatermark_shape_and_tail_witness :
  exists out,
    Addon.embedWatermark (FO := IntFloat) (fun _ => Ok sampleWav) (fun _ => true)
                         "in.wav" "out.wav" [1] sampleOptions
    = Native.Done ("out.wav"%string, out) /\
    length (Native.samples out) = 10%nat /\
    nth 8 (Native.samples out) 0 = 50 /\
    nth 9 (Native.samples out) 0 = 51.
Proof.
  destruct (embedWatermark_shape_and_tail IntFloat (fun _ => Ok sampleWav) (fun _ => true)
              "in.wav" "out.wav" [1] sampleOptions sampleWav 5 2 4)
    as (out & E & _ & _ & Hl & Htail);
    try reflexivity; try (left; reflexivity); try (right; reflexivity);
    try lia; try discriminate.
  exists out. split; [exact E |]. split; [exact Hl |].
  split.
  - apply (Htail 0%nat 4%nat); [lia |]. cbn. lia.
  - apply (Htail 1%nat 4%nat); [lia |]. cbn. lia.
Defined.

(** C8, on a three-channel buffer of two frames with [hopSize = 1]
    (blocks of four frames, so that both frames lie in the trailing
    partial block): the output has the shape of the input, and zeros in
    place of the samples of the third channel, for every float
    implementation and all sample values.  On the samples 10, 11, 12,
    20, 21, 22 it holds 10, 11, 0, 20, 21, 0. *)
Theorem embedWatermark_tail_third_channel_lost :
  (forall (FO : FloatOps) (a b c d e f : f32),
      Addon.embedWatermark
        (fun _ => Ok (Native.mkWavData 44100 3 [a; b; c; d; e; f])) (fun _ => true)
        "in.wav" "out.wav" [1]
        (Addon.mkEmbedOptions "k" None (Some 3) None (Some 1) None None None)
      = Native.Done ("out.wav"%string,
                     Native.mkWavData 44100 3 [a; b; f32_zero; d; e; f32_zero])) /\
  exists out,
    Addon.embedWatermark (FO := IntFloat) (fun _ => Ok sampleWav3) (fun _ => true)
                         "in.wav" "out.wav" [1] sampleOptions3
    = Native.Done ("out.wav"%string, out) /\
    Native.samples out = [10; 11; 0; 20; 21; 0] /\
    nth 2 (Native.samples out) 0 <> nth 2 (Native.samples sampleWav3) 0 /\
    nth 5 (Native.samples out) 0 <> nth 5 (Native.samples sampleWav3) 0.
Proof.
  split.
  - intros FO a b c d e f. lazy. reflexivity.
  - eexists. split; [lazy; reflexivity |].
    split; [reflexivity |]. split; discriminate.
Qed.

(** ** Frame parsing and detection *)

Lemma bytesToUuid_not_empty :
  forall bytes, String.eqb (bytesToUuid bytes) EmptyString = false.
Proof.
  intros bytes. unfold bytesToUuid.
  destruct (strSlice _ 0 8); reflexivity.
Qed.

Section DetectProperties.

Context {FO : FloatOps}.
Variable sha256_hex : list Z -> string.

(** What a successful parse carries: the bytes [data.slice(0, 16)] of
    a corrected decode, printed as a UUID, and their digest. *)
Lemma decodeBitstream_success :
  forall (V : list Z) (d : DecodedPayload),
    decodeBitstream sha256_hex V = Ok d ->
    success d = true ->
    exists r : Decoded,
      rsDecode (frameCodeword V (findSync V SYNC_PATTERN)) PARITY_BYTES = Ok r /\
      corrected r = true /\
      frameLength V (findSync V SYNC_PATTERN) = 16 /\
      signatureId d = Some (bytesToUuid (jsSlice (data r) 0 16)) /\
      payloadHash d = Some (sha256_hex (jsSlice (data r) 0 16)).
Proof.
  intros V d. unfold decodeBitstream.
  destruct (findSync V SYNC_PATTERN <? 0).
  { intros E; inversion E; subst; discriminate. }
  destruct (rsDecode _ PARITY_BYTES) as [r | msg]; cbn [bind]; [| discriminate].
  destruct (corrected r) eqn:Hc; cbn [negb].
  2: { intros E; inversion E; subst; discriminate. }
  destruct (Z.eqb_spec (frameLength V (findSync V SYNC_PATTERN)) 16) as [E16 | _].
  2: { intros E; inversion E; subst; discriminate. }
  intros E _. inversion E; subst; clear E. cbn [signatureId payloadHash].
  exists r. rewrite E16. repeat split. exact Hc.
Qed.

(** The decision of [detect]: [detected] holds exactly when the parse
    succeeded and the lookup answered; on a successful parse with no
    answer, [detected] is false and the parse's hash is passed on. *)
Lemma detect_decision :
  forall (extracted : Engine.ExtractResult)
         (lookupFn : string -> option Engine.WatermarkPayload)
         (d : DecodedPayload),
    decodeBitstream sha256_hex (applySoftMajorityVoting (Engine.correlations extracted)) = Ok d ->
    exists r,
      Engine.detect sha256_hex extracted lookupFn = Ok r /\
      (Engine.detected r = true <->
       success d = true /\ exists id, signatureId d = Some id /\ lookupFn id <> None) /\
      (success d = true ->
       forall id, signatureId d = Some id -> lookupFn id = None ->
                  Engine.detected r = false /\ Engine.payload r = None /\
                  Engine.dPayloadHash r = payloadHash d).
Proof.
  intros extracted lookupFn d Hd. unfold Engine.detect. rewrite Hd. cbn [bind].
  destruct (success d) eqn:Hs; cbn [negb orb].
  - destruct (decodeBitstream_success _ d Hd Hs) as (r0 & _ & _ & _ & Hid & _).
    rewrite Hid. cbn [Engine.falsyId Addon.orDefault]. rewrite bytesToUuid_not_empty.
    eexists. split; [reflexivity |]. cbn [Engine.detected Engine.payload Engine.dPayloadHash].
    split; [split |].
    + intros Hdet. split; [reflexivity |]. eexists. split; [reflexivity |].
      destruct (lookupFn _); [discriminate | discriminate Hdet].
    + intros (_ & id & Eid & Hl). inversion Eid; subst.
      destruct (lookupFn _); [reflexivity | contradiction].
    + intros _ id Eid Hl. inversion Eid; subst. rewrite Hl. repeat split.
  - eexists. split; [reflexivity |]. cbn [Engine.detected].
    split; [split; [discriminate | intros (Hf & _); discriminate Hf] | discriminate].
Qed.

End DetectProperties.

(** C5, at a frame cut off after the first codeword byte: the parse
    reports success with the key [data.slice(0, 1 - 32)], which is
    empty; on a lookup miss [detect] surfaces the digest of zero bytes,
    and with a lookup that answers it reports [detected = true]. *)
Theorem detect_truncated_frame :
  forall sha256_hex : list Z -> string,
    decodeBitstream sha256_hex truncatedFrame
    = Ok (mkDecodedPayload (Some "----"%string) (Some (sha256_hex [])) true 0)
    /\ (exists r, Engine.detect sha256_hex truncatedExtraction (fun _ => None) = Ok r
                  /\ Engine.detected r = false
                  /\ Engine.dPayloadHash r = Some (sha256_hex []))
    /\ (exists r, Engine.detect sha256_hex truncatedExtraction (fun _ => Some anyPayload) = Ok r
                  /\ Engine.detected r = true
                  /\ Engine.payload r = Some anyPayload).
Proof.
  intros sha256_hex.
  assert (Hd : decodeBitstream sha256_hex truncatedFrame
               = Ok (mkDecodedPayload (Some "----"%string) (Some (sha256_hex [])) true 0)).
  { vm_compute. reflexivity. }
  assert (Hv : applySoftMajorityVoting (FO := IntFloat) truncatedFrame = truncatedFrame).
  { vm_compute. reflexivity. }
  split; [exact Hd |].
  split.
  - unfold Engine.detect. cbn [Engine.correlations truncatedExtraction].
    rewrite Hv, Hd. cbn. eexists. split; [reflexivity |]. split; reflexivity.
  - unfold Engine.detect. cbn [Engine.correlations truncatedExtraction].
    rewrite Hv, Hd. cbn. eexists. split; [reflexivity |]. split; reflexivity.
Qed.

(** ** Interleaver round trip when the depth divides the length *)

Lemma fold_left_ext :
  forall (A B : Type) (f g : A -> B -> A) (l : list B) (a : A),
    (forall x y, f x y = g x y) -> fold_left f l a = fold_left g l a.
Proof.
  intros A B f g l. induction l as [| b l IH]; intros a H; cbn; [reflexivity |].
  rewrite H. apply IH. exact H.
Qed.

Lemma nth_flat_map_rows :
  forall (A : Type) (f : nat -> list A) (d : A) (k m s c r : nat),
    (forall a, length (f a) = k) -> (c < m)%nat -> (r < k)%nat ->
    nth (c * k + r) (flat_map f (seq s m)) d = nth r (f (s + c)%nat) d.
Proof.
  intros A f d k m. induction m as [| m IH]; intros s c r Hf Hc Hr; [lia |].
  cbn [seq flat_map]. destruct c as [| c].
  - cbn [Nat.mul Nat.add]. rewrite app_nth1 by (rewrite Hf; exact Hr).
    rewrite Nat.add_0_r. reflexivity.
  - rewrite app_nth2 by (rewrite Hf; cbn [Nat.mul]; lia).
    rewrite Hf. replace (S c * k + r - k)%nat with (c * k + r)%nat by (cbn [Nat.mul]; lia).
    rewrite IH by (auto; lia). f_equal. f_equal. lia.
Qed.

(** The two nested loops of [deinterleaveBits], column by column. *)
Lemma deinterleave_loops_nth :
  forall (src : list Z) (rows cols m : nat) (init : list Z),
    (m <= cols)%nat -> length init = (rows * cols)%nat ->
    let out :=
      fold_left
        (fun acc c =>
           fold_left (fun acc' r => upd (r * cols + c) (nth (c * rows + r) src 0) acc')
                     (seq 0 rows) acc)
        (seq 0 m) init in
    length out = length init /\
    forall c r, (c < cols)%nat ->
                nth (c + r * cols) out 0
                = if (c <? m)%nat && (r <? rows)%nat then nth (c * rows + r) src 0
                  else nth (c + r * cols) init 0.
Proof.
  intros src rows cols m. induction m as [| m IH]; intros init Hm Hinit out; subst out.
  - cbn [seq fold_left]. split; [reflexivity |]. intros c r Hc. reflexivity.
  - rewrite fold_seq_S. cbn [Nat.add].
    destruct (IH init) as (Hlen & Hnth); [lia | exact Hinit |].
    match type of Hlen with length ?prev = _ => set (acc := prev) in * end.
    rewrite (fold_left_ext _ _ _
               (fun acc' r => upd (m + r * cols) (nth (m * rows + r) src 0) acc'))
      by (intros x y; rewrite (Nat.add_comm (y * cols) m); reflexivity).
    destruct (fold_upd_stride Z (fun r => nth (m * rows + r) src 0) 0 cols m rows acc)
      as (Hlen' & Hnth'); [lia | rewrite Hlen, Hinit; lia |].
    split; [rewrite Hlen'; exact Hlen |].
    intros c r Hc. rewrite Hnth' by exact Hc. rewrite Hnth by exact Hc.
    destruct (Nat.eqb_spec c m) as [-> | Hne].
    + destruct (Nat.ltb_spec m (S m)); [| lia].
      destruct (Nat.ltb_spec m m); [lia |].
      cbn [andb]. destruct (r <? rows)%nat; reflexivity.
    + cbn [andb].
      destruct (Nat.ltb_spec c m), (Nat.ltb_spec c (S m)); try lia; reflexivity.
Qed.

Lemma ceilDiv_exact : forall rows cols, (0 < rows)%nat -> ceilDiv (rows * cols) rows = cols.
Proof.
  intros rows cols Hr. unfold ceilDiv. symmetry.
  apply (Nat.div_unique _ rows cols (rows - 1)); lia.
Qed.

Lemma padTo_exact : forall bits, padTo (length bits) bits = bits.
Proof.
  intros bits. unfold padTo.
  pose proof (arraySet_zeros_0 bits 0) as E.
  rewrite Nat.add_0_r, app_nil_r in E. exact E.
Qed.

(** On a vector whose length is a multiple of the depth, as in the
    frame builder (384 bits, depth 8), deinterleaving undoes
    interleaving. *)
Theorem interleave_roundtrip_divisible :
  forall (bits : list Z) (depth : nat),
    (1 <= depth)%nat ->
    (length bits mod depth = 0)%nat ->
    deinterleaveBits (interleaveBits bits depth) depth = bits.
Proof.
  intros bits depth Hd Hdiv.
  unfold deinterleaveBits. rewrite interleaveBits_length. unfold interleaveBits.
  destruct (Nat.leb_spec depth 1) as [_ | Hrows]; [reflexivity |].
  set (rows := depth) in *.
  assert (Hn : exists cols, length bits = (rows * cols)%nat).
  { exists (length bits / rows)%nat.
    pose proof (Nat.div_mod_eq (length bits) rows). lia. }
  destruct Hn as (cols & Hn).
  rewrite Hn, ceilDiv_exact by lia. rewrite <- Hn, padTo_exact.
  set (I := flat_map (fun c => map (fun r => nth (r * cols + c) bits 0) (seq 0 rows))
                     (seq 0 cols)).
  assert (HI : length I = length bits).
  { unfold I. rewrite (flat_map_const_length _ _ _ rows)
      by (intros c; rewrite length_map, length_seq; reflexivity).
    rewrite length_seq. lia. }
  replace (firstn (length bits) I) with I by (rewrite <- HI; symmetry; apply firstn_all).
  replace (padTo (length bits) I) with I by (rewrite <- HI; symmetry; apply padTo_exact).
  destruct (deinterleave_loops_nth I rows cols cols (zeros (length bits)))
    as (Hlen & Hnth); [lia | rewrite zeros_length; exact Hn |].
  match type of Hlen with length ?prev = _ => set (D := prev) in * end.
  rewrite zeros_length in Hlen.
  rewrite <- Hlen, firstn_all.
  apply (nth_ext _ _ 0 0); [exact Hlen |].
  intros p Hp. rewrite Hlen, Hn in Hp.
  assert (Hcols : (0 < cols)%nat) by (destruct cols; [lia | lia]).
  pose proof (Nat.div_mod_eq p cols) as Ep.
  pose proof (Nat.mod_upper_bound p cols) as Bp.
  set (c := (p mod cols)%nat) in *. set (r := (p / cols)%nat) in *.
  assert (Hr : (r < rows)%nat).
  { unfold r. apply Nat.Div0.div_lt_upper_bound. lia. }
  replace p with (c + r * cols)%nat by lia.
  rewrite Hnth by lia.
  destruct (Nat.ltb_spec c cols); [| lia].
  destruct (Nat.ltb_spec r rows); [| lia].
  cbn [andb]. unfold I.
  rewrite (nth_flat_map_rows _ _ 0 rows cols 0 c r)
    by (try lia; intros a; rewrite length_map, length_seq; reflexivity).
  cbn [Nat.add].
  rewrite (nth_indep _ 0 (nth (0 * cols + c) bits 0))
    by (rewrite length_map, length_seq; exact Hr).
  rewrite (map_nth (fun r0 => nth (r0 * cols + c) bits 0) (seq 0 rows) 0%nat r).
  rewrite seq_nth by exact Hr. cbn [Nat.add]. f_equal. lia.
Qed.

Lemma interleave_roundtrip_divisible_witness :
  deinterleaveBits (interleaveBits [1; 0; 0; 1; 1; 1] 3) 3 = [1; 0; 0; 1; 1; 1].
Proof.
  apply interleave_roundtrip_divisible; [lia | reflexivity].
Defined.

(** ** Reed-Solomon: decoding an intact codeword *)


Lemma isByteb_spec : forall z, isByteb z = true <-> isByte z.
Proof.
  intros z. unfold isByteb, isByte. rewrite andb_true_iff, Z.leb_le, Z.ltb_lt. reflexivity.
Qed.

Lemma allBytes_In : forall z, isByte z -> In z allBytes.
Proof.
  intros z Hz. unfold allBytes. rewrite <- (Z2Nat.id z) by (destruct Hz; assumption).
  apply in_map. apply in_seq. unfold isByte in Hz. lia.
Qed.

Lemma forall_bytes :
  forall P : Z -> bool,
    forallb P allBytes = true -> forall z, isByte z -> P z = true.
Proof.
  intros P H z Hz. rewrite forallb_forall in H. apply H. apply allBytes_In. exact Hz.
Qed.

Lemma forall_bytes2 :
  forall P : Z -> Z -> bool,
    forallb (fun a => forallb (P a) allBytes) allBytes = true ->
    forall a b, isByte a -> isByte b -> P a b = true.
Proof.
  intros P H a b Ha Hb.
  apply (forall_bytes (P a)); [| exact Hb].
  apply (forall_bytes (fun a => forallb (P a) allBytes)); assumption.
Qed.

Lemma gfExp_bytes : Forall isByte gfExp.
Proof.
  apply Forall_forall. intros z Hz.
  apply isByteb_spec.
  assert (H : forallb isByteb gfExp = true) by (vm_compute; reflexivity).
  rewrite forallb_forall in H. apply H. exact Hz.
Qed.

Lemma expAt_byte : forall i, isByte (expAt i).
Proof.
  intros i. unfold expAt.
  destruct (Nat.lt_ge_cases (Z.to_nat i) (length gfExp)) as [Hlt | Hge].
  - pose proof gfExp_bytes as H. rewrite Forall_forall in H. apply H. apply nth_In. exact Hlt.
  - rewrite nth_overflow by exact Hge. unfold isByte. lia.
Qed.

Lemma gfMul_byte : forall a b, isByte (gfMul a b).
Proof.
  intros a b. unfold gfMul. destruct ((a =? 0) || (b =? 0)).
  - unfold isByte. lia.
  - apply expAt_byte.
Qed.

Lemma gfPow_byte : forall a n, isByte (gfPow a n).
Proof. intros a n. apply expAt_byte. Qed.

Lemma lxor_byte : forall a b, isByte a -> isByte b -> isByte (Z.lxor a b).
Proof.
  intros a b Ha Hb. apply isByteb_spec.
  apply (forall_bytes2 (fun a b => isByteb (Z.lxor a b))); [vm_compute; reflexivity | |];
    assumption.
Qed.

Lemma gfMul_0_l : forall x, gfMul 0 x = 0.
Proof. reflexivity. Qed.

Lemma gfMul_1_l : forall c, isByte c -> gfMul 1 c = c.
Proof.
  intros c Hc. apply Z.eqb_eq.
  apply (forall_bytes (fun c => gfMul 1 c =? c)); [vm_compute; reflexivity | exact Hc].
Qed.

Lemma lxor_swap : forall u v f g, Z.lxor (Z.lxor u v) (Z.lxor f g) = Z.lxor (Z.lxor u f) (Z.lxor v g).
Proof.
  intros u v f g.
  rewrite !Z.lxor_assoc. f_equal.
  rewrite <- !Z.lxor_assoc. f_equal. apply Z.lxor_comm.
Qed.

Lemma fold_lxor_add :
  forall (f g : nat -> Z) (l : list nat) (u v : Z),
    fold_left (fun acc k => Z.lxor acc (Z.lxor (f k) (g k))) l (Z.lxor u v)
    = Z.lxor (fold_left (fun acc k => Z.lxor acc (f k)) l u)
             (fold_left (fun acc k => Z.lxor acc (g k)) l v).
Proof.
  intros f g l. induction l as [| k l IH]; intros u v; cbn [fold_left]; [reflexivity |].
  rewrite lxor_swap. apply IH.
Qed.

Lemma bitwiseMul_add :
  forall a b x, bitwiseMul (Z.lxor a b) x = Z.lxor (bitwiseMul a x) (bitwiseMul b x).
Proof.
  intros a b x. unfold bitwiseMul.
  rewrite <- (fold_lxor_add
                (fun k => if Z.testbit a (Z.of_nat k) then gfMul (2 ^ Z.of_nat k) x else 0)
                (fun k => if Z.testbit b (Z.of_nat k) then gfMul (2 ^ Z.of_nat k) x else 0)).
  rewrite Z.lxor_0_l. apply fold_left_ext. intros acc k. f_equal.
  rewrite Z.lxor_spec.
  destruct (Z.testbit a (Z.of_nat k)), (Z.testbit b (Z.of_nat k)); cbn [xorb];
    rewrite ?Z.lxor_0_r, ?Z.lxor_0_l, ?Z.lxor_nilpotent; reflexivity.
Qed.

(** Multiplication by [x] is additive as soon as it agrees with its
    bitwise form on every byte. *)
Lemma additiveAt_check :
  forall x, forallb (fun a => gfMul a x =? bitwiseMul a x) allBytes = true -> additiveAt x.
Proof.
  intros x H a b Ha Hb.
  assert (E : forall c, isByte c -> gfMul c x = bitwiseMul c x).
  { intros c Hc. apply Z.eqb_eq. apply (forall_bytes _ H c Hc). }
  rewrite !E by (auto using lxor_byte). apply bitwiseMul_add.
Qed.

Lemma additive_points :
  forall x, In x (roots32 ++ generator32) -> additiveAt x.
Proof.
  intros x Hx. apply additiveAt_check.
  assert (H : forallb (fun x => forallb (fun a => gfMul a x =? bitwiseMul a x) allBytes)
                      (roots32 ++ generator32) = true) by (vm_compute; reflexivity).
  rewrite forallb_forall in H. apply (H x Hx).
Qed.

Lemma roots_additive : forall i, (i < 32)%nat -> additiveAt (gfPow 2 (Z.of_nat i)).
Proof.
  intros i Hi. apply additive_points. apply in_or_app. left.
  unfold roots32. apply (in_map (fun i => gfPow 2 (Z.of_nat i))). apply in_seq. lia.
Qed.

Lemma gfMul_comm : forall a b, gfMul a b = gfMul b a.
Proof.
  intros a b. unfold gfMul. rewrite orb_comm, Z.add_comm. reflexivity.
Qed.

(** Horner evaluation as one fold from zero. *)
Lemma polyEval_fold :
  forall p x, polyEval p x = fold_left (fun y c => Z.lxor (gfMul y x) c) p 0.
Proof.
  intros [| p0 rest] x; [reflexivity |].
  cbn [polyEval fold_left]. rewrite gfMul_0_l, Z.lxor_0_l. reflexivity.
Qed.

Lemma horner_byte :
  forall x p y, isByte y -> Forall isByte p ->
    isByte (fold_left (fun y c => Z.lxor (gfMul y x) c) p y).
Proof.
  intros x p. induction p as [| c p IH]; intros y Hy Hp; cbn [fold_left]; [exact Hy |].
  inversion Hp; subst. apply IH; [| assumption].
  apply lxor_byte; [apply gfMul_byte | assumption].
Qed.

Lemma horner_xorl :
  forall x, additiveAt x ->
    forall p q y1 y2,
      length p = length q -> Forall isByte p -> Forall isByte q ->
      isByte y1 -> isByte y2 ->
      fold_left (fun y c => Z.lxor (gfMul y x) c) (xorl p q) (Z.lxor y1 y2)
      = Z.lxor (fold_left (fun y c => Z.lxor (gfMul y x) c) p y1)
               (fold_left (fun y c => Z.lxor (gfMul y x) c) q y2).
Proof.
  intros x Hx p. induction p as [| a p IH]; intros [| b q] y1 y2 Hlen Hp Hq Hy1 Hy2;
    try discriminate Hlen; cbn [xorl fold_left]; [reflexivity |].
  inversion Hp; subst. inversion Hq; subst.
  rewrite Hx by assumption. rewrite lxor_swap.
  apply IH; auto using lxor_byte, gfMul_byte.
Qed.

(** Evaluation is additive. *)
Lemma polyEval_xorl :
  forall x p q,
    additiveAt x -> length p = length q -> Forall isByte p -> Forall isByte q ->
    polyEval (xorl p q) x = Z.lxor (polyEval p x) (polyEval q x).
Proof.
  intros x p q Hx Hlen Hp Hq. rewrite !polyEval_fold.
  rewrite <- (Z.lxor_0_l 0) at 1.
  apply horner_xorl; auto; unfold isByte; lia.
Qed.

Lemma horner_zeros : forall x n, fold_left (fun y c => Z.lxor (gfMul y x) c) (zeros n) 0 = 0.
Proof.
  intros x n. induction n as [| n IH]; [reflexivity |].
  cbn [zeros repeat fold_left]. rewrite gfMul_0_l, Z.lxor_0_l. exact IH.
Qed.

(** A polynomial that vanishes at [x] still does when shifted and
    padded with zeros. *)
Lemma polyEval_shifted :
  forall x p i t, polyEval p x = 0 -> polyEval (zeros i ++ p ++ zeros t) x = 0.
Proof.
  intros x p i t Hp. rewrite polyEval_fold in *.
  rewrite !fold_left_app, horner_zeros, Hp. apply horner_zeros.
Qed.

Lemma xorl_length : forall p q, length p = length q -> length (xorl p q) = length p.
Proof.
  induction p as [| a p IH]; intros [| b q] H; try discriminate H; cbn [xorl length];
    [reflexivity |].
  f_equal. apply IH. injection H. auto.
Qed.

Lemma xorl_nth :
  forall p q i, length p = length q ->
    nth i (xorl p q) 0 = Z.lxor (nth i p 0) (nth i q 0).
Proof.
  induction p as [| a p IH]; intros [| b q] i H; try discriminate H; cbn [xorl].
  - destruct i; reflexivity.
  - destruct i as [| i]; [reflexivity |]. cbn [nth]. apply IH. injection H. auto.
Qed.

Lemma xorl_bytes :
  forall p q, Forall isByte p -> Forall isByte q -> Forall isByte (xorl p q).
Proof.
  induction p as [| a p IH]; intros [| b q] Hp Hq; cbn [xorl]; try constructor.
  - inversion Hp; inversion Hq; subst. apply lxor_byte; assumption.
  - inversion Hp; inversion Hq; subst. apply IH; assumption.
Qed.

Lemma zeros_bytes : forall n, Forall isByte (zeros n).
Proof.
  intros n. apply Forall_forall. intros z Hz. apply repeat_spec in Hz. subst.
  unfold isByte. lia.
Qed.

Lemma zeros_nth : forall n i, nth i (zeros n) 0 = 0.
Proof.
  intros n i. unfold zeros. destruct (Nat.lt_ge_cases i n).
  - apply nth_repeat_lt. assumption.
  - apply nth_overflow. rewrite repeat_length. assumption.
Qed.

Lemma shiftedGen_length :
  forall gen coef i len, (i + length gen <= len)%nat -> length (shiftedGen gen coef i len) = len.
Proof.
  intros gen coef i len H. unfold shiftedGen.
  rewrite !length_app, length_map, !zeros_length. lia.
Qed.

Lemma shiftedGen_bytes : forall gen coef i len, Forall isByte (shiftedGen gen coef i len).
Proof.
  intros gen coef i len. unfold shiftedGen.
  apply Forall_app. split; [apply zeros_bytes |].
  apply Forall_app. split; [| apply zeros_bytes].
  apply Forall_forall. intros z Hz. apply in_map_iff in Hz.
  destruct Hz as (g & <- & _). apply gfMul_byte.
Qed.

Lemma shiftedGen_nth :
  forall gen coef i len p,
    nth p (shiftedGen gen coef i len) 0
    = if (i <=? p)%nat && (p <? i + length gen)%nat
      then gfMul (nth (p - i) gen 0) coef else 0.
Proof.
  intros gen coef i len p. unfold shiftedGen.
  destruct (Nat.leb_spec i p) as [Hip | Hpi]; cbn [andb].
  - rewrite app_nth2 by (rewrite zeros_length; exact Hip). rewrite zeros_length.
    destruct (Nat.ltb_spec p (i + length gen)) as [Hlt | Hge].
    + rewrite app_nth1 by (rewrite length_map; lia).
      rewrite (nth_indep _ 0 (gfMul 0 coef)) by (rewrite length_map; lia).
      apply (map_nth (fun gj => gfMul gj coef)).
    + rewrite app_nth2 by (rewrite length_map; lia). apply zeros_nth.
  - rewrite app_nth1 by (rewrite zeros_length; exact Hpi). apply zeros_nth.
Qed.

(** A loop that rewrites [m[i + j]] from its own value, for [j < k]. *)
Lemma fold_upd_window :
  forall (h : nat -> Z -> Z) (i k : nat) (init : list Z),
    (i + k <= length init)%nat ->
    let out := fold_left (fun m j => upd (i + j) (h j (nth (i + j) m 0)) m) (seq 0 k) init in
    length out = length init /\
    forall p, nth p out 0
              = if (i <=? p)%nat && (p <? i + k)%nat then h (p - i)%nat (nth p init 0)
                else nth p init 0.
Proof.
  intros h i k. induction k as [| k IH]; intros init Hk out; subst out.
  - cbn [seq fold_left]. split; [reflexivity |]. intros p.
    destruct (Nat.leb_spec i p), (Nat.ltb_spec p (i + 0)); try lia; reflexivity.
  - rewrite fold_seq_S. cbn [Nat.add].
    destruct (IH init) as (Hlen & Hnth); [lia |].
    match type of Hlen with length ?prev = _ => set (acc := prev) in * end.
    split; [rewrite upd_length; exact Hlen |].
    intros p. destruct (Nat.eq_dec p (i + k)) as [-> | Hne].
    + rewrite upd_nth_same by (rewrite Hlen; lia). rewrite Hnth.
      destruct (Nat.leb_spec i (i + k)); [| lia].
      destruct (Nat.ltb_spec (i + k) (i + k)); [lia |].
      destruct (Nat.ltb_spec (i + k) (i + S k)); [| lia].
      cbn [andb]. f_equal. lia.
    + rewrite upd_nth_other by auto. rewrite Hnth.
      destruct (Nat.leb_spec i p); cbn [andb]; [| reflexivity].
      destruct (Nat.ltb_spec p (i + k)), (Nat.ltb_spec p (i + S k)); try lia; reflexivity.
Qed.

(** One step of the division loop adds the aligned, scaled generator. *)
Lemma encode_step_xorl :
  forall (gen msg : list Z) (coef : Z) (i : nat),
    (i + length gen <= length msg)%nat ->
    fold_left (fun m j => upd (i + j) (Z.lxor (nth (i + j) m 0) (gfMul (nth j gen 0) coef)) m)
              (seq 0 (length gen)) msg
    = xorl msg (shiftedGen gen coef i (length msg)).
Proof.
  intros gen msg coef i Hi.
  destruct (fold_upd_window (fun j v => Z.lxor v (gfMul (nth j gen 0) coef))
                            i (length gen) msg Hi) as (Hlen & Hnth).
  match type of Hlen with length ?prev = _ => set (out := prev) in * end.
  assert (Hs : length msg = length (shiftedGen gen coef i (length msg)))
    by (symmetry; apply shiftedGen_length; exact Hi).
  apply (nth_ext _ _ 0 0).
  - rewrite Hlen, xorl_length; [reflexivity | exact Hs].
  - intros p _. rewrite Hnth, xorl_nth by exact Hs. rewrite shiftedGen_nth.
    destruct ((i <=? p)%nat && (p <? i + length gen)%nat); [reflexivity |].
    rewrite Z.lxor_0_r. reflexivity.
Qed.

Lemma generator32_eq : rsGeneratorPoly 32 = generator32.
Proof. vm_compute. reflexivity. Qed.

Lemma generator32_length : length (rsGeneratorPoly 32) = 33%nat.
Proof. rewrite generator32_eq. reflexivity. Qed.

Lemma generator32_monic : nth 0 (rsGeneratorPoly 32) 0 = 1.
Proof. rewrite generator32_eq. reflexivity. Qed.

Lemma scaledGen_length : forall c, length (scaledGen c) = 33%nat.
Proof. intros c. unfold scaledGen. rewrite length_map. reflexivity. Qed.

Lemma scaledGen_bytes : forall c, Forall isByte (scaledGen c).
Proof.
  intros c. apply Forall_forall. intros z Hz. apply in_map_iff in Hz.
  destruct Hz as (g & <- & _). apply gfMul_byte.
Qed.

(** Scaling the generator is additive in the scalar. *)
Lemma scaledGen_add :
  forall c1 c2, isByte c1 -> isByte c2 ->
    scaledGen (Z.lxor c1 c2) = xorl (scaledGen c1) (scaledGen c2).
Proof.
  intros c1 c2 H1 H2. unfold scaledGen.
  assert (Hg : Forall additiveAt generator32).
  { apply Forall_forall. intros g Hg. apply additive_points. apply in_or_app. right. exact Hg. }
  induction Hg as [| g l Hgx _ IH]; cbn [map xorl]; [reflexivity |].
  rewrite IH. f_equal.
  rewrite !(gfMul_comm g). apply Hgx; assumption.
Qed.

Lemma bitsOf_byte : forall c, isByte c -> bitsOf c = c.
Proof.
  intros c Hc. apply Z.eqb_eq.
  apply (forall_bytes (fun c => bitsOf c =? c)); [vm_compute; reflexivity | exact Hc].
Qed.

(** The generator scaled by zero or by a power of two vanishes at the
    32 points. *)
Lemma scaledGen_basis_roots :
  forall t x, In t (0 :: map (fun k => 2 ^ Z.of_nat k) (seq 0 8)) -> In x roots32 ->
    polyEval (scaledGen t) x = 0.
Proof.
  intros t x Ht Hx.
  assert (H : forallb (fun t => forallb (fun x => polyEval (scaledGen t) x =? 0) roots32)
                      (0 :: map (fun k => 2 ^ Z.of_nat k) (seq 0 8)) = true)
    by (vm_compute; reflexivity).
  rewrite forallb_forall in H. specialize (H t Ht). cbv beta in H.
  rewrite forallb_forall in H. apply Z.eqb_eq. apply H. exact Hx.
Qed.

(** Every multiple of the generator by a field element vanishes at the
    32 points [2^0 .. 2^31]. *)
Lemma scaled_generator_roots :
  forall coef i, isByte coef -> (i < 32)%nat ->
    polyEval (map (fun gj => gfMul gj coef) (rsGeneratorPoly 32)) (gfPow 2 (Z.of_nat i)) = 0.
Proof.
  intros coef i Hc Hi. rewrite generator32_eq. fold (scaledGen coef).
  set (x := gfPow 2 (Z.of_nat i)).
  assert (Hx : In x roots32).
  { unfold x, roots32. apply (in_map (fun i => gfPow 2 (Z.of_nat i))). apply in_seq. lia. }
  assert (Hadd : additiveAt x) by (apply roots_additive; exact Hi).
  rewrite <- (bitsOf_byte coef Hc). unfold bitsOf.
  assert (Hgen : forall (l : list nat) (acc : Z),
             (forall k, In k l -> (k < 8)%nat) ->
             isByte acc -> polyEval (scaledGen acc) x = 0 ->
             polyEval
               (scaledGen
                  (fold_left
                     (fun acc k =>
                        Z.lxor acc (if Z.testbit coef (Z.of_nat k) then 2 ^ Z.of_nat k else 0))
                     l acc)) x = 0).
  { induction l as [| k l IH]; intros acc Hl Hacc Pacc; cbn [fold_left]; [exact Pacc |].
    set (t := if Z.testbit coef (Z.of_nat k) then 2 ^ Z.of_nat k else 0).
    assert (Hk : (k < 8)%nat) by (apply Hl; left; reflexivity).
    assert (Ht : In t (0 :: map (fun k => 2 ^ Z.of_nat k) (seq 0 8))).
    { unfold t. destruct (Z.testbit coef (Z.of_nat k)); [right | left; reflexivity].
      apply (in_map (fun k => 2 ^ Z.of_nat k)). apply in_seq. lia. }
    assert (Htb : isByte t).
    { unfold t. destruct (Z.testbit coef (Z.of_nat k)); [| unfold isByte; lia].
      unfold isByte. split; [apply Z.pow_nonneg; lia |].
      apply (Z.le_lt_trans _ (2 ^ 7)); [apply Z.pow_le_mono_r; lia | reflexivity]. }
    apply IH; [intros k' Hk'; apply Hl; right; exact Hk' | apply lxor_byte; assumption |].
    rewrite scaledGen_add by assumption.
    rewrite polyEval_xorl;
      [| exact Hadd | rewrite !scaledGen_length; reflexivity
       | apply scaledGen_bytes | apply scaledGen_bytes].
    rewrite Pacc, (scaledGen_basis_roots t x Ht Hx). reflexivity. }
  apply Hgen.
  - intros k Hk. apply in_seq in Hk. lia.
  - unfold isByte. lia.
  - apply scaledGen_basis_roots; [left; reflexivity | exact Hx].
Qed.

Lemma encodeLoop_S :
  forall gen k msg0,
    encodeLoop gen (S k) msg0
    = let msg := encodeLoop gen k msg0 in
      let coef := nth k msg 0 in
      if coef =? 0 then msg
      else fold_left
             (fun m j => upd (k + j) (Z.lxor (nth (k + j) m 0) (gfMul (nth j gen 0) coef)) m)
             (seq 0 (length gen)) msg.
Proof.
  intros gen k msg0. unfold encodeLoop. rewrite fold_seq_S. reflexivity.
Qed.

(** The division loop keeps the values at the 32 points and clears the
    data positions it has passed. *)
Lemma encodeLoop_invariant :
  forall data : list Z,
    Forall isByte data ->
    forall k, (k <= length data)%nat ->
      let msg0 := data ++ zeros 32 in
      let msg := encodeLoop (rsGeneratorPoly 32) k msg0 in
      length msg = length msg0 /\
      Forall isByte msg /\
      (forall p, (p < k)%nat -> nth p msg 0 = 0) /\
      (forall i, (i < 32)%nat ->
                 polyEval msg (gfPow 2 (Z.of_nat i)) = polyEval msg0 (gfPow 2 (Z.of_nat i))).
Proof.
  intros data Hdata k. induction k as [| k IH]; intros Hk msg0 msg; subst msg.
  - unfold encodeLoop. cbn [seq fold_left]. split; [reflexivity |].
    split; [apply Forall_app; split; [exact Hdata | apply zeros_bytes] |].
    split; [intros p Hp; lia | reflexivity].
  - rewrite encodeLoop_S. cbv zeta.
    destruct IH as (Hlen & Hbytes & Hzero & Hroots); [lia |].
    fold msg0 in Hlen, Hbytes, Hzero, Hroots.
    set (msg := encodeLoop (rsGeneratorPoly 32) k msg0) in *.
    assert (Hmsg0 : length msg0 = (length data + 32)%nat)
      by (unfold msg0; rewrite length_app, zeros_length; reflexivity).
    destruct (Z.eqb_spec (nth k msg 0) 0) as [Hc0 | Hc].
    + split; [exact Hlen |]. split; [exact Hbytes |].
      split; [| exact Hroots].
      intros p Hp. destruct (Nat.eq_dec p k) as [-> | Hne]; [exact Hc0 | apply Hzero; lia].
    + assert (Hcoef : isByte (nth k msg 0)).
      { rewrite Forall_forall in Hbytes. apply Hbytes. apply nth_In. lia. }
      rewrite encode_step_xorl by (rewrite generator32_length; lia).
      set (sg := shiftedGen (rsGeneratorPoly 32) (nth k msg 0) k (length msg)).
      assert (Hsg : length msg = length sg).
      { unfold sg. rewrite shiftedGen_length; [reflexivity |].
        rewrite generator32_length. lia. }
      split; [rewrite xorl_length by exact Hsg; exact Hlen |].
      split; [apply xorl_bytes; [exact Hbytes | apply shiftedGen_bytes] |].
      split.
      * intros p Hp. rewrite xorl_nth by exact Hsg. unfold sg. rewrite shiftedGen_nth.
        destruct (Nat.eq_dec p k) as [-> | Hne].
        -- rewrite Nat.leb_refl.
           destruct (Nat.ltb_spec k (k + length (rsGeneratorPoly 32)))
             as [_ | Hbad]; [| rewrite generator32_length in Hbad; lia].
           cbn [andb]. rewrite Nat.sub_diag, generator32_monic.
           rewrite gfMul_1_l by exact Hcoef. apply Z.lxor_nilpotent.
        -- destruct (Nat.leb_spec k p); [lia |]. cbn [andb].
           rewrite Z.lxor_0_r. apply Hzero. lia.
      * intros i Hi.
        rewrite polyEval_xorl;
          [| apply roots_additive; exact Hi | exact Hsg | exact Hbytes
           | apply shiftedGen_bytes].
        unfold sg, shiftedGen. rewrite polyEval_shifted.
        -- rewrite Z.lxor_0_r. apply Hroots. exact Hi.
        -- apply scaled_generator_roots; assumption.
Qed.

(** All 32 syndromes of a codeword produced by [rsEncode] are zero. *)
Lemma rsEncode_syndromes_zero :
  forall data : list Z,
    Forall isByte data ->
    forall i, (i < 32)%nat -> polyEval (rsEncode data 32) (gfPow 2 (Z.of_nat i)) = 0.
Proof.
  intros data Hdata i Hi.
  destruct (encodeLoop_invariant data Hdata (length data) (Nat.le_refl _))
    as (Hlen & Hbytes & Hzero & Hroots).
  set (msg0 := data ++ zeros 32) in *.
  set (msg := encodeLoop (rsGeneratorPoly 32) (length data) msg0) in *.
  assert (Hmsg0 : length msg0 = (length data + 32)%nat)
    by (unfold msg0; rewrite length_app, zeros_length; reflexivity).
  assert (Hcw : rsEncode data 32 = xorl msg0 msg).
  { rewrite rsEncode_systematic. fold msg0. fold msg.
    apply (nth_ext _ _ 0 0).
    - rewrite xorl_length by (symmetry; exact Hlen).
      rewrite length_app, length_skipn, Hlen, Hmsg0. lia.
    - intros p _. rewrite xorl_nth by (symmetry; exact Hlen).
      destruct (Nat.lt_ge_cases p (length data)) as [Hp | Hp].
      + rewrite app_nth1 by exact Hp. rewrite Hzero by exact Hp.
        unfold msg0. rewrite app_nth1 by exact Hp. rewrite Z.lxor_0_r. reflexivity.
      + rewrite app_nth2 by exact Hp. rewrite nth_skipn.
        replace (length data + (p - length data))%nat with p by lia.
        unfold msg0 at 1. rewrite app_nth2 by exact Hp. rewrite zeros_nth, Z.lxor_0_l.
        reflexivity. }
  rewrite Hcw.
  rewrite polyEval_xorl;
    [| apply roots_additive; exact Hi | symmetry; exact Hlen
     | unfold msg0; apply Forall_app; split; [exact Hdata | apply zeros_bytes]
     | exact Hbytes].
  rewrite Hroots by exact Hi. apply Z.lxor_nilpotent.
Qed.

(** For every byte string, and so for every 16-byte key, decoding the
    untouched codeword returns the data with [corrected = true] and
    [errorCount = 0]. *)
Theorem rsDecode_intact_codeword :
  forall data : list Z,
    Forall isByte data ->
    rsDecode (rsEncode data 32) 32 = Ok (mkDecoded data true 0).
Proof.
  intros data Hdata.
  pose proof (rsEncode_length data 32) as Hlen.
  pose proof (rsEncode_systematic data 32) as Hsys.
  pose proof (rsEncode_syndromes_zero data Hdata) as Hsynd.
  set (cw := rsEncode data 32) in *.
  unfold rsDecode.
  assert (Hprefix : jsSlice cw 0 (Z.of_nat (length cw) - Z.of_nat 32) = data).
  { unfold jsSlice, jsIndex. rewrite Hlen.
    destruct (Z.ltb_spec (Z.of_nat (length data + 32) - Z.of_nat 32) 0); [lia |].
    cbn [Z.ltb Z.compare Z.to_nat Nat.min].
    replace (Z.to_nat (Z.of_nat (length data + 32) - Z.of_nat 32)) with (length data) by lia.
    rewrite Nat.min_l by lia. rewrite Nat.sub_0_r. cbn [skipn].
    rewrite Hsys. rewrite firstn_app, firstn_all, Nat.sub_diag, firstn_O. apply app_nil_r. }
  rewrite Hprefix.
  destruct cw as [| c cw'] eqn:Ecw; [cbn [length] in Hlen; lia |].
  rewrite <- Ecw in *.
  assert (Hno : existsb (fun s => negb (s =? 0)) (syndromes cw 32) = false).
  { apply not_true_is_false. intros Hex. apply existsb_exists in Hex.
    destruct Hex as (s & Hin & Hs). unfold syndromes in Hin. apply in_map_iff in Hin.
    destruct Hin as (i & <- & Hi). apply in_seq in Hi.
    rewrite Hsynd in Hs by lia. discriminate Hs. }
  rewrite Hno. reflexivity.
Qed.

Lemma rsDecode_intact_codeword_witness :
  rsDecode (rsEncode (map Z.of_nat (seq 0 16)) 32) 32
  = Ok (mkDecoded (map Z.of_nat (seq 0 16)) true 0).
Proof.
  apply rsDecode_intact_codeword.
  repeat constructor; discriminate.
Defined.

(** ** Frames that fit in the voted vector *)

Lemma jsSlice_prefix :
  forall (A : Type) (l : list A) (n : nat),
    (n <= length l)%nat -> jsSlice l 0 (Z.of_nat n) = firstn n l.
Proof.
  intros A l n Hn. unfold jsSlice, jsIndex.
  destruct (Z.ltb_spec (Z.of_nat n) 0); [lia |].
  cbn [Z.ltb Z.compare Z.to_nat]. rewrite Nat2Z.id.
  rewrite Nat.min_0_l, (Nat.min_l n) by lia. rewrite Nat.sub_0_r. reflexivity.
Qed.

Lemma jsSlice_window_length :
  forall (A : Type) (l : list A) (s n : nat),
    (s + n <= length l)%nat ->
    length (jsSlice l (Z.of_nat s) (Z.of_nat s + Z.of_nat n)) = n.
Proof.
  intros A l s n H. unfold jsSlice, jsIndex.
  destruct (Z.ltb_spec (Z.of_nat s) 0); [lia |].
  destruct (Z.ltb_spec (Z.of_nat s + Z.of_nat n) 0); [lia |].
  rewrite length_firstn, length_skipn. lia.
Qed.

Lemma deinterleaveBits_length :
  forall bits depth, length (deinterleaveBits bits depth) = length bits.
Proof.
  intros bits depth. unfold deinterleaveBits.
  destruct (Nat.leb_spec depth 1) as [_ | Hd]; [reflexivity |].
  rewrite length_firstn.
  pose proof (ceilDiv_covers (length bits) depth) as Hc.
  set (cols := ceilDiv (length bits) depth) in *.
  assert (H : forall (cs : list nat) (init : list Z),
             length
               (fold_left
                  (fun acc c =>
                     fold_left
                       (fun acc' r =>
                          upd (r * cols + c)
                              (nth (c * depth + r) (padTo (depth * cols) bits) 0) acc')
                       (seq 0 depth) acc)
                  cs init) = length init).
  { induction cs as [| c cs IH]; intros init; cbn [fold_left]; [reflexivity |].
    rewrite IH.
    apply (fold_upd_length Z nat (fun _ r => (r * cols + c)%nat)
             (fun _ r => nth (c * depth + r) (padTo (depth * cols) bits) 0)). }
  rewrite H, zeros_length. lia.
Qed.

Lemma bitsToBytes_length :
  forall bits, length (bitsToBytes bits) = ((length bits + 7) / 8)%nat.
Proof.
  intros bits. unfold bitsToBytes. rewrite length_map, length_seq. reflexivity.
Qed.

Lemma correctErrors_length :
  forall errLoc errEval errPositions msg msg',
    correctErrors msg errLoc errEval errPositions = Ok msg' -> length msg' = length msg.
Proof.
  intros errLoc errEval errPositions. unfold correctErrors.
  assert (H : forall (st : result (list Z)) (n : nat) (msg' : list Z),
             (forall m, st = Ok m -> length m = n) ->
             fold_left
               (fun st pos =>
                  msg <- st ;;
                  let xi := gfPow 2 (Z.of_nat (length msg - 1 - pos)) in
                  let errLocPrime :=
                    fold_left
                      (fun acc j =>
                         Z.lxor acc (gfMul (nth (length errLoc - 1 - j) errLoc 0)
                                           (gfPow xi (Z.of_nat j))))
                      (oddIndices (length errLoc)) 1 in
                  let y := polyEval errEval xi in
                  magnitude <- gfDiv (gfMul y xi) errLocPrime ;;
                  Ok (upd pos (Z.lxor (nth pos msg 0) magnitude) msg))
               errPositions st = Ok msg' ->
             length msg' = n).
  { induction errPositions as [| pos ps IH]; intros st n msg' Hst; cbn [fold_left].
    - intros E. apply Hst. exact E.
    - apply IH. intros m Hm.
      destruct st as [m0 | e]; cbn [bind] in Hm; [| discriminate Hm].
      cbv zeta in Hm.
      destruct (gfDiv _ _) as [mag | e]; cbn [bind] in Hm; [| discriminate Hm].
      inversion Hm; subst. rewrite upd_length. apply Hst. reflexivity. }
  intros msg msg' E. apply (H (Ok msg) (length msg) msg'); [| exact E].
  intros m Hm. inversion Hm. reflexivity.
Qed.

(** Whatever [rsDecode] returns for a 48-byte codeword carries 16 data
    bytes. *)
Lemma rsDecode_data_length :
  forall codeword r,
    length codeword = 48%nat -> rsDecode codeword 32 = Ok r -> length (data r) = 16%nat.
Proof.
  intros codeword r Hlen. unfold rsDecode.
  assert (Hprefix : length (jsSlice codeword 0 (Z.of_nat (length codeword) - Z.of_nat 32))
                    = 16%nat).
  { rewrite Hlen. replace (Z.of_nat 48 - Z.of_nat 32) with (Z.of_nat 16) by reflexivity.
    rewrite jsSlice_prefix by lia. rewrite length_firstn. lia. }
  destruct codeword as [| c cw] eqn:Ecw; [discriminate Hlen |].
  rewrite <- Ecw in *.
  destruct (negb (existsb _ (syndromes codeword 32))).
  { intros E. inversion E; subst. exact Hprefix. }
  destruct (findErrLoc _ 32) as [[errLoc oldLoc] | e]; cbn [bind]; [| discriminate].
  destruct ((length (findErrPositions errLoc (length codeword)) =? 0)%nat
            || (32 <? length (findErrPositions errLoc (length codeword)))%nat).
  { intros E. inversion E; subst. exact Hprefix. }
  cbv zeta.
  destruct (correctErrors codeword errLoc _ _) as [msg' | e] eqn:Ecorr; cbn [bind];
    [| discriminate].
  intros E. inversion E; subst. cbn [data].
  apply correctErrors_length in Ecorr. rewrite Ecorr, Hlen.
  match goal with
  | |- context [jsSlice msg' 0 ?e] => replace e with (Z.of_nat 16) by reflexivity
  end.
  rewrite jsSlice_prefix by lia. rewrite length_firstn. lia.
Qed.

(** When the whole 464-bit frame lies inside the vector, a successful
    parse carries a key of exactly 16 bytes. *)
Lemma decodeBitstream_key_length :
  forall (sha256_hex : list Z -> string) (V : list Z) (d : DecodedPayload) (s : nat),
    findSync V SYNC_PATTERN = Z.of_nat s ->
    (s + 464 <= length V)%nat ->
    decodeBitstream sha256_hex V = Ok d ->
    success d = true ->
    exists key,
      length key = 16%nat /\
      signatureId d = Some (bytesToUuid key) /\
      payloadHash d = Some (sha256_hex key).
Proof.
  intros sha256_hex V d s Hs Hfit Hd Hok.
  destruct (decodeBitstream_success sha256_hex V d Hd Hok) as (r & Hr & _ & H16 & Hid & Hh).
  exists (jsSlice (data r) 0 16). split; [| split; assumption].
  assert (Hcw : length (frameCodeword V (findSync V SYNC_PATTERN)) = 48%nat).
  { unfold frameCodeword. rewrite H16, Hs.
    change (Z.of_nat (length SYNC_PATTERN)) with 64.
    change ((16 + Z.of_nat PARITY_BYTES) * 8) with 384.
    rewrite bitsToBytes_length, deinterleaveBits_length.
    replace (Z.of_nat s + 64 + 16) with (Z.of_nat (s + 80)) by lia.
    replace 384 with (Z.of_nat 384) by reflexivity.
    rewrite jsSlice_window_length by lia. reflexivity. }
  pose proof (rsDecode_data_length _ r Hcw Hr) as Hdata.
  change 16 with (Z.of_nat 16). rewrite jsSlice_prefix by lia.
  rewrite length_firstn. lia.
Qed.

(** The inverse used by the locator loop: for a non-zero field element
    [b], [gfDiv 1 b] returns the element whose product with [b] is 1. *)
Lemma gfDiv_inverse :
  forall b, isByte b -> b <> 0 -> exists q, gfDiv 1 b = Ok q /\ gfMul q b = 1.
Proof.
  intros b Hb Hb0.
  assert (H : forallb
                (fun b => (b =? 0) ||
                          match gfDiv 1 b with
                          | Ok q => gfMul q b =? 1
                          | Throw _ => false
                          end)
                allBytes = true) by (vm_compute; reflexivity).
  pose proof (forall_bytes _ H b Hb) as E. cbv beta in E.
  destruct (Z.eqb_spec b 0); [contradiction |].
  cbn [orb] in E. destruct (gfDiv 1 b) as [q | m]; [| discriminate E].
  exists q. split; [reflexivity | apply Z.eqb_eq; exact E].
Qed.

(** ** Bits packed into bytes and back *)

Lemma nth_flat_map_const :
  forall (A B : Type) (f : A -> list B) (k : nat) (l : list A) (da : A) (d : B) (i b : nat),
    (forall a, length (f a) = k) -> (i < length l)%nat -> (b < k)%nat ->
    nth (i * k + b) (flat_map f l) d = nth b (f (nth i l da)) d.
Proof.
  intros A B f k l da d i b Hf. revert i.
  induction l as [| a l IH]; intros i Hi Hb; [cbn in Hi; lia |].
  cbn [flat_map]. destruct i as [| i].
  - cbn [Nat.mul Nat.add nth]. apply app_nth1. rewrite Hf. exact Hb.
  - rewrite app_nth2 by (rewrite Hf; cbn [Nat.mul]; lia).
    rewrite Hf. replace (S i * k + b - k)%nat with (i * k + b)%nat by (cbn [Nat.mul]; lia).
    cbn [nth]. apply IH; [cbn in Hi; lia | exact Hb].
Qed.

Lemma fold_left_ext_in :
  forall (A B : Type) (f g : A -> B -> A) (l : list B) (a : A),
    (forall x y, In y l -> f x y = g x y) -> fold_left f l a = fold_left g l a.
Proof.
  intros A B f g l. induction l as [| b l IH]; intros a H; cbn [fold_left]; [reflexivity |].
  rewrite H by (left; reflexivity). apply IH. intros x y Hy. apply H. right. exact Hy.
Qed.

(** The eight bits of a byte, packed most significant first, give the
    byte. *)
Lemma pack_byteBits :
  forall x, isByte x ->
    fold_left (fun value b => Z.lor (Z.shiftl value 1) (Z.land (nth b (byteBits x) 0) 1))
              (seq 0 8) 0 = x.
Proof.
  intros x Hx.
  assert (H : forallb
                (fun x =>
                   fold_left
                     (fun value b => Z.lor (Z.shiftl value 1) (Z.land (nth b (byteBits x) 0) 1))
                     (seq 0 8) 0 =? x)
                allBytes = true) by (vm_compute; reflexivity).
  apply Z.eqb_eq. exact (forall_bytes _ H x Hx).
Qed.

Lemma packByte_bytesToBits :
  forall bytes i, Forall isByte bytes -> (i < length bytes)%nat ->
    packByte (bytesToBits bytes) i = nth i bytes 0.
Proof.
  intros bytes i Hbytes Hi. unfold packByte.
  rewrite (fold_left_ext_in _ _ _
             (fun value b => Z.lor (Z.shiftl value 1)
                                   (Z.land (nth b (byteBits (nth i bytes 0)) 0) 1))).
  - apply pack_byteBits. rewrite Forall_forall in Hbytes. apply Hbytes. apply nth_In. exact Hi.
  - intros value b Hb. apply in_seq in Hb.
    rewrite bytesToBits_length.
    destruct (Nat.ltb_spec (i * 8 + b) (8 * length bytes)) as [_ | Hbad]; [| lia].
    unfold bytesToBits.
    rewrite (nth_flat_map_const _ _ byteBits 8 bytes 0 0 i b)
      by (try lia; intros a; apply byteBits_length).
    reflexivity.
Qed.

Lemma bitsToBytes_bytesToBits_bytes :
  forall bytes : list Z,
    Forall isByte bytes -> bitsToBytes (bytesToBits bytes) = bytes.
Proof.
  intros bytes Hbytes. unfold bitsToBytes.
  rewrite bytesToBits_length.
  replace ((8 * length bytes + 7) / 8)%nat with (length bytes).
  2: { apply (Nat.div_unique _ 8 (length bytes) 7); lia. }
  apply (nth_ext _ _ 0 0).
  - rewrite length_map, length_seq. reflexivity.
  - intros i Hi. rewrite length_map, length_seq in Hi.
    rewrite (nth_indep _ 0 (packByte (bytesToBits bytes) 0))
      by (rewrite length_map, length_seq; exact Hi).
    rewrite (map_nth (packByte (bytesToBits bytes)) (seq 0 (length bytes)) 0%nat i).
    rewrite seq_nth by exact Hi. cbn [Nat.add].
    apply packByte_bytesToBits; assumption.
Qed.

Lemma land_1_bit : forall z, Z.land z 1 = 0 \/ Z.land z 1 = 1.
Proof.
  intros z. change 1 with (Z.ones 1) at 1 2. rewrite Z.land_ones by lia.
  pose proof (Z.mod_pos_bound z (2 ^ 1)). lia.
Qed.

Lemma bytesToBits_binary :
  forall bytes : list Z, Forall (fun e => e = 0 \/ e = 1) (bytesToBits bytes).
Proof.
  intros bytes. apply Forall_forall. intros e He.
  unfold bytesToBits in He. apply in_flat_map in He. destruct He as (x & _ & He).
  unfold byteBits in He. apply in_map_iff in He. destruct He as (b & <- & _).
  apply land_1_bit.
Qed.

(** X1: a byte array unpacks into eight bits per byte, each 0 or 1, most
    significant first, and packing these bits gives the array back. *)
Theorem bytes_bits_roundtrip :
  forall bytes : list Z,
    Forall isByte bytes ->
    length (bytesToBits bytes) = (8 * length bytes)%nat /\
    Forall (fun e => e = 0 \/ e = 1) (bytesToBits bytes) /\
    bitsToBytes (bytesToBits bytes) = bytes.
Proof.
  intros bytes Hbytes.
  split; [apply bytesToBits_length |].
  split; [apply bytesToBits_binary |].
  apply bitsToBytes_bytesToBits_bytes. exact Hbytes.
Qed.

Lemma bytes_bits_roundtrip_witness :
  length (bytesToBits [0; 255; 18; 129]) = (8 * 4)%nat /\
  Forall (fun e => e = 0 \/ e = 1) (bytesToBits [0; 255; 18; 129]) /\
  bitsToBytes (bytesToBits [0; 255; 18; 129]) = [0; 255; 18; 129].
Proof.
  apply (bytes_bits_roundtrip [0; 255; 18; 129]).
  repeat constructor; discriminate.
Defined.

Lemma fold_left_map_list :
  forall (A B C : Type) (f : A -> B -> A) (g : C -> B) (l : list C) (a : A),
    fold_left f (map g l) a = fold_left (fun x c => f x (g c)) l a.
Proof.
  intros A B C f g l. induction l as [| c l IH]; intros a; cbn; [reflexivity | apply IH].
Qed.

(** Eight bits packed most significant first unpack to the same bits. *)
Lemma byteBits_pack :
  forall l : list Z,
    length l = 8%nat -> Forall (fun e => e = 0 \/ e = 1) l ->
    byteBits (fold_left (fun value e => Z.lor (Z.shiftl value 1) e) l 0) = l.
Proof.
  intros l Hlen Hl.
  do 8 (destruct l as [| ? l]; [discriminate Hlen |]).
  destruct l; [| discriminate Hlen]. clear Hlen.
  repeat match goal with
         | H : Forall _ (_ :: _) |- _ => inversion H as [| ? ? ? ?]; subst; clear H
         end.
  repeat match goal with
         | H : _ = 0 \/ _ = 1 |- _ => destruct H; subst
         end; reflexivity.
Qed.

Lemma byteBits_packByte :
  forall bits i,
    byteBits (packByte bits i) = map (fun b => paddedBit bits (i * 8 + b)) (seq 0 8).
Proof.
  intros bits i.
  change (packByte bits i)
    with (fold_left (fun x c => Z.lor (Z.shiftl x 1) (paddedBit bits (i * 8 + c))) (seq 0 8) 0).
  rewrite <- (fold_left_map_list Z Z nat
                (fun value e => Z.lor (Z.shiftl value 1) e)
                (fun b => paddedBit bits (i * 8 + b)) (seq 0 8) 0).
  apply byteBits_pack; [reflexivity |].
  apply Forall_forall. intros e He. apply in_map_iff in He.
  destruct He as (b & <- & _). unfold paddedBit.
  destruct (_ <? _)%nat; [apply land_1_bit | left; reflexivity].
Qed.

(** X2: unpacking the bytes made by [bitsToBytes] gives the low bit of
    every input entry, followed by the zero bits that fill the last
    byte. *)
Theorem bytesToBits_bitsToBytes :
  forall bits : list Z,
    bytesToBits (bitsToBytes bits)
    = map (fun b => Z.land b 1) bits
      ++ zeros (8 * ((length bits + 7) / 8) - length bits).
Proof.
  intros bits.
  set (bc := ((length bits + 7) / 8)%nat).
  assert (Hbc : (length bits <= 8 * bc)%nat).
  { unfold bc. pose proof (Nat.div_mod_eq (length bits + 7) 8).
    pose proof (Nat.mod_upper_bound (length bits + 7) 8). lia. }
  assert (HL : length (bytesToBits (bitsToBytes bits)) = (8 * bc)%nat).
  { rewrite bytesToBits_length. unfold bitsToBytes. rewrite length_map, length_seq.
    reflexivity. }
  apply (nth_ext _ _ 0 0).
  - rewrite HL, length_app, length_map, zeros_length. lia.
  - intros p Hp. rewrite HL in Hp.
    pose proof (Nat.div_mod_eq p 8) as Ep.
    pose proof (Nat.mod_upper_bound p 8) as Bp.
    set (i := (p / 8)%nat) in *. set (b := (p mod 8)%nat) in *.
    assert (Hi : (i < bc)%nat) by lia.
    replace p with (i * 8 + b)%nat at 1 by lia.
    unfold bytesToBits, bitsToBytes. fold bc.
    rewrite (nth_flat_map_const _ _ byteBits 8 _ (packByte bits 0) 0 i b)
      by first [lia | intros a; apply byteBits_length | rewrite length_map, length_seq; exact Hi].
    rewrite (map_nth (packByte bits) (seq 0 bc) 0%nat i).
    rewrite seq_nth by exact Hi. cbn [Nat.add].
    rewrite byteBits_packByte.
    rewrite (nth_indep (map (fun b0 => paddedBit bits (i * 8 + b0)) (seq 0 8))
                       0 (paddedBit bits (i * 8 + 0)))
      by (rewrite length_map, length_seq; lia).
    rewrite (map_nth (fun b0 => paddedBit bits (i * 8 + b0)) (seq 0 8) 0%nat b).
    rewrite seq_nth by lia. cbn [Nat.add].
    replace (i * 8 + b)%nat with p by lia.
    unfold paddedBit.
    destruct (Nat.ltb_spec p (length bits)) as [Hin | Hout].
    + rewrite app_nth1 by (rewrite length_map; exact Hin).
      rewrite (nth_indep (map (fun b0 => Z.land b0 1) bits) 0 (Z.land 0 1))
        by (rewrite length_map; exact Hin).
      rewrite (map_nth (fun b0 => Z.land b0 1) bits 0 p). reflexivity.
    + rewrite app_nth2 by (rewrite length_map; exact Hout).
      symmetry. apply zeros_nth.
Qed.

(** ** The interleaver as a matrix transposition *)

Lemma interleaveBits_nth :
  forall (bits : list Z) (rows cols c r : nat),
    (2 <= rows)%nat -> length bits = (rows * cols)%nat ->
    (c < cols)%nat -> (r < rows)%nat ->
    nth (c * rows + r) (interleaveBits bits rows) 0 = nth (r * cols + c) bits 0.
Proof.
  intros bits rows cols c r Hrows Hn Hc Hr. unfold interleaveBits.
  destruct (Nat.leb_spec rows 1) as [Hbad | _]; [lia |].
  rewrite Hn, ceilDiv_exact by lia. rewrite <- Hn, padTo_exact.
  set (I := flat_map (fun c0 => map (fun r0 => nth (r0 * cols + c0) bits 0) (seq 0 rows))
                     (seq 0 cols)).
  assert (HI : length I = length bits).
  { unfold I. rewrite (flat_map_const_length _ _ _ rows)
      by (intros a; rewrite length_map, length_seq; reflexivity).
    rewrite length_seq. lia. }
  rewrite <- HI, firstn_all. unfold I.
  rewrite (nth_flat_map_rows _ _ 0 rows cols 0 c r)
    by first [lia | intros a; rewrite length_map, length_seq; reflexivity].
  cbn [Nat.add].
  rewrite (nth_indep (map (fun r0 => nth (r0 * cols + c) bits 0) (seq 0 rows))
                     0 (nth (0 * cols + c) bits 0))
    by (rewrite length_map, length_seq; exact Hr).
  rewrite (map_nth (fun r0 => nth (r0 * cols + c) bits 0) (seq 0 rows) 0%nat r).
  rewrite seq_nth by exact Hr. reflexivity.
Qed.

Lemma deinterleaveBits_nth :
  forall (bits : list Z) (rows cols c r : nat),
    (2 <= rows)%nat -> length bits = (rows * cols)%nat ->
    (c < cols)%nat -> (r < rows)%nat ->
    nth (r * cols + c) (deinterleaveBits bits rows) 0 = nth (c * rows + r) bits 0.
Proof.
  intros bits rows cols c r Hrows Hn Hc Hr. unfold deinterleaveBits.
  destruct (Nat.leb_spec rows 1) as [Hbad | _]; [lia |].
  rewrite Hn, ceilDiv_exact by lia. rewrite <- Hn, padTo_exact.
  destruct (deinterleave_loops_nth bits rows cols cols (zeros (length bits)))
    as (Hlen & Hnth); [lia | rewrite zeros_length; exact Hn |].
  match type of Hlen with length ?prev = _ => set (D := prev) in * end.
  rewrite zeros_length in Hlen.
  rewrite <- Hlen, firstn_all.
  rewrite (Nat.add_comm (r * cols) c), Hnth by exact Hc.
  destruct (Nat.ltb_spec c cols); [| lia].
  destruct (Nat.ltb_spec r rows); [| lia].
  reflexivity.
Qed.

(** Position [p] of a [rows * cols] vector, split by a row length. *)
Lemma split_index :
  forall p k m : nat, (p < m * k)%nat ->
    exists q s, p = (q * k + s)%nat /\ (q < m)%nat /\ (s < k)%nat.
Proof.
  intros p k m Hp.
  assert (Hk : (0 < k)%nat) by (destruct k; [lia | lia]).
  exists (p / k)%nat, (p mod k)%nat.
  pose proof (Nat.div_mod_eq p k). pose proof (Nat.mod_upper_bound p k).
  split; [lia |]. split; [| lia].
  apply Nat.Div0.div_lt_upper_bound. lia.
Qed.

Lemma deinterleave_then_interleave_matrix :
  forall (bits : list Z) (rows cols : nat),
    (2 <= rows)%nat -> length bits = (rows * cols)%nat ->
    interleaveBits (deinterleaveBits bits rows) rows = bits.
Proof.
  intros bits rows cols Hrows Hn.
  apply (nth_ext _ _ 0 0).
  - rewrite interleaveBits_length, deinterleaveBits_length. reflexivity.
  - intros p Hp. rewrite interleaveBits_length, deinterleaveBits_length in Hp.
    destruct (split_index p rows cols) as (c & r & -> & Hc & Hr); [lia |].
    rewrite (interleaveBits_nth _ rows cols c r)
      by first [lia | rewrite deinterleaveBits_length; exact Hn].
    apply deinterleaveBits_nth; [lia | exact Hn | exact Hc | exact Hr].
Qed.

(** X3: on [rows * cols] bits, [interleaveBits] reads the vector as a
    matrix of [rows] rows and writes it column by column;
    [deinterleaveBits] does the converse, and interleaving undoes
    deinterleaving. *)
Theorem interleaver_transposes :
  forall (bits : list Z) (rows cols : nat),
    (2 <= rows)%nat -> length bits = (rows * cols)%nat ->
    (forall c r, (c < cols)%nat -> (r < rows)%nat ->
       nth (c * rows + r) (interleaveBits bits rows) 0 = nth (r * cols + c) bits 0 /\
       nth (r * cols + c) (deinterleaveBits bits rows) 0 = nth (c * rows + r) bits 0) /\
    interleaveBits (deinterleaveBits bits rows) rows = bits.
Proof.
  intros bits rows cols Hrows Hn. split.
  - intros c r Hc Hr. split.
    + apply interleaveBits_nth; assumption.
    + apply deinterleaveBits_nth; assumption.
  - apply (deinterleave_then_interleave_matrix bits rows cols); assumption.
Qed.

Lemma interleaver_transposes_witness :
  (forall c r, (c < 2)%nat -> (r < 3)%nat ->
     nth (c * 3 + r) (interleaveBits [1; 0; 0; 1; 1; 1] 3) 0
     = nth (r * 2 + c) [1; 0; 0; 1; 1; 1] 0 /\
     nth (r * 2 + c) (deinterleaveBits [1; 0; 0; 1; 1; 1] 3) 0
     = nth (c * 3 + r) [1; 0; 0; 1; 1; 1] 0) /\
  interleaveBits (deinterleaveBits [1; 0; 0; 1; 1; 1] 3) 3 = [1; 0; 0; 1; 1; 1].
Proof.
  apply (interleaver_transposes [1; 0; 0; 1; 1; 1] 3 2); [lia | reflexivity].
Defined.

(** The forward direction, on a matrix given by its two sides. *)
Lemma interleave_then_deinterleave_matrix :
  forall (bits : list Z) (rows cols : nat),
    (2 <= rows)%nat -> length bits = (rows * cols)%nat ->
    deinterleaveBits (interleaveBits bits rows) rows = bits.
Proof.
  intros bits rows cols Hrows Hn.
  apply (nth_ext _ _ 0 0).
  - rewrite deinterleaveBits_length, interleaveBits_length. reflexivity.
  - intros p Hp. rewrite deinterleaveBits_length, interleaveBits_length in Hp.
    destruct (split_index p cols rows) as (r & c & -> & Hr & Hc); [lia |].
    rewrite (deinterleaveBits_nth _ rows cols c r)
      by first [lia | rewrite interleaveBits_length; exact Hn].
    apply interleaveBits_nth; [lia | exact Hn | exact Hc | exact Hr].
Qed.

(** ** Numbers as bit fields *)

(** A loop that writes [out[f i] = g i] for [i < k], with distinct
    indices [f i] inside the array. *)
Lemma fold_upd_inj :
  forall (A : Type) (f : nat -> nat) (g : nat -> A) (d : A) (k : nat) (init : list A),
    (forall i, (i < k)%nat -> (f i < length init)%nat) ->
    (forall i j, (i < k)%nat -> (j < k)%nat -> f i = f j -> i = j) ->
    let out := fold_left (fun acc i => upd (f i) (g i) acc) (seq 0 k) init in
    length out = length init /\
    (forall i, (i < k)%nat -> nth (f i) out d = g i) /\
    (forall p, (forall i, (i < k)%nat -> f i <> p) -> nth p out d = nth p init d).
Proof.
  intros A f g d k. induction k as [| k IH]; intros init Hin Hinj out; subst out.
  - cbn [seq fold_left]. split; [reflexivity |]. split; [intros i Hi; lia | reflexivity].
  - rewrite fold_seq_S. cbn [Nat.add].
    destruct (IH init) as (Hlen & Hset & Hkeep).
    { intros i Hi. apply Hin. lia. }
    { intros i j Hi Hj. apply Hinj; lia. }
    split; [rewrite upd_length; exact Hlen |]. split.
    + intros i Hi. destruct (Nat.eq_dec i k) as [-> | Hne].
      * apply upd_nth_same. rewrite Hlen. apply Hin. lia.
      * rewrite upd_nth_other.
        -- apply Hset. lia.
        -- intros E. apply Hne. symmetry. apply Hinj; [lia | lia | exact E].
    + intros p Hp. rewrite upd_nth_other by (apply Hp; lia).
      apply Hkeep. intros i Hi. apply Hp. lia.
Qed.

Lemma numberToBits_length : forall v n, length (numberToBits v n) = n.
Proof.
  intros v n. unfold numberToBits.
  rewrite (fold_upd_length Z nat (fun _ i => (n - 1 - i)%nat)
             (fun _ i => Z.land (Z.shiftr v (Z.of_nat i)) 1)).
  apply zeros_length.
Qed.

(** Entry [k] of [numberToBits v n] is bit [n - 1 - k] of [v]. *)
Lemma numberToBits_nth :
  forall v n k, (k < n)%nat ->
    nth k (numberToBits v n) 0 = Z.land (Z.shiftr v (Z.of_nat (n - 1 - k))) 1.
Proof.
  intros v n k Hk. unfold numberToBits.
  destruct (fold_upd_inj Z (fun i => (n - 1 - i)%nat)
              (fun i => Z.land (Z.shiftr v (Z.of_nat i)) 1) 0 n (zeros n))
    as (_ & Hset & _).
  { intros i Hi. rewrite zeros_length. lia. }
  { intros i j Hi Hj E. lia. }
  specialize (Hset (n - 1 - k)%nat). cbv beta in Hset.
  replace (n - 1 - (n - 1 - k))%nat with k in Hset by lia.
  apply Hset. lia.
Qed.

Lemma lor_shift_bit :
  forall value e, e = 0 \/ e = 1 -> Z.lor (Z.shiftl value 1) e = 2 * value + e.
Proof.
  intros value e He. rewrite Z.shiftl_mul_pow2 by lia. change (2 ^ 1) with 2.
  assert (Hland : Z.land (value * 2) e = 0).
  { destruct He as [-> | ->]; [apply Z.land_0_r |].
    change 1 with (Z.ones 1). rewrite Z.land_ones by lia.
    change (2 ^ 1) with 2. apply Z.mod_mul. lia. }
  rewrite <- (Z.lxor_lor _ _ Hland), <- (Z.add_nocarry_lxor _ _ Hland). lia.
Qed.

Lemma bitsToNumber_snoc :
  forall bits e, bitsToNumber (bits ++ [e]) = 2 * bitsToNumber bits + Z.land e 1.
Proof.
  intros bits e. unfold bitsToNumber. rewrite fold_left_app. cbn [fold_left].
  apply lor_shift_bit. apply land_1_bit.
Qed.

Lemma land_1_mod : forall z, Z.land z 1 = z mod 2.
Proof.
  intros z. change 1 with (Z.ones 1). rewrite Z.land_ones by lia. reflexivity.
Qed.

(** The number read from the first [m] entries of [numberToBits v n]
    is [v] shifted right by the [n - m] bits not yet read, modulo
    [2^m]. *)
Lemma bitsToNumber_firstn :
  forall v n m, (m <= n)%nat ->
    bitsToNumber (firstn m (numberToBits v n)) = (v / 2 ^ Z.of_nat (n - m)) mod 2 ^ Z.of_nat m.
Proof.
  intros v n m. induction m as [| m IH]; intros Hm.
  - cbn [firstn]. unfold bitsToNumber. cbn [fold_left]. rewrite Z.mod_1_r. reflexivity.
  - assert (Hsplit : firstn (S m) (numberToBits v n)
                     = firstn m (numberToBits v n) ++ [nth m (numberToBits v n) 0]).
    { pose proof (numberToBits_length v n) as Hlen.
      rewrite <- (firstn_skipn m (numberToBits v n)) at 1.
      rewrite firstn_app, length_firstn, Hlen.
      replace (S m - Nat.min m n)%nat with 1%nat by lia.
      rewrite firstn_firstn. replace (Nat.min (S m) m) with m by lia.
      f_equal.
      rewrite <- (firstn_skipn m (numberToBits v n)) at 2.
      rewrite app_nth2 by (rewrite length_firstn, Hlen; lia).
      rewrite length_firstn, Hlen. replace (m - Nat.min m n)%nat with 0%nat by lia.
      destruct (skipn m (numberToBits v n)) as [| x rest] eqn:E.
      - assert (length (skipn m (numberToBits v n)) = 0%nat) by (rewrite E; reflexivity).
        rewrite length_skipn, Hlen in H. lia.
      - reflexivity. }
    rewrite Hsplit, bitsToNumber_snoc, IH by lia.
    rewrite numberToBits_nth by lia.
    rewrite Z.land_comm. rewrite Z.land_comm, <- Z.land_assoc. change (Z.land 1 1) with 1.
    rewrite land_1_mod, Z.shiftr_div_pow2 by lia.
    replace (n - 1 - m)%nat with (n - S m)%nat by lia.
    replace (Z.of_nat (n - m)) with (Z.of_nat (n - S m) + 1) by lia.
    rewrite Z.pow_add_r by lia. change (2 ^ 1) with 2.
    set (w := v / 2 ^ Z.of_nat (n - S m)).
    rewrite <- Z.div_div by lia. fold w.
    replace (Z.of_nat (S m)) with (1 + Z.of_nat m) by lia.
    rewrite Z.pow_add_r by lia. change (2 ^ 1) with 2.
    rewrite (Z.rem_mul_r w 2 (2 ^ Z.of_nat m)) by lia.
    lia.
Qed.

Lemma bitsToNumber_bit :
  forall bits k,
    Forall (fun e => e = 0 \/ e = 1) bits -> (k < length bits)%nat ->
    Z.land (Z.shiftr (bitsToNumber bits) (Z.of_nat (length bits - 1 - k))) 1 = nth k bits 0.
Proof.
  intros bits. induction bits as [| e l IH] using rev_ind; intros k Hbits Hk.
  - cbn in Hk. lia.
  - apply Forall_app in Hbits. destruct Hbits as [Hl He].
    inversion He as [| ? ? He' _]; subst.
    rewrite length_app in Hk |- *. cbn [length] in Hk |- *.
    rewrite bitsToNumber_snoc.
    assert (Ee : Z.land e 1 = e) by (destruct He' as [-> | ->]; reflexivity).
    rewrite Ee, land_1_mod, Z.shiftr_div_pow2 by lia.
    destruct (Nat.eq_dec k (length l)) as [-> | Hne].
    + rewrite app_nth2 by lia. rewrite Nat.sub_diag. cbn [nth].
      replace (length l + 1 - 1 - length l)%nat with 0%nat by lia.
      change (2 ^ Z.of_nat 0) with 1. rewrite Z.div_1_r.
      rewrite Z.add_comm, Z.mul_comm, Z.mod_add by lia.
      destruct He' as [-> | ->]; reflexivity.
    + rewrite app_nth1 by lia.
      rewrite <- (IH k Hl) by lia.
      rewrite land_1_mod, Z.shiftr_div_pow2 by lia.
      replace (Z.of_nat (length l + 1 - 1 - k)) with (1 + Z.of_nat (length l - 1 - k)) by lia.
      rewrite Z.pow_add_r by lia. change (2 ^ 1) with 2.
      rewrite <- Z.div_div by lia.
      replace ((2 * bitsToNumber l + e) / 2) with (bitsToNumber l); [reflexivity |].
      destruct He' as [-> | ->].
      * rewrite Z.add_0_r, Z.mul_comm, Z.div_mul by lia. reflexivity.
      * apply (Z.div_unique _ 2 _ 1); lia.
Qed.

(** X4: for a width [n] of at most 31 bits, [numberToBits] and
    [bitsToNumber] are inverse: a number that fits in [n] bits reads
    back from its field, big-endian, and a vector of [n] bits is the
    field of the number it reads as. *)
Theorem number_bits_roundtrip :
  forall n : nat,
    (n <= 31)%nat ->
    (forall v : Z, 0 <= v < 2 ^ Z.of_nat n ->
                   length (numberToBits v n) = n /\
                   bitsToNumber (numberToBits v n) = v) /\
    (forall bits : list Z,
        length bits = n -> Forall (fun e => e = 0 \/ e = 1) bits ->
        numberToBits (bitsToNumber bits) n = bits).
Proof.
  intros n _. split.
  - intros v Hv. split; [apply numberToBits_length |].
    rewrite <- (firstn_all (numberToBits v n)), numberToBits_length.
    rewrite bitsToNumber_firstn by lia.
    rewrite Nat.sub_diag. change (2 ^ Z.of_nat 0) with 1. rewrite Z.div_1_r.
    apply Z.mod_small. exact Hv.
  - intros bits Hlen Hbits. subst n.
    apply (nth_ext _ _ 0 0); [apply numberToBits_length |].
    intros k Hk. rewrite numberToBits_length in Hk.
    rewrite numberToBits_nth by exact Hk.
    apply bitsToNumber_bit; assumption.
Qed.

Lemma number_bits_roundtrip_witness :
  (forall v : Z, 0 <= v < 2 ^ Z.of_nat 16 ->
                 length (numberToBits v 16) = 16%nat /\
                 bitsToNumber (numberToBits v 16) = v) /\
  (forall bits : list Z,
      length bits = 16%nat -> Forall (fun e => e = 0 \/ e = 1) bits ->
      numberToBits (bitsToNumber bits) 16 = bits).
Proof.
  apply (number_bits_roundtrip 16). lia.
Defined.

(** ** Sync search: where the result can lie *)

Lemma syncLoop_result_among :
  forall (data pattern : list Z) (candidates : list nat) (bestMatch : nat) (bestIndex : Z),
    match syncLoop data pattern candidates bestMatch bestIndex with
    | inl z => exists i, In i candidates /\ z = Z.of_nat i
    | inr (_, bi') => bi' = bestIndex \/ exists i, In i candidates /\ bi' = Z.of_nat i
    end.
Proof.
  intros data pattern candidates.
  induction candidates as [| c rest IH]; intros bm bi; cbn [syncLoop].
  - left. reflexivity.
  - destruct (bm <? countMatches data pattern c)%nat;
      (destruct (ratioGe _ _ 17 20);
       [exists c; split; [left; reflexivity | reflexivity] |]).
    + specialize (IH (countMatches data pattern c) (Z.of_nat c)).
      destruct (syncLoop data pattern rest _ _) as [z | [bm' bi']].
      * destruct IH as (i & Hi & ->). exists i. split; [right; exact Hi | reflexivity].
      * right. destruct IH as [-> | (i & Hi & ->)].
        -- exists c. split; [left; reflexivity | reflexivity].
        -- exists i. split; [right; exact Hi | reflexivity].
    + specialize (IH bm bi).
      destruct (syncLoop data pattern rest _ _) as [z | [bm' bi']].
      * destruct IH as (i & Hi & ->). exists i. split; [right; exact Hi | reflexivity].
      * destruct IH as [-> | (i & Hi & ->)]; [left; reflexivity |].
        right. exists i. split; [right; exact Hi | reflexivity].
Qed.

Lemma syncCandidates_fit :
  forall (data pattern : list Z) (i : nat),
    In i (syncCandidates data pattern) -> (i + length pattern <= length data)%nat.
Proof.
  intros data pattern i. unfold syncCandidates.
  destruct (Nat.leb_spec (length pattern) (length data)) as [Hle | Hgt].
  - intros Hi. apply in_seq in Hi. lia.
  - intros [].
Qed.

(** X5: [findSync] answers -1 or an index at which the whole pattern
    lies inside the data; it answers -1 when the data are shorter than
    the pattern, and when the pattern is empty. *)
Theorem findSync_result_in_range :
  forall data pattern : list Z,
    (findSync data pattern = -1 \/
     exists i : nat, findSync data pattern = Z.of_nat i /\
                     (i + length pattern <= length data)%nat) /\
    ((length data < length pattern)%nat -> findSync data pattern = -1) /\
    (pattern = [] -> findSync data pattern = -1).
Proof.
  intros data pattern.
  pose proof (syncLoop_result_among data pattern (syncCandidates data pattern) 0 (-1)) as H.
  split; [| split].
  - unfold findSync.
    destruct (syncLoop data pattern _ 0 (-1)) as [z | [bm bi]].
    + destruct H as (i & Hi & ->). right. exists i.
      split; [reflexivity | apply syncCandidates_fit; exact Hi].
    + destruct (ratioGe bm (length pattern) 3 5); [| left; reflexivity].
      destruct H as [-> | (i & Hi & ->)]; [left; reflexivity |].
      right. exists i. split; [reflexivity | apply syncCandidates_fit; exact Hi].
  - intros Hshort. unfold findSync, syncCandidates.
    destruct (Nat.leb_spec (length pattern) (length data)); [lia |].
    cbn [syncLoop]. destruct (ratioGe _ _ _ _); reflexivity.
  - intros ->. unfold findSync.
    destruct (syncLoop data [] _ 0 (-1)) as [z | [bm bi]] eqn:E.
    + exfalso. revert E. generalize (syncCandidates data []). generalize 0%nat. generalize (-1).
      intros bi bm l. revert bm bi.
      induction l as [| c l IH]; intros bm bi; cbn [syncLoop]; [discriminate |].
      unfold ratioGe. cbn [length Nat.ltb Nat.leb andb].
      match goal with |- context [if ?b then _ else _] => destruct b end; apply IH.
    + unfold ratioGe. cbn [length Nat.ltb Nat.leb andb]. reflexivity.
Qed.

Lemma countMatches_all :
  forall (data pattern : list Z) (i : nat),
    (forall j, (j < length pattern)%nat -> nth (i + j) data 0 = nth j pattern 0) ->
    countMatches data pattern i = length pattern.
Proof.
  intros data pattern i H. unfold countMatches.
  assert (G : forall k, (k <= length pattern)%nat ->
                        fold_left
                          (fun matches j =>
                             if nth (i + j) data 0 =? nth j pattern 0 then S matches else matches)
                          (seq 0 k) 0%nat = k).
  { induction k as [| k IH]; intros Hk; [reflexivity |].
    rewrite fold_seq_S, IH by lia. cbn [Nat.add].
    rewrite H by lia. rewrite Z.eqb_refl. reflexivity. }
  apply G. lia.
Qed.

(** A vector that starts with the pattern is synchronised at index 0. *)
Lemma findSync_leading_pattern :
  forall pattern rest : list Z,
    pattern <> [] -> findSync (pattern ++ rest) pattern = 0.
Proof.
  intros pattern rest Hne. unfold findSync, syncCandidates.
  rewrite length_app.
  destruct (Nat.leb_spec (length pattern) (length pattern + length rest)); [| lia].
  replace (length pattern + length rest - length pattern + 1)%nat with (S (length rest)) by lia.
  cbn [seq syncLoop].
  rewrite countMatches_all
    by (intros j Hj; cbn [Nat.add]; apply app_nth1; exact Hj).
  assert (Hhigh : ratioGe (length pattern) (length pattern) 17 20 = true).
  { unfold ratioGe. destruct pattern as [| p ps]; [contradiction |].
    cbn [length]. apply andb_true_intro. split; [reflexivity | apply Z.leb_le; lia]. }
  rewrite Hhigh. destruct (0 <? length pattern)%nat; reflexivity.
Qed.

(** ** A frame built by [buildBitstream] and parsed by [decodeBitstream] *)

Lemma upd_bytes :
  forall (l : list Z) i v, isByte v -> Forall isByte l -> Forall isByte (upd i v l).
Proof.
  induction l as [| h t IH]; intros [| i] v Hv Hl; cbn [upd]; try exact Hl.
  - inversion Hl; subst. constructor; assumption.
  - inversion Hl; subst. constructor; [assumption | apply IH; assumption].
Qed.

Lemma nth_byte : forall (l : list Z) i, Forall isByte l -> isByte (nth i l 0).
Proof.
  intros l i Hl. destruct (Nat.lt_ge_cases i (length l)) as [Hlt | Hge].
  - rewrite Forall_forall in Hl. apply Hl. apply nth_In. exact Hlt.
  - rewrite nth_overflow by exact Hge. unfold isByte. lia.
Qed.

(** The division loop of the encoder keeps every entry a byte,
    whatever the generator. *)
Lemma encodeLoop_bytes :
  forall gen n msg0, Forall isByte msg0 -> Forall isByte (encodeLoop gen n msg0).
Proof.
  intros gen n. unfold encodeLoop. generalize (seq 0 n). intros l.
  induction l as [| i l IH]; intros msg0 H0; cbn [fold_left]; [exact H0 |].
  apply IH. remember (nth i msg0 0) as coef eqn:Ecoef. clear Ecoef.
  destruct (coef =? 0); [exact H0 |].
  generalize (seq 0 (length gen)). intros js. revert msg0 H0.
  induction js as [| j js IHj]; intros m Hm; cbn [fold_left]; [exact Hm |].
  apply IHj. apply upd_bytes; [| exact Hm].
  apply lxor_byte; [apply nth_byte; exact Hm | apply gfMul_byte].
Qed.

Lemma skipn_bytes : forall n (l : list Z), Forall isByte l -> Forall isByte (skipn n l).
Proof.
  induction n as [| n IH]; intros l Hl; [exact Hl |].
  destruct l as [| h t]; [exact Hl |]. inversion Hl; subst. cbn [skipn]. apply IH. assumption.
Qed.

Lemma rsEncode_bytes :
  forall data nsym, Forall isByte data -> Forall isByte (rsEncode data nsym).
Proof.
  intros data nsym Hdata. rewrite rsEncode_systematic.
  apply Forall_app. split; [exact Hdata |].
  apply skipn_bytes, encodeLoop_bytes.
  apply Forall_app. split; [exact Hdata | apply zeros_bytes].
Qed.

(** [uuidToBytes] always fills 16 bytes. *)
Lemma uuidToBytes_length : forall id, length (uuidToBytes id) = 16%nat.
Proof. intros id. reflexivity. Qed.

Lemma uuidToBytes_bytes : forall id, Forall isByte (uuidToBytes id).
Proof.
  intros id. unfold uuidToBytes. apply Forall_forall. intros b Hb.
  apply in_map_iff in Hb. destruct Hb as (i & <- & _).
  unfold toUint8, isByte. destruct (parseInt16 _) as [z |]; [| lia].
  apply Z.mod_pos_bound. lia.
Qed.

Lemma buildBitstream_frame :
  forall id : string,
    buildBitstream id
    = SYNC_PATTERN ++ numberToBits 16 16
      ++ interleaveBits (bytesToBits (rsEncode (uuidToBytes id) 32)) 8.
Proof.
  intros id. unfold buildBitstream. cbv zeta.
  rewrite uuidToBytes_length. change (Z.of_nat 16) with 16.
  apply arraySet_three.
Qed.

Lemma jsSlice_window :
  forall (A : Type) (pre mid post : list A),
    jsSlice (pre ++ mid ++ post) (Z.of_nat (length pre))
            (Z.of_nat (length pre) + Z.of_nat (length mid)) = mid.
Proof.
  intros A pre mid post. unfold jsSlice, jsIndex.
  destruct (Z.ltb_spec (Z.of_nat (length pre)) 0); [lia |].
  destruct (Z.ltb_spec (Z.of_nat (length pre) + Z.of_nat (length mid)) 0); [lia |].
  rewrite !length_app.
  rewrite Nat2Z.id, Nat.min_l by lia.
  replace (Z.to_nat (Z.of_nat (length pre) + Z.of_nat (length mid)))
    with (length pre + length mid)%nat by lia.
  rewrite Nat.min_l by lia.
  replace (length pre + length mid - length pre)%nat with (length mid) by lia.
  rewrite skipn_app, skipn_all, Nat.sub_diag, skipn_O. cbn [app].
  rewrite firstn_app, firstn_all, Nat.sub_diag, firstn_O. apply app_nil_r.
Qed.

(** A non-empty codeword whose syndromes all vanish decodes to its
    data part, untouched. *)
Lemma rsDecode_zero_syndromes :
  forall (codeword : list Z) (nsym : nat),
    codeword <> [] ->
    (forall i, (i < nsym)%nat -> polyEval codeword (gfPow 2 (Z.of_nat i)) = 0) ->
    rsDecode codeword nsym
    = Ok (mkDecoded (jsSlice codeword 0 (Z.of_nat (length codeword) - Z.of_nat nsym)) true 0).
Proof.
  intros codeword nsym Hne Hsynd. unfold rsDecode.
  destruct codeword as [| c cw] eqn:E; [contradiction |].
  rewrite <- E in *.
  assert (Hno : existsb (fun s => negb (s =? 0)) (syndromes codeword nsym) = false).
  { apply not_true_is_false. intros Hex. apply existsb_exists in Hex.
    destruct Hex as (s & Hin & Hs). unfold syndromes in Hin. apply in_map_iff in Hin.
    destruct Hin as (i & <- & Hi). apply in_seq in Hi.
    rewrite Hsynd in Hs by lia. discriminate Hs. }
  rewrite Hno. reflexivity.
Qed.

(** A frame built for an identifier, followed by anything, parses
    back to the 16 bytes read from the identifier. *)
Lemma decodeBitstream_frame :
  forall (sha256_hex : list Z -> string) (tail : list Z) (id : string),
    decodeBitstream sha256_hex (buildBitstream id ++ tail)
    = Ok (mkDecodedPayload (Some (bytesToUuid (uuidToBytes id)))
                           (Some (sha256_hex (uuidToBytes id))) true 0).
Proof.
  intros sha256_hex tail id.
  set (K := uuidToBytes id).
  assert (HK : Forall isByte K) by apply uuidToBytes_bytes.
  assert (HlenK : length K = 16%nat) by apply uuidToBytes_length.
  set (cw := rsEncode K 32).
  assert (Hcwlen : length cw = 48%nat) by (unfold cw; rewrite rsEncode_length, HlenK; reflexivity).
  set (code := interleaveBits (bytesToBits cw) 8).
  assert (Hcode : length code = 384%nat).
  { unfold code. rewrite interleaveBits_length, bytesToBits_length, Hcwlen. reflexivity. }
  set (V := buildBitstream id ++ tail).
  assert (HV : V = SYNC_PATTERN ++ numberToBits 16 16 ++ code ++ tail).
  { unfold V. rewrite buildBitstream_frame. fold K. fold cw. fold code.
    rewrite <- !app_assoc. reflexivity. }
  assert (Hsync : findSync V SYNC_PATTERN = 0).
  { rewrite HV. apply findSync_leading_pattern. discriminate. }
  assert (Hlen : frameLength V 0 = 16).
  { unfold frameLength. cbv zeta. rewrite HV.
    change (0 + Z.of_nat (length SYNC_PATTERN)) with (Z.of_nat (length SYNC_PATTERN)).
    change 16 with (Z.of_nat (length (numberToBits 16 16))) at 2.
    rewrite (jsSlice_window Z SYNC_PATTERN (numberToBits 16 16) (code ++ tail)).
    reflexivity. }
  assert (Hframe : frameCodeword V 0 = cw).
  { unfold frameCodeword. cbv zeta. rewrite Hlen. rewrite HV.
    change (0 + Z.of_nat (length SYNC_PATTERN) + 16)
      with (Z.of_nat (length (SYNC_PATTERN ++ numberToBits 16 16))).
    change ((16 + Z.of_nat PARITY_BYTES) * 8) with 384.
    replace 384 with (Z.of_nat (length code)) by (rewrite Hcode; reflexivity).
    rewrite (app_assoc SYNC_PATTERN).
    rewrite (jsSlice_window Z (SYNC_PATTERN ++ numberToBits 16 16) code tail).
    unfold code, INTERLEAVE_DEPTH.
    rewrite (interleave_then_deinterleave_matrix _ 8 48)
      by (try lia; rewrite bytesToBits_length, Hcwlen; reflexivity).
    apply bitsToBytes_bytesToBits_bytes. unfold cw. apply rsEncode_bytes. exact HK. }
  assert (Hdec : rsDecode cw PARITY_BYTES = Ok (mkDecoded K true 0)).
  { unfold PARITY_BYTES. rewrite rsDecode_zero_syndromes.
    - rewrite Hcwlen. change (Z.of_nat 48 - Z.of_nat 32) with (Z.of_nat 16).
      rewrite jsSlice_prefix by lia.
      unfold cw. rewrite rsEncode_systematic, <- HlenK.
      rewrite firstn_app, firstn_all, Nat.sub_diag, firstn_O, app_nil_r. reflexivity.
    - intros Ecw. rewrite Ecw in Hcwlen. discriminate Hcwlen.
    - intros i Hi. unfold cw. apply rsEncode_syndromes_zero; assumption. }
  unfold decodeBitstream. fold V. rewrite Hsync.
  cbn [Z.ltb Z.compare]. rewrite Hlen, Hframe, Hdec.
  cbn [bind corrected negb data errorCount Z.eqb Pos.eqb].
  change 16 with (Z.of_nat 16). rewrite jsSlice_prefix by lia.
  rewrite <- HlenK, firstn_all. reflexivity.
Qed.

(** X6: a frame built for an identifier (a string of 7-bit characters),
    followed by anything, parses back: the parse succeeds with no error
    counted, the identifier is the canonical print of the 16 bytes read
    from the input identifier, and the digest is the digest of these
    bytes.  For the canonical print of a 16-byte key the identifier
    returned is the one given. *)
Theorem decodeBitstream_buildBitstream :
  forall (sha256_hex : list Z -> string) (tail : list Z),
    (forall id : string,
        decodeBitstream sha256_hex (buildBitstream id ++ tail)
        = Ok (mkDecodedPayload (Some (bytesToUuid (uuidToBytes id)))
                               (Some (sha256_hex (uuidToBytes id))) true 0)) /\
    (forall K : list Z,
        length K = 16%nat -> Forall isByte K ->
        decodeBitstream sha256_hex (buildBitstream (bytesToUuid K) ++ tail)
        = Ok (mkDecodedPayload (Some (bytesToUuid K)) (Some (sha256_hex K)) true 0)).
Proof.
  intros sha256_hex tail. split.
  - intros id. apply decodeBitstream_frame.
  - intros K HlenK HK. rewrite decodeBitstream_frame.
    rewrite uuid_roundtrip by assumption. reflexivity.
Qed.

(** ** Frame layout: the three fields *)




(** ** What a parse reports *)

Lemma decodeBitstream_failure_fields :
  forall (sha256_hex : list Z -> string) (V : list Z) (d : DecodedPayload),
    decodeBitstream sha256_hex V = Ok d ->
    success d = false ->
    signatureId d = None /\ payloadHash d = None.
Proof.
  intros sha256_hex V d. unfold decodeBitstream.
  destruct (findSync V SYNC_PATTERN <? 0).
  { intros E _. inversion E; subst. split; reflexivity. }
  destruct (rsDecode _ PARITY_BYTES) as [r | msg]; cbn [bind]; [| discriminate].
  destruct (negb (corrected r)).
  { intros E _. inversion E; subst. split; reflexivity. }
  destruct (frameLength V (findSync V SYNC_PATTERN) =? 16).
  - intros E Hs. inversion E; subst. discriminate Hs.
  - intros E _. inversion E; subst. split; reflexivity.
Qed.

(** X7: the identifier and the digest of a parse are non-null exactly
    when it succeeds, and the identifier of a successful parse is never
    the empty string. *)
Theorem decodeBitstream_null_fields :
  forall (sha256_hex : list Z -> string) (V : list Z) (d : DecodedPayload),
    decodeBitstream sha256_hex V = Ok d ->
    (success d = true ->
     exists id h, signatureId d = Some id /\ id <> EmptyString /\ payloadHash d = Some h) /\
    (success d = false -> signatureId d = None /\ payloadHash d = None).
Proof.
  intros sha256_hex V d Hd. split.
  - intros Hs.
    destruct (decodeBitstream_success sha256_hex V d Hd Hs) as (r & _ & _ & _ & Hid & Hh).
    eexists. eexists. split; [exact Hid |]. split; [| exact Hh].
    intros E. pose proof (bytesToUuid_not_empty (jsSlice (data r) 0 16)) as Hne.
    rewrite E in Hne. discriminate Hne.
  - intros Hs. exact (decodeBitstream_failure_fields sha256_hex V d Hd Hs).
Qed.

Lemma decodeBitstream_null_fields_witness :
  (success (mkDecodedPayload (Some "----"%string) (Some "h"%string) true 0) = true ->
   exists id h,
     signatureId (mkDecodedPayload (Some "----"%string) (Some "h"%string) true 0) = Some id /\
     id <> EmptyString /\
     payloadHash (mkDecodedPayload (Some "----"%string) (Some "h"%string) true 0) = Some h) /\
  (success (mkDecodedPayload (Some "----"%string) (Some "h"%string) true 0) = false ->
   signatureId (mkDecodedPayload (Some "----"%string) (Some "h"%string) true 0) = None /\
   payloadHash (mkDecodedPayload (Some "----"%string) (Some "h"%string) true 0) = None).
Proof.
  apply (decodeBitstream_null_fields (fun _ => "h"%string) truncatedFrame).
  vm_compute. reflexivity.
Defined.

Lemma decodeBitstream_short :
  forall (sha256_hex : list Z -> string) (V : list Z),
    (length V < 64)%nat ->
    decodeBitstream sha256_hex V = Ok (mkDecodedPayload None None false 0).
Proof.
  intros sha256_hex V HV. unfold decodeBitstream.
  assert (E : findSync V SYNC_PATTERN = -1).
  { unfold findSync, syncCandidates.
    change (length SYNC_PATTERN) with 64%nat.
    destruct (Nat.leb_spec 64 (length V)); [lia |].
    cbn [syncLoop]. destruct (ratioGe _ _ _ _); reflexivity. }
  rewrite E. reflexivity.
Qed.

Section DetectEdges.

Context {FO : FloatOps}.
Variable sha256_hex : list Z -> string.

Lemma detect_on_failed_parse :
  forall (extracted : Engine.ExtractResult)
         (lookupFn : string -> option Engine.WatermarkPayload)
         (d : DecodedPayload),
    decodeBitstream sha256_hex (applySoftMajorityVoting (Engine.correlations extracted)) = Ok d ->
    success d = false ->
    Engine.detect sha256_hex extracted lookupFn
    = Ok (Engine.mkDetectResult false 0 None None
            (Engine.mkStats (Engine.bitConfidence extracted) (Engine.bandAgreement extracted)
                            (Engine.blocksAnalyzed extracted) (dErrorCount d))).
Proof.
  intros extracted lookupFn d Hd Hs.
  destruct (decodeBitstream_failure_fields sha256_hex _ d Hd Hs) as (_ & Hh).
  unfold Engine.detect. rewrite Hd. cbn [bind]. rewrite Hs, Hh. reflexivity.
Qed.

(** X8: when the parse fails, [detect] answers without consulting the
    lookup: not detected, confidence 0, no payload, no digest, and the
    statistics of the extraction with the parse's error count.  A
    recording of fewer than 64 blocks cannot hold the sync pattern and
    is such a case, with an error count of 0, whatever its
    correlations. *)
Theorem detect_without_watermark :
  forall (extracted : Engine.ExtractResult)
         (lookupFn : string -> option Engine.WatermarkPayload),
    (forall d : DecodedPayload,
        decodeBitstream sha256_hex (applySoftMajorityVoting (Engine.correlations extracted))
        = Ok d ->
        success d = false ->
        Engine.detect sha256_hex extracted lookupFn
        = Ok (Engine.mkDetectResult false 0 None None
                (Engine.mkStats (Engine.bitConfidence extracted)
                                (Engine.bandAgreement extracted)
                                (Engine.blocksAnalyzed extracted) (dErrorCount d)))) /\
    ((length (Engine.correlations extracted) < 64)%nat ->
     Engine.detect sha256_hex extracted lookupFn
     = Ok (Engine.mkDetectResult false 0 None None
             (Engine.mkStats (Engine.bitConfidence extracted)
                             (Engine.bandAgreement extracted)
                             (Engine.blocksAnalyzed extracted) 0))).
Proof.
  intros extracted lookupFn. split.
  - intros d Hd Hs. apply detect_on_failed_parse; assumption.
  - intros Hshort.
    apply (detect_on_failed_parse extracted lookupFn (mkDecodedPayload None None false 0));
      [| reflexivity].
    apply decodeBitstream_short. unfold applySoftMajorityVoting.
    assert (Hrep : (length (Engine.correlations extracted) / period < 2)%nat).
    { apply Nat.Div0.div_lt_upper_bound. unfold period. cbn. lia. }
    destruct (Nat.ltb_spec (length (Engine.correlations extracted) / period) 2); [| lia].
    rewrite length_map. exact Hshort.
Qed.

(** X9: when the voted bits start with the frame built for an
    identifier, [detect] looks up the canonical print of the 16 bytes
    of that identifier: it returns what the lookup answers as the
    payload, [detected] exactly when the lookup answers, the digest of
    the 16 bytes, and an error count of 0. *)
Theorem detect_recognises_clean_frame :
  forall (extracted : Engine.ExtractResult)
         (lookupFn : string -> option Engine.WatermarkPayload)
         (id : string) (tail : list Z),
    applySoftMajorityVoting (Engine.correlations extracted) = buildBitstream id ++ tail ->
    exists r,
      Engine.detect sha256_hex extracted lookupFn = Ok r /\
      Engine.payload r = lookupFn (bytesToUuid (uuidToBytes id)) /\
      (Engine.detected r = true <-> lookupFn (bytesToUuid (uuidToBytes id)) <> None) /\
      Engine.dPayloadHash r = Some (sha256_hex (uuidToBytes id)) /\
      Engine.sErrorCount (Engine.stats r) = 0%nat.
Proof.
  intros extracted lookupFn id tail Hvoted.
  unfold Engine.detect. rewrite Hvoted, decodeBitstream_frame. cbn [bind].
  cbn [success signatureId payloadHash dErrorCount negb orb Engine.falsyId Addon.orDefault].
  rewrite bytesToUuid_not_empty.
  eexists. split; [reflexivity |].
  cbn [Engine.payload Engine.detected Engine.dPayloadHash Engine.stats Engine.sErrorCount].
  split; [reflexivity |]. split; [| split; reflexivity].
  destruct (lookupFn _); split; intros H; try reflexivity; try discriminate.
  contradiction.
Qed.

End DetectEdges.

Lemma detect_without_watermark_witness :
  Engine.detect (FO := IntFloat) (fun _ => "h"%string)
                (Engine.mkExtractResult (FO := IntFloat) [1; 0; 1] [5; -3; 2] 1 1 3)
                (fun _ => Some anyPayload)
  = Ok (Engine.mkDetectResult (FO := IntFloat) false 0 None None
          (Engine.mkStats (FO := IntFloat) 1 1 3 0)).
Proof.
  apply (proj2 (detect_without_watermark (FO := IntFloat) (fun _ => "h"%string)
                  (Engine.mkExtractResult (FO := IntFloat) [1; 0; 1] [5; -3; 2] 1 1 3)
                  (fun _ => Some anyPayload))).
  cbn. lia.
Defined.

Lemma detect_recognises_clean_frame_witness :
  exists r,
    Engine.detect (FO := IntFloat) (fun _ => "h"%string) cleanExtraction
                  (fun _ => Some anyPayload) = Ok r /\
    Engine.payload r = Some anyPayload /\
    Engine.sErrorCount (Engine.stats r) = 0%nat.
Proof.
  destruct (detect_recognises_clean_frame (FO := IntFloat) (fun _ => "h"%string)
              cleanExtraction (fun _ => Some anyPayload)
              "00010203-0405-0607-0809-0a0b0c0d0e0f" [])
    as (r & E & Hp & _ & _ & He).
  - vm_compute. reflexivity.
  - exists r. split; [exact E |]. split; [exact Hp | exact He].
Defined.

(** ** Soft voting: the incomplete last repetition *)

Section VotingTail.

Context {FO : FloatOps}.

Lemma foldedSum_app :
  forall (C extra : list f32) (reps p : nat),
    (reps * period <= length C)%nat -> (p < period)%nat ->
    foldedSum (C ++ extra) reps p = foldedSum C reps p.
Proof.
  intros C extra reps p HC Hp. unfold foldedSum.
  apply fold_left_ext_in. intros s r Hr.
  apply in_seq in Hr. rewrite app_nth1; [reflexivity |]. nia.
Qed.

(** X10: with two whole repetitions or more, correlations after the last
    whole repetition have no vote: appending values that do not
    complete another repetition leaves the voted bits unchanged. *)
Theorem soft_voting_ignores_partial_repetition :
  forall C extra : list f32,
    (2 <= length C / period)%nat ->
    (length (C ++ extra) / period = length C / period)%nat ->
    applySoftMajorityVoting (C ++ extra) = applySoftMajorityVoting C.
Proof.
  intros C extra Hreps Hsame.
  assert (HC : (length C / period * period <= length C)%nat).
  { rewrite Nat.mul_comm. apply Nat.Div0.mul_div_le. }
  assert (HCe : (length C / period * period <= length (C ++ extra))%nat).
  { rewrite length_app. lia. }
  unfold applySoftMajorityVoting. rewrite Hsame.
  destruct (Nat.ltb_spec (length C / period) 2) as [Hlt | _]; [lia |].
  destruct (positionSums_nth C (length C / period) HC) as (Hlen & Hnth).
  destruct (positionSums_nth (C ++ extra) (length C / period) HCe) as (Hlen' & Hnth').
  f_equal. apply (nth_ext _ _ f32_zero f32_zero); [congruence |].
  intros p Hp. rewrite Hlen' in Hp.
  rewrite Hnth', Hnth by exact Hp.
  apply foldedSum_app; assumption.
Qed.

End VotingTail.

Lemma soft_voting_ignores_partial_repetition_witness :
  applySoftMajorityVoting (FO := IntFloat) (sampleCorrelations ++ [7; -7; 7])
  = applySoftMajorityVoting (FO := IntFloat) sampleCorrelations.
Proof.
  apply (soft_voting_ignores_partial_repetition (FO := IntFloat) sampleCorrelations [7; -7; 7]).
  - vm_compute. lia.
  - vm_compute. reflexivity.
Defined.

(** ** The field laws of [gfMul] and [gfDiv] *)

Lemma forall_below :
  forall (P : nat -> bool) (n : nat),
    forallb P (seq 0 n) = true -> forall i, (i < n)%nat -> P i = true.
Proof.
  intros P n H i Hi. rewrite forallb_forall in H. apply H. apply in_seq. lia.
Qed.

(** The tables: [gfLog] inverts [gfExp] on the exponents below 255. *)
Lemma logOf_expAt :
  forall i, 0 <= i < 255 -> expAt i <> 0 /\ logOf (expAt i) = i.
Proof.
  intros i Hi.
  assert (H : forallb (fun k => negb (expAt (Z.of_nat k) =? 0)
                                && (logOf (expAt (Z.of_nat k)) =? Z.of_nat k))
                      (seq 0 255) = true) by (vm_compute; reflexivity).
  pose proof (forall_below _ _ H (Z.to_nat i)) as E. cbv beta in E.
  rewrite Z2Nat.id in E by lia.
  specialize (E ltac:(lia)). apply andb_prop in E. destruct E as [E1 E2].
  split; [| apply Z.eqb_eq; exact E2].
  intros E0. rewrite E0 in E1. discriminate E1.
Qed.

(** [gfExp] inverts [gfLog] on the non-zero bytes. *)
Lemma expAt_logOf :
  forall a, isByte a -> a <> 0 -> 0 <= logOf a < 255 /\ expAt (logOf a) = a.
Proof.
  intros a Ha Hne.
  assert (H : forallb (fun a => (a =? 0)
                                || ((0 <=? logOf a) && (logOf a <? 255)
                                    && (expAt (logOf a) =? a)))
                      allBytes = true) by (vm_compute; reflexivity).
  pose proof (forall_bytes _ H a Ha) as E. cbv beta in E.
  destruct (Z.eqb_spec a 0); [contradiction |]. cbn [orb] in E.
  apply andb_prop in E. destruct E as [E E3]. apply andb_prop in E. destruct E as [E1 E2].
  apply Z.leb_le in E1. apply Z.ltb_lt in E2. apply Z.eqb_eq in E3.
  split; [lia | exact E3].
Qed.

(** The doubled table is periodic: [gfExp[i] = gfExp[i mod 255]]. *)
Lemma expAt_periodic :
  forall i, 0 <= i < 512 -> expAt i = expAt (i mod 255).
Proof.
  intros i Hi.
  assert (H : forallb (fun k => expAt (Z.of_nat k) =? expAt (Z.of_nat k mod 255))
                      (seq 0 512) = true) by (vm_compute; reflexivity).
  pose proof (forall_below _ _ H (Z.to_nat i)) as E. cbv beta in E.
  rewrite Z2Nat.id in E by lia. apply Z.eqb_eq. apply E. lia.
Qed.

Lemma gfMul_nonzero :
  forall a b, isByte a -> isByte b -> a <> 0 -> b <> 0 ->
    gfMul a b = expAt ((logOf a + logOf b) mod 255) /\
    gfMul a b <> 0 /\
    logOf (gfMul a b) = (logOf a + logOf b) mod 255.
Proof.
  intros a b Ha Hb Ha0 Hb0.
  destruct (expAt_logOf a Ha Ha0) as (Hla & _).
  destruct (expAt_logOf b Hb Hb0) as (Hlb & _).
  assert (E : gfMul a b = expAt ((logOf a + logOf b) mod 255)).
  { unfold gfMul.
    destruct (Z.eqb_spec a 0); [contradiction |].
    destruct (Z.eqb_spec b 0); [contradiction |].
    cbn [orb]. apply expAt_periodic. lia. }
  assert (Hm : 0 <= (logOf a + logOf b) mod 255 < 255) by (apply Z.mod_pos_bound; lia).
  destruct (logOf_expAt _ Hm) as (Hnz & Hlog).
  rewrite E. repeat split; assumption.
Qed.

Lemma gfMul_0_r : forall x, gfMul x 0 = 0.
Proof. intros x. rewrite gfMul_comm. reflexivity. Qed.

Lemma gfMul_assoc :
  forall a b c, isByte a -> isByte b -> isByte c ->
    gfMul (gfMul a b) c = gfMul a (gfMul b c).
Proof.
  intros a b c Ha Hb Hc.
  destruct (Z.eq_dec a 0) as [-> | Ha0]; [reflexivity |].
  destruct (Z.eq_dec b 0) as [-> | Hb0].
  { rewrite gfMul_0_r, !gfMul_0_l, gfMul_0_r. reflexivity. }
  destruct (Z.eq_dec c 0) as [-> | Hc0]; [rewrite !gfMul_0_r; reflexivity |].
  destruct (gfMul_nonzero a b Ha Hb Ha0 Hb0) as (_ & Hab0 & Hlab).
  destruct (gfMul_nonzero b c Hb Hc Hb0 Hc0) as (_ & Hbc0 & Hlbc).
  destruct (gfMul_nonzero (gfMul a b) c (gfMul_byte a b) Hc Hab0 Hc0) as (E1 & _ & _).
  destruct (gfMul_nonzero a (gfMul b c) Ha (gfMul_byte b c) Ha0 Hbc0) as (E2 & _ & _).
  rewrite E1, E2, Hlab, Hlbc.
  rewrite Z.add_mod_idemp_l, Z.add_mod_idemp_r by lia.
  f_equal. f_equal. lia.
Qed.

(** Multiplication by 2 is [xtime]. *)
Lemma gfMul_2 : forall a, isByte a -> gfMul 2 a = xtime a.
Proof.
  intros a Ha. apply Z.eqb_eq.
  apply (forall_bytes (fun a => gfMul 2 a =? xtime a)); [vm_compute; reflexivity | exact Ha].
Qed.

Lemma xtime_byte : forall a, isByte a -> isByte (xtime a).
Proof.
  intros a Ha. rewrite <- gfMul_2 by exact Ha. apply gfMul_byte.
Qed.

Lemma bit8_shift : forall a, (Z.land (Z.shiftl a 1) 0x100 =? 0) = negb (Z.testbit a 7).
Proof.
  intros a.
  change 0x100 with (2 ^ 8).
  destruct (Z.testbit a 7) eqn:T; cbn [negb].
  - apply Z.eqb_neq. intros E.
    assert (B : Z.testbit (Z.land (Z.shiftl a 1) (2 ^ 8)) 8 = true).
    { rewrite Z.land_spec, Z.shiftl_spec by lia. change (8 - 1) with 7.
      rewrite T. rewrite Z.pow2_bits_true by lia. reflexivity. }
    rewrite E in B. rewrite Z.bits_0 in B. discriminate B.
  - apply Z.eqb_eq. apply Z.bits_inj'. intros n Hn.
    rewrite Z.bits_0, Z.land_spec.
    destruct (Z.eq_dec n 8) as [-> | Hne].
    + rewrite Z.shiftl_spec by lia. change (8 - 1) with 7. rewrite T. reflexivity.
    + rewrite (Z.pow2_bits_false 8 n) by lia. apply andb_false_r.
Qed.

Lemma lxor_rot : forall u v p, Z.lxor (Z.lxor u v) p = Z.lxor (Z.lxor u p) v.
Proof.
  intros u v p. rewrite Z.lxor_assoc, (Z.lxor_comm v p), <- Z.lxor_assoc. reflexivity.
Qed.

(** [xtime] is additive. *)
Lemma xtime_add : forall a b, xtime (Z.lxor a b) = Z.lxor (xtime a) (xtime b).
Proof.
  intros a b. unfold xtime. cbv zeta.
  rewrite !bit8_shift, Z.lxor_spec, Z.shiftl_lxor.
  destruct (Z.testbit a 7), (Z.testbit b 7); cbn [xorb negb].
  - rewrite lxor_swap, Z.lxor_nilpotent, Z.lxor_0_r. reflexivity.
  - apply lxor_rot.
  - apply Z.lxor_assoc.
  - reflexivity.
Qed.

Lemma expAt_succ :
  forall i, 0 <= i < 254 -> expAt (i + 1) = gfMul 2 (expAt i).
Proof.
  intros i Hi.
  assert (H : forallb (fun k => expAt (Z.of_nat k + 1) =? gfMul 2 (expAt (Z.of_nat k)))
                      (seq 0 254) = true) by (vm_compute; reflexivity).
  pose proof (forall_below _ _ H (Z.to_nat i)) as E. cbv beta in E.
  rewrite Z2Nat.id in E by lia. apply Z.eqb_eq. apply E. lia.
Qed.

(** Multiplication by a power of the generator is additive. *)
Lemma gfMul_expAt_add :
  forall (k : nat) (x y : Z),
    (k < 255)%nat -> isByte x -> isByte y ->
    gfMul (expAt (Z.of_nat k)) (Z.lxor x y)
    = Z.lxor (gfMul (expAt (Z.of_nat k)) x) (gfMul (expAt (Z.of_nat k)) y).
Proof.
  induction k as [| k IH]; intros x y Hk Hx Hy.
  - change (expAt (Z.of_nat 0)) with 1.
    rewrite !gfMul_1_l by (auto using lxor_byte). reflexivity.
  - replace (Z.of_nat (S k)) with (Z.of_nat k + 1) by lia.
    rewrite expAt_succ by lia.
    rewrite !gfMul_assoc
      by (auto using lxor_byte, expAt_byte; unfold isByte; lia).
    rewrite IH by (auto; lia).
    rewrite !gfMul_2 by (auto using lxor_byte, gfMul_byte).
    apply xtime_add.
Qed.

Lemma gfMul_add_r :
  forall a x y, isByte a -> isByte x -> isByte y ->
    gfMul a (Z.lxor x y) = Z.lxor (gfMul a x) (gfMul a y).
Proof.
  intros a x y Ha Hx Hy.
  destruct (Z.eq_dec a 0) as [-> | Ha0]; [reflexivity |].
  destruct (expAt_logOf a Ha Ha0) as (Hl & E).
  rewrite <- E. rewrite <- (Z2Nat.id (logOf a)) by lia.
  apply gfMul_expAt_add; [lia | assumption | assumption].
Qed.

(** X11: on bytes, [gfMul] with XOR as the sum is the multiplication of
    a field: commutative, associative, with unit 1, distributive, and
    without zero divisors. *)
Theorem gfMul_field_laws :
  forall a b c : Z,
    isByte a -> isByte b -> isByte c ->
    isByte (gfMul a b) /\
    gfMul a b = gfMul b a /\
    gfMul (gfMul a b) c = gfMul a (gfMul b c) /\
    gfMul 1 a = a /\
    gfMul a (Z.lxor b c) = Z.lxor (gfMul a b) (gfMul a c) /\
    (gfMul a b = 0 <-> a = 0 \/ b = 0).
Proof.
  intros a b c Ha Hb Hc.
  split; [apply gfMul_byte |].
  split; [apply gfMul_comm |].
  split; [apply gfMul_assoc; assumption |].
  split; [apply gfMul_1_l; assumption |].
  split; [apply gfMul_add_r; assumption |].
  split.
  - intros E. destruct (Z.eq_dec a 0) as [-> | Ha0]; [left; reflexivity |].
    destruct (Z.eq_dec b 0) as [-> | Hb0]; [right; reflexivity |].
    destruct (gfMul_nonzero a b Ha Hb Ha0 Hb0) as (_ & Hnz & _). contradiction.
  - intros [-> | ->]; [reflexivity | apply gfMul_0_r].
Qed.

Lemma gfMul_field_laws_witness :
  isByte (gfMul 3 7) /\
  gfMul 3 7 = gfMul 7 3 /\
  gfMul (gfMul 3 7) 200 = gfMul 3 (gfMul 7 200) /\
  gfMul 1 3 = 3 /\
  gfMul 3 (Z.lxor 7 200) = Z.lxor (gfMul 3 7) (gfMul 3 200) /\
  (gfMul 3 7 = 0 <-> 3 = 0 \/ 7 = 0).
Proof.
  apply (gfMul_field_laws 3 7 200); unfold isByte; lia.
Defined.

(** X12: for a non-zero byte [b], [gfDiv] by [b] is defined and undoes
    [gfMul] by [b], on either side. *)
Theorem gfDiv_undoes_gfMul :
  forall a b : Z,
    isByte a -> isByte b -> b <> 0 ->
    gfDiv (gfMul a b) b = Ok a /\
    exists q, gfDiv a b = Ok q /\ isByte q /\ gfMul q b = a.
Proof.
  intros a b Ha Hb Hb0.
  destruct (expAt_logOf b Hb Hb0) as (Hlb & Eb).
  assert (Hq : forall u, isByte u -> u <> 0 ->
                 gfDiv u b = Ok (expAt ((logOf u + 255 - logOf b) mod 255))).
  { intros u Hu Hu0. unfold gfDiv.
    destruct (Z.eqb_spec u 0); [contradiction |].
    destruct (Z.eqb_spec b 0); [contradiction |].
    reflexivity. }
  split.
  - destruct (Z.eq_dec a 0) as [-> | Ha0]; [reflexivity |].
    destruct (expAt_logOf a Ha Ha0) as (Hla & Ea).
    destruct (gfMul_nonzero a b Ha Hb Ha0 Hb0) as (_ & Hnz & Hlog).
    rewrite Hq by (auto using gfMul_byte). rewrite Hlog.
    f_equal. transitivity (expAt (logOf a)); [| exact Ea]. f_equal.
    rewrite <- Z.add_sub_assoc, Z.add_mod_idemp_l by lia.
    replace (logOf a + logOf b + (255 - logOf b)) with (logOf a + 1 * 255) by lia.
    rewrite Z.mod_add by lia. apply Z.mod_small. exact Hla.
  - destruct (Z.eq_dec a 0) as [-> | Ha0].
    { exists 0. split; [reflexivity |]. split; [unfold isByte; lia | reflexivity]. }
    destruct (expAt_logOf a Ha Ha0) as (Hla & Ea).
    rewrite Hq by assumption.
    eexists. split; [reflexivity |]. split; [apply expAt_byte |].
    set (m := (logOf a + 255 - logOf b) mod 255).
    assert (Hm : 0 <= m < 255) by (apply Z.mod_pos_bound; lia).
    destruct (logOf_expAt m Hm) as (Hnz & Hlog).
    destruct (gfMul_nonzero (expAt m) b (expAt_byte m) Hb Hnz Hb0) as (E & _ & _).
    rewrite E, Hlog. transitivity (expAt (logOf a)); [| exact Ea]. f_equal. unfold m.
    rewrite Z.add_mod_idemp_l by lia.
    replace (logOf a + 255 - logOf b + logOf b) with (logOf a + 1 * 255) by lia.
    rewrite Z.mod_add by lia. apply Z.mod_small. exact Hla.
Qed.

Lemma gfDiv_undoes_gfMul_witness :
  gfDiv (gfMul 200 7) 7 = Ok 200 /\
  exists q, gfDiv 200 7 = Ok q /\ isByte q /\ gfMul q 7 = 200.
Proof.
  apply (gfDiv_undoes_gfMul 200 7); unfold isByte; try lia.
Defined.

(** X13: [gfPow] of a non-zero byte is the repeated product: exponent 0
    gives 1 and each further unit of the exponent one more factor. *)
Theorem gfPow_repeated_product :
  forall (a : Z) (n : Z),
    isByte a -> a <> 0 -> 0 <= n ->
    gfPow a 0 = 1 /\ gfPow a (n + 1) = gfMul a (gfPow a n).
Proof.
  intros a n Ha Ha0 Hn.
  destruct (expAt_logOf a Ha Ha0) as (Hla & Ea).
  split.
  - unfold gfPow. rewrite Z.mul_0_r. reflexivity.
  - unfold gfPow. change (Z.of_nat GF_SIZE - 1) with 255.
    set (m := (logOf a * n) mod 255).
    assert (Hm : 0 <= m < 255) by (apply Z.mod_pos_bound; lia).
    destruct (logOf_expAt m Hm) as (Hnz & Hlog).
    destruct (gfMul_nonzero a (expAt m) Ha (expAt_byte m) Ha0 Hnz) as (E & _ & _).
    rewrite E, Hlog. f_equal. unfold m.
    rewrite Z.add_mod_idemp_r by lia. f_equal. lia.
Qed.

Lemma gfPow_repeated_product_witness :
  gfPow 2 0 = 1 /\ gfPow 2 (8 + 1) = gfMul 2 (gfPow 2 8).
Proof.
  apply (gfPow_repeated_product 2 8); [unfold isByte; lia | discriminate | lia].
Defined.

(** ** Reed-Solomon with any number of parity bytes *)

Lemma additive_all : forall x, isByte x -> additiveAt x.
Proof.
  intros x Hx a b Ha Hb.
  rewrite !(gfMul_comm _ x). apply gfMul_add_r; assumption.
Qed.

Lemma gfMul_1_r : forall c, isByte c -> gfMul c 1 = c.
Proof. intros c Hc. rewrite gfMul_comm. apply gfMul_1_l. exact Hc. Qed.

(** Horner evaluation commutes with scaling the coefficients. *)
Lemma horner_scale :
  forall x r p y,
    isByte x -> isByte r -> isByte y -> Forall isByte p ->
    fold_left (fun y c => Z.lxor (gfMul y x) c) (polyScale p r) (gfMul y r)
    = gfMul (fold_left (fun y c => Z.lxor (gfMul y x) c) p y) r.
Proof.
  intros x r p. induction p as [| c p IH]; intros y Hx Hr Hy Hp; [reflexivity |].
  inversion Hp; subst. cbn [polyScale map fold_left].
  change (map (fun c0 => gfMul c0 r) p) with (polyScale p r).
  rewrite <- IH by (auto using lxor_byte, gfMul_byte).
  f_equal.
  rewrite (gfMul_comm (Z.lxor (gfMul y x) c) r).
  rewrite gfMul_add_r by (auto using gfMul_byte).
  rewrite (gfMul_comm r (gfMul y x)), (gfMul_comm r c).
  f_equal.
  rewrite !gfMul_assoc by assumption. f_equal. apply gfMul_comm.
Qed.

Lemma polyEval_scale :
  forall x r p, isByte x -> isByte r -> Forall isByte p ->
    polyEval (polyScale p r) x = gfMul (polyEval p x) r.
Proof.
  intros x r p Hx Hr Hp. rewrite !polyEval_fold.
  change 0 with (gfMul 0 r) at 1.
  apply horner_scale; auto. unfold isByte. lia.
Qed.

(** The product of [p] by the monic linear polynomial [[1; r]], as
    the loops of [polyMul] compute it. *)
Lemma polyMul_linear_nth :
  forall (p : list Z) (r : Z) (k : nat),
    (k <= length p)%nat ->
    let res :=
      fold_left
        (fun res i =>
           fold_left
             (fun res' j =>
                upd (i + j) (Z.lxor (nth (i + j) res' 0) (gfMul (nth i p 0) (nth j [1; r] 0))) res')
             (seq 0 (length [1; r])) res)
        (seq 0 k) (zeros (length p + length [1; r] - 1)) in
    length res = S (length p) /\
    forall t, nth t res 0
              = Z.lxor (if (t <? k)%nat then gfMul (nth t p 0) 1 else 0)
                       (if (1 <=? t)%nat && (t <=? k)%nat then gfMul (nth (t - 1) p 0) r else 0).
Proof.
  intros p r k. induction k as [| k IH]; intros Hk res; subst res.
  - cbn [seq fold_left]. split; [rewrite zeros_length; cbn [length]; lia |].
    intros t. rewrite zeros_nth.
    destruct (Nat.leb_spec 1 t), (Nat.leb_spec t 0); try lia; reflexivity.
  - rewrite fold_seq_S. cbn [Nat.add].
    destruct IH as (Hlen & Hnth); [lia |].
    match type of Hlen with length ?prev = _ => set (acc := prev) in * end.
    cbn [length seq fold_left nth].
    rewrite Nat.add_0_r.
    split; [rewrite !upd_length; exact Hlen |].
    intros t.
    destruct (Nat.eq_dec t (k + 1)) as [-> | Hne1].
    + rewrite upd_nth_same by (rewrite upd_length, Hlen; lia).
      rewrite upd_nth_other by lia. rewrite Hnth.
      destruct (Nat.ltb_spec (k + 1) k); [lia |].
      destruct (Nat.ltb_spec (k + 1) (S k)); [lia |].
      destruct (Nat.leb_spec 1 (k + 1)); [| lia].
      destruct (Nat.leb_spec (k + 1) k); [lia |].
      destruct (Nat.leb_spec (k + 1) (S k)); [| lia].
      cbn [andb]. replace (k + 1 - 1)%nat with k by lia.
      rewrite !Z.lxor_0_l. reflexivity.
    + rewrite upd_nth_other by lia.
      destruct (Nat.eq_dec t k) as [-> | Hne].
      * rewrite upd_nth_same by (rewrite Hlen; lia). rewrite Hnth.
        destruct (Nat.ltb_spec k k); [lia |].
        destruct (Nat.ltb_spec k (S k)); [| lia].
        destruct (Nat.leb_spec k k); [| lia].
        destruct (Nat.leb_spec k (S k)); [| lia].
        rewrite Z.lxor_0_l. apply Z.lxor_comm.
      * rewrite upd_nth_other by lia. rewrite Hnth.
        destruct (Nat.ltb_spec t k), (Nat.ltb_spec t (S k)); try lia;
          destruct (Nat.leb_spec 1 t), (Nat.leb_spec t k), (Nat.leb_spec t (S k));
          try lia; reflexivity.
Qed.

Lemma polyMul_linear :
  forall (p : list Z) (r : Z),
    Forall isByte p ->
    polyMul p [1; r] = xorl (p ++ [0]) (0 :: polyScale p r).
Proof.
  intros p r Hp.
  destruct (polyMul_linear_nth p r (length p) (Nat.le_refl _)) as (Hlen & Hnth).
  fold (polyMul p [1; r]) in Hlen, Hnth.
  assert (Hl2 : length (p ++ [0]) = length (0 :: polyScale p r)).
  { rewrite length_app. cbn [length]. unfold polyScale. rewrite length_map. lia. }
  apply (nth_ext _ _ 0 0).
  - rewrite Hlen, xorl_length by exact Hl2. rewrite length_app. cbn [length]. lia.
  - intros t Ht. rewrite Hlen in Ht. rewrite Hnth, xorl_nth by exact Hl2.
    f_equal.
    + destruct (Nat.ltb_spec t (length p)) as [Hin | Hout].
      * rewrite app_nth1 by exact Hin. apply gfMul_1_r. apply nth_byte. exact Hp.
      * rewrite app_nth2 by exact Hout.
        destruct (t - length p)%nat as [| [| n]]; reflexivity.
    + destruct t as [| t]; [reflexivity |].
      cbn [nth]. replace (S t - 1)%nat with t by lia.
      destruct (Nat.leb_spec 1 (S t)); [| lia].
      destruct (Nat.leb_spec (S t) (length p)); [| lia].
      cbn [andb]. unfold polyScale.
      rewrite (nth_indep (map (fun c => gfMul c r) p) 0 (gfMul 0 r)) by (rewrite length_map; lia).
      symmetry. apply (map_nth (fun c => gfMul c r)).
Qed.

Lemma polyScale_bytes : forall p r, Forall isByte (polyScale p r).
Proof.
  intros p r. apply Forall_forall. intros z Hz. unfold polyScale in Hz.
  apply in_map_iff in Hz. destruct Hz as (c & <- & _). apply gfMul_byte.
Qed.

(** Evaluating the product by [[1; r]] multiplies the value by
    [x + r]. *)
Lemma polyEval_polyMul_linear :
  forall (p : list Z) (r x : Z),
    Forall isByte p -> isByte r -> isByte x ->
    polyEval (polyMul p [1; r]) x = gfMul (polyEval p x) (Z.lxor x r).
Proof.
  intros p r x Hp Hr Hx.
  rewrite polyMul_linear by exact Hp.
  rewrite polyEval_xorl.
  - assert (E1 : polyEval (p ++ [0]) x = gfMul (polyEval p x) x).
    { rewrite !polyEval_fold, fold_left_app. cbn [fold_left]. apply Z.lxor_0_r. }
    assert (E2 : polyEval (0 :: polyScale p r) x = gfMul (polyEval p x) r).
    { rewrite <- polyEval_scale by assumption.
      rewrite (polyEval_fold (polyScale p r)). reflexivity. }
    rewrite E1, E2. symmetry. apply gfMul_add_r; [| assumption | assumption].
    rewrite polyEval_fold. apply horner_byte; [unfold isByte; lia | exact Hp].
  - apply additive_all. exact Hx.
  - rewrite length_app. cbn [length]. unfold polyScale. rewrite length_map. lia.
  - apply Forall_app. split; [exact Hp |]. constructor; [unfold isByte; lia | constructor].
  - constructor; [unfold isByte; lia | apply polyScale_bytes].
Qed.

(** The generator polynomial: [nsym + 1] byte coefficients, leading
    coefficient 1, and a root at each of the [nsym] points
    [2^0 .. 2^(nsym - 1)]. *)
Lemma rsGeneratorPoly_roots :
  forall nsym : nat,
    let gen := rsGeneratorPoly nsym in
    length gen = S nsym /\
    Forall isByte gen /\
    nth 0 gen 0 = 1 /\
    forall i, (i < nsym)%nat -> polyEval gen (gfPow 2 (Z.of_nat i)) = 0.
Proof.
  induction nsym as [| n IH]; intros gen; subst gen.
  - cbn. split; [reflexivity |].
    split; [repeat constructor; discriminate |].
    split; [reflexivity | intros i Hi; lia].
  - unfold rsGeneratorPoly. rewrite fold_seq_S. cbn [Nat.add].
    fold (rsGeneratorPoly n).
    destruct IH as (Hlen & Hbytes & Hmonic & Hroots).
    set (g := rsGeneratorPoly n) in *.
    set (r := gfPow 2 (Z.of_nat n)).
    assert (Hr : isByte r) by apply gfPow_byte.
    assert (Hl2 : length (g ++ [0]) = length (0 :: polyScale g r)).
    { rewrite length_app. cbn [length]. unfold polyScale. rewrite length_map. lia. }
    split.
    { rewrite polyMul_linear by exact Hbytes.
      rewrite xorl_length by exact Hl2. rewrite length_app, Hlen. cbn [length]. lia. }
    split.
    { rewrite polyMul_linear by exact Hbytes. apply xorl_bytes.
      - apply Forall_app. split; [exact Hbytes |].
        constructor; [unfold isByte; lia | constructor].
      - constructor; [unfold isByte; lia | apply polyScale_bytes]. }
    split.
    { rewrite polyMul_linear by exact Hbytes. rewrite xorl_nth by exact Hl2.
      rewrite app_nth1 by (rewrite Hlen; lia). cbn [nth].
      rewrite Hmonic. reflexivity. }
    intros i Hi.
    rewrite polyEval_polyMul_linear by (auto using gfPow_byte).
    destruct (Nat.eq_dec i n) as [-> | Hne].
    + fold r. rewrite Z.lxor_nilpotent. apply gfMul_0_r.
    + rewrite Hroots by lia. reflexivity.
Qed.

(** The division loop, for any number of parity bytes. *)
Lemma encodeLoop_invariant_any :
  forall (data : list Z) (nsym : nat),
    Forall isByte data ->
    forall k, (k <= length data)%nat ->
      let msg0 := data ++ zeros nsym in
      let msg := encodeLoop (rsGeneratorPoly nsym) k msg0 in
      length msg = length msg0 /\
      Forall isByte msg /\
      (forall p, (p < k)%nat -> nth p msg 0 = 0) /\
      (forall i, (i < nsym)%nat ->
                 polyEval msg (gfPow 2 (Z.of_nat i)) = polyEval msg0 (gfPow 2 (Z.of_nat i))).
Proof.
  intros data nsym Hdata.
  destruct (rsGeneratorPoly_roots nsym) as (Hglen & Hgbytes & Hgmonic & Hgroots).
  intros k. induction k as [| k IH]; intros Hk msg0 msg; subst msg.
  - unfold encodeLoop. cbn [seq fold_left]. split; [reflexivity |].
    split; [apply Forall_app; split; [exact Hdata | apply zeros_bytes] |].
    split; [intros p Hp; lia | reflexivity].
  - rewrite encodeLoop_S. cbv zeta.
    destruct IH as (Hlen & Hbytes & Hzero & Hroots); [lia |].
    fold msg0 in Hlen, Hbytes, Hzero, Hroots.
    set (msg := encodeLoop (rsGeneratorPoly nsym) k msg0) in *.
    assert (Hmsg0 : length msg0 = (length data + nsym)%nat)
      by (unfold msg0; rewrite length_app, zeros_length; reflexivity).
    destruct (Z.eqb_spec (nth k msg 0) 0) as [Hc0 | Hc].
    + split; [exact Hlen |]. split; [exact Hbytes |].
      split; [| exact Hroots].
      intros p Hp. destruct (Nat.eq_dec p k) as [-> | Hne]; [exact Hc0 | apply Hzero; lia].
    + assert (Hcoef : isByte (nth k msg 0)) by (apply nth_byte; exact Hbytes).
      rewrite encode_step_xorl by (rewrite Hglen; lia).
      set (sg := shiftedGen (rsGeneratorPoly nsym) (nth k msg 0) k (length msg)).
      assert (Hsg : length msg = length sg).
      { unfold sg. rewrite shiftedGen_length; [reflexivity |]. rewrite Hglen. lia. }
      split; [rewrite xorl_length by exact Hsg; exact Hlen |].
      split; [apply xorl_bytes; [exact Hbytes | apply shiftedGen_bytes] |].
      split.
      * intros p Hp. rewrite xorl_nth by exact Hsg. unfold sg. rewrite shiftedGen_nth.
        destruct (Nat.eq_dec p k) as [-> | Hne].
        -- rewrite Nat.leb_refl.
           destruct (Nat.ltb_spec k (k + length (rsGeneratorPoly nsym)))
             as [_ | Hbad]; [| rewrite Hglen in Hbad; lia].
           cbn [andb]. rewrite Nat.sub_diag, Hgmonic.
           rewrite gfMul_1_l by exact Hcoef. apply Z.lxor_nilpotent.
        -- destruct (Nat.leb_spec k p); [lia |]. cbn [andb].
           rewrite Z.lxor_0_r. apply Hzero. lia.
      * intros i Hi.
        rewrite polyEval_xorl;
          [| apply additive_all; apply gfPow_byte | exact Hsg | exact Hbytes
           | apply shiftedGen_bytes].
        unfold sg, shiftedGen. rewrite polyEval_shifted.
        -- rewrite Z.lxor_0_r. apply Hroots. exact Hi.
        -- change (map (fun gj => gfMul gj (nth k msg 0)) (rsGeneratorPoly nsym))
             with (polyScale (rsGeneratorPoly nsym) (nth k msg 0)).
           rewrite polyEval_scale by (auto using gfPow_byte).
           rewrite Hgroots by exact Hi. reflexivity.
Qed.

(** Every syndrome of an encoded codeword is zero. *)
Lemma rsEncode_syndromes_zero_any :
  forall (data : list Z) (nsym : nat),
    Forall isByte data ->
    forall i, (i < nsym)%nat -> polyEval (rsEncode data nsym) (gfPow 2 (Z.of_nat i)) = 0.
Proof.
  intros data nsym Hdata i Hi.
  destruct (encodeLoop_invariant_any data nsym Hdata (length data) (Nat.le_refl _))
    as (Hlen & Hbytes & Hzero & Hroots).
  set (msg0 := data ++ zeros nsym) in *.
  set (msg := encodeLoop (rsGeneratorPoly nsym) (length data) msg0) in *.
  assert (Hmsg0 : length msg0 = (length data + nsym)%nat)
    by (unfold msg0; rewrite length_app, zeros_length; reflexivity).
  assert (Hcw : rsEncode data nsym = xorl msg0 msg).
  { rewrite rsEncode_systematic. fold msg0. fold msg.
    apply (nth_ext _ _ 0 0).
    - rewrite xorl_length by (symmetry; exact Hlen).
      rewrite length_app, length_skipn, Hlen, Hmsg0. lia.
    - intros p _. rewrite xorl_nth by (symmetry; exact Hlen).
      destruct (Nat.lt_ge_cases p (length data)) as [Hp | Hp].
      + rewrite app_nth1 by exact Hp. rewrite Hzero by exact Hp.
        unfold msg0. rewrite app_nth1 by exact Hp. rewrite Z.lxor_0_r. reflexivity.
      + rewrite app_nth2 by exact Hp. rewrite nth_skipn.
        replace (length data + (p - length data))%nat with p by lia.
        unfold msg0 at 1. rewrite app_nth2 by exact Hp. rewrite zeros_nth, Z.lxor_0_l.
        reflexivity. }
  rewrite Hcw.
  rewrite polyEval_xorl;
    [| apply additive_all; apply gfPow_byte | symmetry; exact Hlen
     | unfold msg0; apply Forall_app; split; [exact Hdata | apply zeros_bytes]
     | exact Hbytes].
  rewrite Hroots by exact Hi. apply Z.lxor_nilpotent.
Qed.

(** X14: for every byte string and every number of parity bytes, the
    codeword made by [rsEncode] is the data followed by that many
    parity bytes, all its syndromes vanish, and [rsDecode] returns the
    data with [corrected = true] and [errorCount = 0]. *)
Theorem rsEncode_rsDecode_any_parity :
  forall (data : list Z) (nsym : nat),
    Forall isByte data ->
    (exists parity,
        rsEncode data nsym = data ++ parity /\ length parity = nsym /\ Forall isByte parity) /\
    (forall i, (i < nsym)%nat -> polyEval (rsEncode data nsym) (gfPow 2 (Z.of_nat i)) = 0) /\
    rsDecode (rsEncode data nsym) nsym = Ok (mkDecoded data true 0).
Proof.
  intros data nsym Hdata.
  pose proof (rsEncode_length data nsym) as Hlen.
  pose proof (rsEncode_systematic data nsym) as Hsys.
  pose proof (rsEncode_bytes data nsym Hdata) as Hbytes.
  split; [| split].
  - eexists. split; [exact Hsys |]. split.
    + rewrite length_skipn, encodeLoop_length, length_app, zeros_length. lia.
    + apply skipn_bytes, encodeLoop_bytes.
      apply Forall_app. split; [exact Hdata | apply zeros_bytes].
  - apply rsEncode_syndromes_zero_any. exact Hdata.
  - assert (Hprefix : jsSlice (rsEncode data nsym) 0
                              (Z.of_nat (length (rsEncode data nsym)) - Z.of_nat nsym) = data).
    { rewrite Hlen.
      replace (Z.of_nat (length data + nsym) - Z.of_nat nsym) with (Z.of_nat (length data)) by lia.
      rewrite jsSlice_prefix by (rewrite Hlen; lia).
      rewrite Hsys, firstn_app, firstn_all, Nat.sub_diag, firstn_O. apply app_nil_r. }
    destruct (rsEncode data nsym) as [| c cw] eqn:Ecw.
    + cbn [length] in Hlen. assert (nsym = 0%nat) by lia. subst nsym.
      assert (data = []) by (destruct data; [reflexivity | cbn in Hlen; lia]). subst data.
      reflexivity.
    + rewrite <- Ecw in *. rewrite rsDecode_zero_syndromes.
      * rewrite Hprefix. reflexivity.
      * rewrite Ecw. discriminate.
      * apply rsEncode_syndromes_zero_any. exact Hdata.
Qed.

Lemma rsEncode_rsDecode_any_parity_witness :
  (exists parity,
      rsEncode [72; 105] 4 = [72; 105] ++ parity /\ length parity = 4%nat /\
      Forall isByte parity) /\
  (forall i, (i < 4)%nat -> polyEval (rsEncode [72; 105] 4) (gfPow 2 (Z.of_nat i)) = 0) /\
  rsDecode (rsEncode [72; 105] 4) 4 = Ok (mkDecoded [72; 105] true 0).
Proof.
  apply (rsEncode_rsDecode_any_parity [72; 105] 4).
  repeat constructor; discriminate.
Defined.

(** ** What [rsDecode] can return *)

(** X15: whatever [rsDecode] returns for a codeword at least as long as
    the parity carries [length - nsym] data bytes; a result with
    [corrected = true] counts at most [nsym] errors; a result with
    [corrected = false], or with no error counted, carries the first
    [length - nsym] bytes of the codeword unchanged; and
    [corrected = false] is only reported when some syndrome is not
    zero. *)
Theorem rsDecode_result_shape :
  forall (codeword : list Z) (nsym : nat) (d : Decoded),
    (nsym <= length codeword)%nat ->
    rsDecode codeword nsym = Ok d ->
    length (data d) = (length codeword - nsym)%nat /\
    (corrected d = true -> (errorCount d <= nsym)%nat) /\
    (corrected d = false \/ errorCount d = 0%nat ->
     data d = firstn (length codeword - nsym) codeword) /\
    (corrected d = false ->
     exists i, (i < nsym)%nat /\ polyEval codeword (gfPow 2 (Z.of_nat i)) <> 0).
Proof.
  intros codeword nsym d Hn. unfold rsDecode.
  assert (Hprefix : jsSlice codeword 0 (Z.of_nat (length codeword) - Z.of_nat nsym)
                    = firstn (length codeword - nsym) codeword).
  { replace (Z.of_nat (length codeword) - Z.of_nat nsym)
      with (Z.of_nat (length codeword - nsym)) by lia.
    apply jsSlice_prefix. lia. }
  rewrite Hprefix.
  assert (Hpl : length (firstn (length codeword - nsym) codeword) = (length codeword - nsym)%nat)
    by (rewrite length_firstn; lia).
  destruct codeword as [| c cw] eqn:Ecw.
  { cbn [length] in Hn. assert (nsym = 0%nat) by lia. subst nsym. cbn.
    intros E. inversion E; subst. cbn.
    split; [reflexivity |]. split; [lia |]. split; [reflexivity | discriminate]. }
  rewrite <- Ecw in *. clear Ecw c cw.
  destruct (existsb (fun s => negb (s =? 0)) (syndromes codeword nsym)) eqn:Hsyn; cbn [negb].
  2: { intros E. inversion E; subst. cbn [data corrected errorCount].
       split; [exact Hpl |]. split; [lia |]. split; [reflexivity | discriminate]. }
  assert (Hex : exists i, (i < nsym)%nat /\ polyEval codeword (gfPow 2 (Z.of_nat i)) <> 0).
  { apply existsb_exists in Hsyn. destruct Hsyn as (s & Hin & Hs).
    unfold syndromes in Hin. apply in_map_iff in Hin. destruct Hin as (i & <- & Hi).
    apply in_seq in Hi. exists i. split; [lia |].
    intros E0. rewrite E0 in Hs. discriminate Hs. }
  destruct (findErrLoc _ nsym) as [[errLoc oldLoc] | e]; cbn [bind]; [| discriminate].
  set (pos := findErrPositions errLoc (length codeword)).
  destruct (Nat.eqb_spec (length pos) 0) as [Hz | Hnz]; cbn [orb].
  { intros E. inversion E; subst. cbn [data corrected errorCount].
    split; [exact Hpl |]. split; [discriminate |]. split; [reflexivity | intros _; exact Hex]. }
  destruct (Nat.ltb_spec nsym (length pos)) as [Hmany | Hfew].
  { intros E. inversion E; subst. cbn [data corrected errorCount].
    split; [exact Hpl |]. split; [discriminate |]. split; [reflexivity | intros _; exact Hex]. }
  cbv zeta.
  destruct (correctErrors codeword errLoc _ _) as [msg' | e] eqn:Ecorr; cbn [bind];
    [| discriminate].
  intros E. inversion E; subst. cbn [data corrected errorCount].
  apply correctErrors_length in Ecorr.
  split.
  { rewrite Ecorr.
    replace (Z.of_nat (length codeword) - Z.of_nat nsym)
      with (Z.of_nat (length codeword - nsym)) by lia.
    rewrite jsSlice_prefix by lia. rewrite length_firstn. lia. }
  split; [intros _; exact Hfew |].
  split; [intros [Hc | Hc]; [discriminate Hc | contradiction] | discriminate].
Qed.

Lemma rsDecode_result_shape_witness :
  length (data (mkDecoded (1 :: repeat 0 15)%Z false 0)) = (length (1 :: repeat 0 47)%Z - 32)%nat /\
  (corrected (mkDecoded (1 :: repeat 0 15)%Z false 0) = true ->
   (errorCount (mkDecoded (1 :: repeat 0 15)%Z false 0) <= 32)%nat) /\
  (corrected (mkDecoded (1 :: repeat 0 15)%Z false 0) = false \/
   errorCount (mkDecoded (1 :: repeat 0 15)%Z false 0) = 0%nat ->
   data (mkDecoded (1 :: repeat 0 15)%Z false 0)
   = firstn (length (1 :: repeat 0 47)%Z - 32) (1 :: repeat 0 47)%Z) /\
  (corrected (mkDecoded (1 :: repeat 0 15)%Z false 0) = false ->
   exists i, (i < 32)%nat /\ polyEval (1 :: repeat 0 47)%Z (gfPow 2 (Z.of_nat i)) <> 0).
Proof.
  apply (rsDecode_result_shape (1 :: repeat 0 47)%Z 32 (mkDecoded (1 :: repeat 0 15)%Z false 0)).
  - cbn. lia.
  - vm_compute. reflexivity.
Defined.

(** ** Identifiers as UUID strings *)

(** X16: 16 bytes print as the canonical 36-character UUID, with dashes
    at positions 8, 13, 18 and 23, and [uuidToBytes] reads the bytes
    back. *)
Theorem bytesToUuid_canonical :
  forall K : list Z,
    length K = 16%nat -> Forall isByte K ->
    String.length (bytesToUuid K) = 36%nat /\
    String.get 8 (bytesToUuid K) = Some "-"%char /\
    String.get 13 (bytesToUuid K) = Some "-"%char /\
    String.get 18 (bytesToUuid K) = Some "-"%char /\
    String.get 23 (bytesToUuid K) = Some "-"%char /\
    uuidToBytes (bytesToUuid K) = K.
Proof.
  intros K Hlen HK.
  assert (Hrt : uuidToBytes (bytesToUuid K) = K) by (apply uuid_roundtrip; assumption).
  do 16 (destruct K as [| ? K]; [discriminate Hlen |]).
  destruct K; [| discriminate Hlen]. clear Hlen.
  repeat match goal with
         | H : Forall _ (_ :: _) |- _ => inversion H as [| ? ? ? ?]; subst; clear H
         end.
  repeat split; try exact Hrt; clear Hrt;
    unfold bytesToUuid; cbn [map];
    rewrite !byte_hex by assumption;
    repeat match goal with
           | |- context [hexDigit ?x] => generalize (hexDigit x); intro
           end;
    reflexivity.
Qed.

Lemma bytesToUuid_canonical_witness :
  String.length (bytesToUuid (map Z.of_nat (seq 0 16))) = 36%nat /\
  String.get 8 (bytesToUuid (map Z.of_nat (seq 0 16))) = Some "-"%char /\
  String.get 13 (bytesToUuid (map Z.of_nat (seq 0 16))) = Some "-"%char /\
  String.get 18 (bytesToUuid (map Z.of_nat (seq 0 16))) = Some "-"%char /\
  String.get 23 (bytesToUuid (map Z.of_nat (seq 0 16))) = Some "-"%char /\
  uuidToBytes (bytesToUuid (map Z.of_nat (seq 0 16))) = map Z.of_nat (seq 0 16).
Proof.
  apply (bytesToUuid_canonical (map Z.of_nat (seq 0 16))).
  - reflexivity.
  - repeat constructor; discriminate.
Defined.

Lemma removeDashes_idempotent : forall s, removeDashes (removeDashes s) = removeDashes s.
Proof.
  induction s as [| c s IH]; [reflexivity |].
  cbn [removeDashes]. destruct (Ascii.eqb c "-") eqn:E; [exact IH |].
  cbn [removeDashes]. rewrite E, IH. reflexivity.
Qed.

(** X17: [uuidToBytes] is total: any string gives 16 bytes in range
    (a pair of characters that is no hexadecimal number reads as 0),
    and dashes are ignored wherever they stand. *)
Theorem uuidToBytes_total :
  forall s : string,
    length (uuidToBytes s) = 16%nat /\
    Forall isByte (uuidToBytes s) /\
    uuidToBytes (removeDashes s) = uuidToBytes s /\
    uuidToBytes EmptyString = zeros 16.
Proof.
  intros s.
  split; [apply uuidToBytes_length |].
  split; [apply uuidToBytes_bytes |].
  split; [| reflexivity].
  unfold uuidToBytes. rewrite removeDashes_idempotent. reflexivity.
Qed.

(** ** The pseudo-random generator of the carriers *)

Lemma lxor_below_pow2 :
  forall a b n, 0 <= n -> 0 <= a < 2 ^ n -> 0 <= b < 2 ^ n -> 0 <= Z.lxor a b < 2 ^ n.
Proof.
  intros a b n Hn Ha Hb.
  assert (Hnn : 0 <= Z.lxor a b) by (apply Z.lxor_nonneg; lia).
  split; [exact Hnn |].
  destruct (Z.eq_dec (Z.lxor a b) 0) as [E | Hne]; [rewrite E; apply Z.pow_pos_nonneg; lia |].
  apply Z.log2_lt_pow2; [lia |].
  pose proof (Z.log2_lxor a b ltac:(lia) ltac:(lia)) as Hl.
  assert (Hla : a = 0 \/ Z.log2 a < n).
  { destruct (Z.eq_dec a 0); [left; assumption | right; apply Z.log2_lt_pow2; lia]. }
  assert (Hlb : b = 0 \/ Z.log2 b < n).
  { destruct (Z.eq_dec b 0); [left; assumption | right; apply Z.log2_lt_pow2; lia]. }
  assert (H0 : Z.log2 0 = 0) by reflexivity.
  destruct Hla as [-> | Hla], Hlb as [-> | Hlb].
  - rewrite Z.lxor_0_l in Hne. contradiction.
  - rewrite Z.lxor_0_l. exact Hlb.
  - rewrite Z.lxor_0_r. exact Hla.
  - lia.
Qed.

(** A power of two that divides an odd multiple of [x] divides [x]. *)
Lemma odd_multiple_of_pow2 :
  forall (k : nat) (a x q : Z),
    (2 * a + 1) * x = 2 ^ Z.of_nat k * q -> exists q', x = 2 ^ Z.of_nat k * q'.
Proof.
  induction k as [| k IH]; intros a x q H.
  - exists x. change (2 ^ Z.of_nat 0) with 1. lia.
  - replace (Z.of_nat (S k)) with (1 + Z.of_nat k) in * by lia.
    rewrite Z.pow_add_r in * by lia. change (2 ^ 1) with 2 in *.
    pose proof (Z.div_mod x 2 ltac:(lia)) as Hx.
    pose proof (Z.mod_pos_bound x 2 ltac:(lia)) as Hr.
    assert (Hr0 : x mod 2 = 0).
    { assert (Hpar : (x mod 2) = 2 * (2 ^ Z.of_nat k * q - (2 * a + 1) * (x / 2) - a * (x mod 2))) by nia.
      lia. }
    destruct (IH a (x / 2) q) as [q' Hq']; [nia |].
    exists q'. lia.
Qed.

(** [x ^= x << s] in 64-bit arithmetic keeps a non-zero value
    non-zero: [2^s - 1] is odd. *)
Lemma xorshift_left_nonzero :
  forall x s, 0 < s < 64 -> 0 < x < Native.two64 ->
    0 < Z.lxor x (Z.shiftl x s mod Native.two64) < Native.two64.
Proof.
  intros x s Hs Hx. unfold Native.two64 in *.
  assert (Hy : 0 <= Z.shiftl x s mod 2 ^ 64 < 2 ^ 64) by (apply Z.mod_pos_bound; lia).
  pose proof (lxor_below_pow2 x _ 64 ltac:(lia) ltac:(lia) Hy) as Hr.
  split; [| lia].
  destruct (Z.eq_dec (Z.lxor x (Z.shiftl x s mod 2 ^ 64)) 0) as [E | Hne]; [| lia].
  exfalso. apply Z.lxor_eq in E.
  rewrite Z.shiftl_mul_pow2 in E by lia.
  pose proof (Z.div_mod (x * 2 ^ s) (2 ^ 64) ltac:(lia)) as Hdm.
  rewrite <- E in Hdm.
  assert (Hs1 : 2 ^ s = 2 * 2 ^ (s - 1)).
  { replace s with (1 + (s - 1)) at 1 by lia. rewrite Z.pow_add_r by lia. reflexivity. }
  destruct (odd_multiple_of_pow2 64 (2 ^ (s - 1) - 1) x (x * 2 ^ s / 2 ^ 64)) as [q Hq].
  { change (2 ^ Z.of_nat 64) with (2 ^ 64). lia. }
  change (2 ^ Z.of_nat 64) with (2 ^ 64) in Hq.
  assert (q = 0 \/ 1 <= q \/ q <= -1) as [-> | [Hq1 | Hq1]] by lia; nia.
Qed.

Lemma xorshift_right_nonzero :
  forall x s, 0 < s -> 0 < x < Native.two64 ->
    0 < Z.lxor x (Z.shiftr x s) < Native.two64.
Proof.
  intros x s Hs Hx. unfold Native.two64 in *.
  rewrite Z.shiftr_div_pow2 by lia.
  assert (Hp : 2 <= 2 ^ s).
  { replace s with (1 + (s - 1)) by lia. rewrite Z.pow_add_r by lia.
    pose proof (Z.pow_pos_nonneg 2 (s - 1)). change (2 ^ 1) with 2. lia. }
  assert (Hy : 0 <= x / 2 ^ s < x).
  { split; [apply Z.div_pos; lia | apply Z.div_lt; lia]. }
  pose proof (lxor_below_pow2 x (x / 2 ^ s) 64 ltac:(lia) ltac:(lia) ltac:(lia)) as Hr.
  split; [| lia].
  destruct (Z.eq_dec (Z.lxor x (x / 2 ^ s)) 0) as [E | Hne]; [| lia].
  apply Z.lxor_eq in E. lia.
Qed.

(** X18: the generator never leaves the non-zero 64-bit values: the
    constructor replaces a zero seed, and [next] maps a non-zero state
    to a non-zero state. *)
Theorem xorshift_state_never_zero :
  forall s : Z,
    0 <= s < Native.two64 ->
    0 < Native.XorShift64.init s < Native.two64 /\
    (0 < s -> 0 < Native.XorShift64.next s < Native.two64).
Proof.
  intros s Hs. split.
  - unfold Native.XorShift64.init, Native.two64 in *.
    destruct (Z.eqb_spec s 0); [split; reflexivity | lia].
  - intros Hpos. unfold Native.XorShift64.next. cbv zeta.
    apply xorshift_left_nonzero; [lia |].
    apply xorshift_right_nonzero; [lia |].
    apply xorshift_left_nonzero; [lia |]. lia.
Qed.

Lemma xorshift_state_never_zero_witness :
  0 < Native.XorShift64.init 1 < Native.two64 /\
  (0 < 1 -> 0 < Native.XorShift64.next 1 < Native.two64).
Proof.
  apply (xorshift_state_never_zero 1). unfold Native.two64. lia.
Defined.

(** ** The embedder: errors and extra channels *)

(** X19: errors of [embedWatermark]: an exception of [readWav] is
    passed on with its message; a file whose sample rate or channel
    count differs from the options as the native code reads them (the
    low 32 bits; by default 44100 Hz and 2 channels) raises "Unexpected
    WAV format", whether or not the output can be opened; and with an
    output path that cannot be opened no call returns normally: a call
    that returns when every path can be opened raises "Failed to open
    output WAV file". *)
Theorem embedWatermark_errors :
  forall (FO : FloatOps) (readWav : string -> result Native.WavData)
         (canOpen : string -> bool)
         (inputPath outputPath : string) (bitstream : list Z)
         (options : Addon.EmbedOptions),
    (forall msg, readWav inputPath = Throw msg ->
                 Addon.embedWatermark readWav canOpen inputPath outputPath bitstream options
                 = Native.Raised msg) /\
    (forall wav, readWav inputPath = Ok wav ->
                 Native.sampleRate wav
                 <> Native.int32Value (Addon.orDefault (Addon.sampleRate options) 44100) \/
                 Native.channels wav
                 <> Native.int32Value (Addon.orDefault (Addon.channels options) 2) ->
                 Addon.embedWatermark readWav canOpen inputPath outputPath bitstream options
                 = Native.Raised "Unexpected WAV format") /\
    (canOpen outputPath = false ->
     (forall r,
         Addon.embedWatermark readWav canOpen inputPath outputPath bitstream options
         <> Native.Done r) /\
     (forall r,
         Addon.embedWatermark readWav (fun _ => true) inputPath outputPath bitstream options
         = Native.Done r ->
         Addon.embedWatermark readWav canOpen inputPath outputPath bitstream options
         = Native.Raised "Failed to open output WAV file")).
Proof.
  intros. split; [| split].
  - intros msg E. unfold Addon.embedWatermark. rewrite E. reflexivity.
  - intros wav E Hbad. unfold Addon.embedWatermark. rewrite E.
    unfold Native.EmbedWatermark. cbn [Addon.nativeOptions Native.oSampleRate Native.oChannels].
    assert (Hf : (Native.sampleRate wav
                  =? Native.int32Value (Addon.orDefault (Addon.sampleRate options) 44100))
                 && (Native.channels wav
                     =? Native.int32Value (Addon.orDefault (Addon.channels options) 2))
                 = false).
    { destruct Hbad as [H | H]; apply Z.eqb_neq in H; rewrite H;
        [reflexivity | apply andb_false_r]. }
    rewrite Hf. reflexivity.
  - intros Hclosed. unfold Addon.embedWatermark.
    destruct (readWav inputPath) as [wav | msg]; [| split; intros r; discriminate].
    destruct (Native.EmbedWatermark wav bitstream (Addon.nativeOptions options))
      as [out | msg |]; try (split; intros r; discriminate).
    rewrite Hclosed. split; intros r; [discriminate | reflexivity].
Qed.

Section ExtraChannels.

Context {FO : FloatOps}.

Import Native.

(** The native embedder on a buffer of three or more channels. *)
Lemma native_embed_extra_channels :
  forall (wav : WavData) (bitBuffer : list Z) (options : Options) (total ch : nat),
    channels wav = Z.of_nat ch ->
    (3 <= ch)%nat ->
    length (samples wav) = (total * ch)%nat ->
    sampleRate wav = oSampleRate options ->
    channels wav = oChannels options ->
    1 <= oHopSize options ->
    oHopSize options * 4 <= int_max ->
    bitBuffer <> [] ->
    exists out,
      EmbedWatermark wav bitBuffer options = Done out /\
      sampleRate out = sampleRate wav /\
      channels out = channels wav /\
      length (samples out) = length (samples wav) /\
      forall c i,
        (2 <= c < ch)%nat -> (i < total)%nat ->
        nth (c + i * ch) (samples out) f32_zero = f32_zero.
Proof.
  intros wav bitBuffer options total ch Hch Hmany Hlen Hrate Hchan Hhop Hmax Hbits.
  unfold EmbedWatermark.
  rewrite <- Hrate, <- Hchan, !Z.eqb_refl. cbn [andb negb].
  rewrite Hch.
  destruct (Z.leb_spec (Z.of_nat ch) 0) as [Hbad | _]; [lia |].
  rewrite Nat2Z.id, Hlen.
  rewrite (strideInBounds_exact total ch 0) by lia.
  rewrite (strideInBounds_exact total ch 1) by lia.
  rewrite orb_true_r. cbn [andb negb].
  unfold int_max in Hmax |- *.
  destruct (Z.leb_spec (- (2 ^ 31 - 1) - 1) (oHopSize options * 4)) as [_ | Hbad]; [| lia].
  destruct (Z.leb_spec (oHopSize options * 4) (2 ^ 31 - 1)) as [_ | Hbad]; [| lia].
  cbn [andb negb].
  destruct (Z.ltb_spec (oHopSize options * 4) 0) as [Hbad | _]; [lia |].
  destruct (Z.eqb_spec (oHopSize options * 4) 0) as [Hbad | _]; [lia |].
  destruct (Nat.eqb_spec (length bitBuffer) 0) as [Hbad | _].
  { destruct bitBuffer; [contradiction | discriminate Hbad]. }
  cbn [orb].
  destruct (Z.ltb_spec 1 (Z.of_nat ch)) as [_ | Hbad]; [| lia].
  set (spb := Z.to_nat (oHopSize options * 4)).
  destruct (getChannelSamples_nth (samples wav) total ch 0 Hlen) as (HlenL & _); [lia |].
  destruct (getChannelSamples_nth (samples wav) total ch 1 Hlen) as (HlenR & _); [lia |].
  set (left_ := getChannelSamples (samples wav) ch 0) in *.
  set (right_ := getChannelSamples (samples wav) ch 1) in *.
  rewrite HlenL.
  match goal with
  | |- context [embedLoop _ ?step _ _ _ _ _] =>
      destruct (embedLoop_tail spb total step) with (fuel := S total) (k := 0%nat)
                                                    (bitIndex := 0%nat) (l := left_) (r := right_)
        as (l' & r' & E & Hl' & Hr' & _)
  end.
  { unfold spb. lia. }
  { apply embedBlock_touchesOnly. }
  { assert (1 <= spb)%nat by (unfold spb; lia). cbn [Nat.mul]. nia. }
  cbn [Nat.mul] in E. rewrite E.
  eexists. split; [reflexivity |]. cbn [sampleRate channels samples].
  split; [reflexivity |]. split; [reflexivity |].
  unfold writeChannelSamples. rewrite !repeat_length.
  rewrite (strideCount_exact total ch 0) by lia.
  destruct (fold_upd_stride f32 (fun i => nth i l' f32_zero) f32_zero
                            ch 0 total (repeat f32_zero (total * ch)))
    as (Hw1 & Hn1); [lia | rewrite repeat_length; lia |].
  set (w1 := fold_left (fun acc i => upd (0 + i * ch) (nth i l' f32_zero) acc)
                       (seq 0 total) (repeat f32_zero (total * ch))) in *.
  rewrite repeat_length in Hw1.
  rewrite Hw1. rewrite (strideCount_exact total ch 1) by lia.
  destruct (fold_upd_stride f32 (fun i => nth i r' f32_zero) f32_zero ch 1 total w1)
    as (Hw2 & Hn2); [lia | lia |].
  split; [rewrite Hw2; exact Hw1 |].
  intros c i Hc Hi.
  rewrite Hn2 by lia.
  destruct (Nat.eqb_spec c 1); [lia |]. cbn [andb].
  rewrite Hn1 by lia.
  destruct (Nat.eqb_spec c 0); [lia |]. cbn [andb].
  apply nth_repeat_lt.
  assert (S i * ch <= total * ch)%nat by (apply Nat.mul_le_mono_r; lia).
  cbn [Nat.mul] in H. lia.
Qed.

End ExtraChannels.

(** X20: on a buffer of three or more channels whose header agrees with
    the options, and an output path that can be opened,
    [embedWatermark] returns and writes an output of the same shape in
    which every sample of the channels from the third on is zero: only
    the first two channels are written back. *)
Theorem embedWatermark_zeroes_extra_channels :
  forall (FO : FloatOps) (readWav : string -> result Native.WavData)
         (canOpen : string -> bool)
         (inputPath outputPath : string) (bitstream : list Z)
         (options : Addon.EmbedOptions) (wav : Native.WavData)
         (total ch samplesPerBit : nat),
    readWav inputPath = Ok wav ->
    Native.channels wav = Z.of_nat ch ->
    (3 <= ch)%nat ->
    length (Native.samples wav) = (total * ch)%nat ->
    Native.sampleRate wav
    = Native.int32Value (Addon.orDefault (Addon.sampleRate options) 44100) ->
    Native.channels wav = Native.int32Value (Addon.orDefault (Addon.channels options) 2) ->
    Native.int32Value (Addon.orDefault (Addon.hopSize options) 1024) * 4
    = Z.of_nat samplesPerBit ->
    (1 <= samplesPerBit)%nat ->
    Z.of_nat samplesPerBit <= Native.int_max ->
    bitstream <> [] ->
    canOpen outputPath = true ->
    exists out,
      Addon.embedWatermark readWav canOpen inputPath outputPath bitstream options
      = Native.Done (outputPath, out) /\
      Native.sampleRate out = Native.sampleRate wav /\
      Native.channels out = Native.channels wav /\
      length (Native.samples out) = length (Native.samples wav) /\
      forall c i,
        (2 <= c < ch)%nat -> (i < total)%nat ->
        nth (i * ch + c) (Native.samples out) f32_zero = f32_zero.
Proof.
  intros FO readWav canOpen inputPath outputPath bitstream options wav total ch spb
         Hread Hch Hmany Hlen Hrate Hchan Hspb Hpos Hmax Hbits Hopen.
  unfold Addon.embedWatermark. rewrite Hread.
  destruct (native_embed_extra_channels wav bitstream (Addon.nativeOptions options) total ch)
    as (out & E & Hr & Hc & Hl & Hzero); try assumption.
  - cbn [Addon.nativeOptions Native.oHopSize]. lia.
  - cbn [Addon.nativeOptions Native.oHopSize]. lia.
  - rewrite E, Hopen. exists out. repeat (split; [assumption || reflexivity |]).
    intros c i Hci Hi. rewrite (Nat.add_comm (i * ch) c). apply Hzero; assumption.
Qed.

Lemma embedWatermark_zeroes_extra_channels_witness :
  exists out,
    Addon.embedWatermark (FO := IntFloat) (fun _ => Ok sampleWav3) (fun _ => true)
                         "in.wav" "out.wav" [1] sampleOptions3
    = Native.Done ("out.wav"%string, out) /\
    nth 2 (Native.samples out) 0 = 0 /\
    nth 5 (Native.samples out) 0 = 0.
Proof.
  destruct (embedWatermark_zeroes_extra_channels IntFloat (fun _ => Ok sampleWav3)
              (fun _ => true) "in.wav" "out.wav" [1] sampleOptions3 sampleWav3 2 3 4)
    as (out & E & _ & _ & _ & Hzero);
    try reflexivity; try lia; try discriminate.
  exists out. split; [exact E |]. split.
  - apply (Hzero 2%nat 0%nat); lia.
  - apply (Hzero 2%nat 1%nat); lia.
Defined.

Lemma embedWatermark_errors_witness :
  Addon.embedWatermark (FO := IntFloat) (fun _ => Ok sampleWav3) (fun _ => false)
                       "in.wav" "out.wav" [1] sampleOptions
  = Native.Raised "Unexpected WAV format" /\
  Addon.embedWatermark (FO := IntFloat) (fun _ => Ok sampleWav) (fun _ => false)
                       "in.wav" "out.wav" [1] sampleOptions
  = Native.Raised "Failed to open output WAV file".
Proof.
  split.
  - apply (proj1 (proj2 (embedWatermark_errors IntFloat (fun _ => Ok sampleWav3)
                           (fun _ => false) "in.wav" "out.wav" [1] sampleOptions))
                 sampleWav3).
    + reflexivity.
    + right. cbn. discriminate.
  - destruct (Addon.embedWatermark (FO := IntFloat) (fun _ => Ok sampleWav) (fun _ => true)
                                   "in.wav" "out.wav" [1] sampleOptions)
      as [r | msg |] eqn:E.
    + apply (proj2 (proj2 (proj2 (embedWatermark_errors IntFloat (fun _ => Ok sampleWav)
                                    (fun _ => false) "in.wav" "out.wav" [1] sampleOptions))
                          eq_refl) r).
      exact E.
    + vm_compute in E. discriminate E.
    + vm_compute in E. discriminate E.
Defined.

(** ** The embedder: one increment for both channels *)

Section SameIncrement.

Context {FO : FloatOps}.

Import Native.

(** The sample loop of a block: both vectors get [D i] added at index
    [blockStart + i]. *)
Lemma pair_fold_window :
  forall (D : nat -> f32) (bs k : nat) (l r : list f32),
    (bs + k <= length l)%nat -> (bs + k <= length r)%nat ->
    let '(l', r') :=
      fold_left
        (fun '(l0, r0) i =>
           (upd (bs + i) (f32_add (nth (bs + i) l0 f32_zero) (D i)) l0,
            upd (bs + i) (f32_add (nth (bs + i) r0 f32_zero) (D i)) r0))
        (seq 0 k) (l, r) in
    length l' = length l /\ length r' = length r /\
    (forall i, (i < k)%nat ->
               nth (bs + i) l' f32_zero = f32_add (nth (bs + i) l f32_zero) (D i) /\
               nth (bs + i) r' f32_zero = f32_add (nth (bs + i) r f32_zero) (D i)) /\
    (forall j, (j < bs \/ bs + k <= j)%nat ->
               nth j l' f32_zero = nth j l f32_zero /\ nth j r' f32_zero = nth j r f32_zero).
Proof.
  intros D bs k l r. induction k as [| k IH]; intros Hl Hr.
  - cbn [seq fold_left]. repeat split; intros; lia.
  - rewrite fold_seq_S. cbn [Nat.add].
    specialize (IH ltac:(lia) ltac:(lia)).
    destruct (fold_left _ (seq 0 k) (l, r)) as [l1 r1].
    destruct IH as (Hl1 & Hr1 & Hin & Hout).
    split; [rewrite upd_length; exact Hl1 |].
    split; [rewrite upd_length; exact Hr1 |].
    split.
    + intros i Hi. destruct (Nat.eq_dec i k) as [-> | Hne].
      * rewrite !upd_nth_same by lia.
        destruct (Hout (bs + k)%nat) as [E1 E2]; [lia |].
        rewrite E1, E2. split; reflexivity.
      * rewrite !upd_nth_other by lia. apply Hin. lia.
    + intros j Hj. rewrite !upd_nth_other by lia. apply Hout. lia.
Qed.

Lemma embedBlock_addsSameIncrement :
  forall strength pnSequences bitstream removeBits spb,
    addsSameIncrement spb (embedBlock strength pnSequences bitstream removeBits spb).
Proof.
  intros strength pnSequences bitstream removeBits spb blockStart bitIndex l r Hl Hr.
  unfold embedBlock.
  match goal with
  | |- context [fold_left ?F (seq 0 spb) (l, r)] => set (body := F)
  end.
  assert (HD : exists D : nat -> f32,
             forall (lr : list f32 * list f32) (i : nat),
               body lr i
               = (let '(l0, r0) := lr in
                  (upd (blockStart + i)
                       (f32_add (nth (blockStart + i) l0 f32_zero) (D i)) l0,
                   upd (blockStart + i)
                       (f32_add (nth (blockStart + i) r0 f32_zero) (D i)) r0))).
  { eexists. intros [l0 r0] i. unfold body. cbv zeta. reflexivity. }
  destruct HD as (D & HD).
  pose proof (pair_fold_window D blockStart spb l r Hl Hr) as H.
  assert (E : fold_left body (seq 0 spb) (l, r)
              = fold_left
                  (fun '(l0, r0) i =>
                     (upd (blockStart + i)
                          (f32_add (nth (blockStart + i) l0 f32_zero) (D i)) l0,
                      upd (blockStart + i)
                          (f32_add (nth (blockStart + i) r0 f32_zero) (D i)) r0))
                  (seq 0 spb) (l, r)).
  { apply fold_left_ext. intros lr i. rewrite HD. destruct lr; reflexivity. }
  rewrite E. destruct (fold_left _ (seq 0 spb) (l, r)) as [l' r'].
  destruct H as (_ & _ & Hin & _). exists D. exact Hin.
Qed.

(** The block loop: every sample of a whole block not yet passed gets
    an increment added, the same on both sides, and the samples before
    stay as they are. *)
Lemma embedLoop_increments :
  forall spb total step,
    (1 <= spb)%nat -> touchesOnly spb step -> addsSameIncrement spb step ->
    forall fuel k bitIndex l r,
      length l = total -> length r = total ->
      (total < k * spb + fuel * spb)%nat ->
      exists l' r' (delta : nat -> f32),
        embedLoop fuel step spb total (k * spb) bitIndex (l, r) = Some (l', r') /\
        length l' = total /\ length r' = total /\
        (forall j, (j < k * spb)%nat ->
                   nth j l' f32_zero = nth j l f32_zero /\
                   nth j r' f32_zero = nth j r f32_zero) /\
        (forall j, (k * spb <= j < total / spb * spb)%nat ->
                   nth j l' f32_zero = f32_add (nth j l f32_zero) (delta j) /\
                   nth j r' f32_zero = f32_add (nth j r f32_zero) (delta j)).
Proof.
  intros spb total step Hspb Htouch Hadd.
  induction fuel as [| fuel IH]; intros k bitIndex l r Hl Hr Hfuel.
  - cbn [embedLoop].
    destruct (Nat.leb_spec (k * spb + spb) total); [lia |].
    exists l, r, (fun _ => f32_zero).
    split; [reflexivity |]. split; [exact Hl |]. split; [exact Hr |].
    split; [intros j Hj; split; reflexivity |].
    intros j Hj. exfalso.
    assert (total / spb * spb <= total)%nat
      by (rewrite Nat.mul_comm; apply Nat.Div0.mul_div_le).
    lia.
  - cbn [embedLoop].
    destruct (Nat.leb_spec (k * spb + spb) total) as [Hle | Hgt].
    + pose proof (Htouch (k * spb)%nat bitIndex l r) as Ht.
      pose proof (Hadd (k * spb)%nat bitIndex l r ltac:(lia) ltac:(lia)) as Ha.
      destruct (step (k * spb)%nat bitIndex (l, r)) as [l1 r1].
      destruct Ht as (Hl1 & Hr1 & Hn1). destruct Ha as (D & HD).
      destruct (IH (S k) (S bitIndex) l1 r1) as (l' & r' & delta & E & Hl' & Hr' & Hkeep & Hinc).
      { lia. } { lia. }
      { cbn [Nat.mul]. cbn [Nat.mul] in Hfuel. lia. }
      replace (k * spb + spb)%nat with (S k * spb)%nat by (cbn [Nat.mul]; lia).
      exists l', r', (fun j => if (j <? S k * spb)%nat then D (j - k * spb)%nat else delta j).
      split; [exact E |]. split; [exact Hl' |]. split; [exact Hr' |]. split.
      * intros j Hj. destruct (Hkeep j) as [E1 E2]; [cbn [Nat.mul]; lia |].
        rewrite E1, E2. apply Hn1. left. exact Hj.
      * intros j Hj. destruct (Nat.ltb_spec j (S k * spb)) as [Hin | Hafter].
        -- destruct (Hkeep j Hin) as [E1 E2]. rewrite E1, E2.
           specialize (HD (j - k * spb)%nat).
           replace (k * spb + (j - k * spb))%nat with j in HD by lia.
           apply HD. cbn [Nat.mul] in Hin. lia.
        -- destruct (Hinc j) as [E1 E2]; [lia |]. rewrite E1, E2.
           destruct (Hn1 j) as [F1 F2]; [right; cbn [Nat.mul] in Hafter; lia |].
           rewrite F1, F2. split; reflexivity.
    + exists l, r, (fun _ => f32_zero).
      split; [reflexivity |]. split; [exact Hl |]. split; [exact Hr |].
      split; [intros j Hj; split; reflexivity |].
      intros j Hj. exfalso.
      assert (Hq : (total / spb < S k)%nat).
      { apply Nat.Div0.div_lt_upper_bound. cbn [Nat.mul]. lia. }
      assert (total / spb * spb <= k * spb)%nat by (apply Nat.mul_le_mono_r; lia).
      lia.
Qed.

(** The native embedder on whole frames of at least one channel. *)
Lemma native_embed_same_increment :
  forall (wav : WavData) (bitBuffer : list Z) (options : Options) (total ch : nat),
    channels wav = Z.of_nat ch ->
    (1 <= ch)%nat ->
    length (samples wav) = (total * ch)%nat ->
    sampleRate wav = oSampleRate options ->
    channels wav = oChannels options ->
    1 <= oHopSize options ->
    oHopSize options * 4 <= int_max ->
    bitBuffer <> [] ->
    exists out (delta : nat -> f32),
      EmbedWatermark wav bitBuffer options = Done out /\
      forall c i,
        (c < Nat.min ch 2)%nat ->
        (i < total / Z.to_nat (oHopSize options * 4) * Z.to_nat (oHopSize options * 4))%nat ->
        nth (c + i * ch) (samples out) f32_zero
        = f32_add (nth (c + i * ch) (samples wav) f32_zero) (delta i).
Proof.
  intros wav bitBuffer options total ch Hch Hone Hlen Hrate Hchan Hhop Hmax Hbits.
  unfold EmbedWatermark.
  rewrite <- Hrate, <- Hchan, !Z.eqb_refl. cbn [andb negb].
  rewrite Hch.
  destruct (Z.leb_spec (Z.of_nat ch) 0) as [Hbad | _]; [lia |].
  rewrite Nat2Z.id, Hlen.
  rewrite (strideInBounds_exact total ch 0) by lia.
  assert (Hsecond : ((Z.of_nat ch <=? 1) || strideInBounds (total * ch) ch 1) = true).
  { destruct (Z.leb_spec (Z.of_nat ch) 1); [reflexivity |].
    rewrite (strideInBounds_exact total ch 1) by lia. reflexivity. }
  rewrite Hsecond. cbn [andb negb].
  unfold int_max in Hmax |- *.
  destruct (Z.leb_spec (- (2 ^ 31 - 1) - 1) (oHopSize options * 4)) as [_ | Hbad]; [| lia].
  destruct (Z.leb_spec (oHopSize options * 4) (2 ^ 31 - 1)) as [_ | Hbad]; [| lia].
  cbn [andb negb].
  destruct (Z.ltb_spec (oHopSize options * 4) 0) as [Hbad | _]; [lia |].
  destruct (Z.eqb_spec (oHopSize options * 4) 0) as [Hbad | _]; [lia |].
  destruct (Nat.eqb_spec (length bitBuffer) 0) as [Hbad | _].
  { destruct bitBuffer; [contradiction | discriminate Hbad]. }
  cbn [orb].
  set (spb := Z.to_nat (oHopSize options * 4)).
  destruct (getChannelSamples_nth (samples wav) total ch 0 Hlen) as (HlenL & HnthL); [lia |].
  set (left_ := getChannelSamples (samples wav) ch 0) in *.
  set (right_ := if 1 <? Z.of_nat ch then getChannelSamples (samples wav) ch 1 else left_).
  assert (HR : length right_ = total /\
               ((2 <= ch)%nat -> forall i, (i < total)%nat ->
                  nth i right_ f32_zero = nth (1 + i * ch) (samples wav) f32_zero)).
  { unfold right_. destruct (Z.ltb_spec 1 (Z.of_nat ch)) as [Hst | Hmono].
    - destruct (getChannelSamples_nth (samples wav) total ch 1 Hlen) as (Hl & Hn); [lia |].
      split; [exact Hl | intros _; exact Hn].
    - split; [exact HlenL | intros Hbad; lia]. }
  destruct HR as (HlenR & HnthR).
  rewrite HlenL.
  match goal with
  | |- context [embedLoop _ ?step _ _ _ _ _] =>
      destruct (embedLoop_increments spb total step) with (fuel := S total) (k := 0%nat)
                                                          (bitIndex := 0%nat) (l := left_) (r := right_)
        as (l' & r' & delta & E & Hl' & Hr' & _ & Hinc)
  end.
  { unfold spb. lia. }
  { apply embedBlock_touchesOnly. }
  { apply embedBlock_addsSameIncrement. }
  { exact HlenL. } { exact HlenR. }
  { assert (1 <= spb)%nat by (unfold spb; lia). cbn [Nat.mul]. nia. }
  cbn [Nat.mul] in E. rewrite E.
  eexists. exists delta. split; [reflexivity |]. cbn [samples].
  assert (Hwhole : (total / spb * spb <= total)%nat)
    by (rewrite Nat.mul_comm; apply Nat.Div0.mul_div_le).
  unfold writeChannelSamples. rewrite !repeat_length.
  rewrite (strideCount_exact total ch 0) by lia.
  destruct (fold_upd_stride f32 (fun i => nth i l' f32_zero) f32_zero
                            ch 0 total (repeat f32_zero (total * ch)))
    as (Hw1 & Hn1); [lia | rewrite repeat_length; lia |].
  set (w1 := fold_left (fun acc i => upd (0 + i * ch) (nth i l' f32_zero) acc)
                       (seq 0 total) (repeat f32_zero (total * ch))) in *.
  rewrite repeat_length in Hw1.
  intros c i Hc Hi.
  destruct (Hinc i) as [Einc1 Einc2]; [cbn [Nat.mul]; lia |].
  destruct (Z.ltb_spec 1 (Z.of_nat ch)) as [Hst | Hmono].
  - rewrite Hw1. rewrite (strideCount_exact total ch 1) by lia.
    destruct (fold_upd_stride f32 (fun i => nth i r' f32_zero) f32_zero ch 1 total w1)
      as (Hw2 & Hn2); [lia | lia |].
    rewrite Hn2 by lia.
    destruct (Nat.ltb_spec i total); [| lia].
    assert (c = 0 \/ c = 1)%nat as [-> | ->] by lia.
    + cbn [Nat.eqb andb]. rewrite Hn1 by lia. cbn [Nat.eqb andb].
      destruct (Nat.ltb_spec i total); [| lia].
      rewrite Einc1. f_equal. apply HnthL. lia.
    + cbn [Nat.eqb andb]. rewrite Einc2. f_equal. apply HnthR; lia.
  - assert (c = 0%nat) by lia. subst c.
    rewrite Hn1 by lia. cbn [Nat.eqb andb].
    destruct (Nat.ltb_spec i total); [| lia].
    rewrite Einc1. f_equal. apply HnthL. lia.
Qed.

End SameIncrement.

(** X21: with an output path that can be opened, what
    [embedWatermark] writes to the first two channels inside the whole
    blocks is the input sample plus an increment that is the same for
    the left and the right sample of a frame. *)
Theorem embedWatermark_same_increment :
  forall (FO : FloatOps) (readWav : string -> result Native.WavData)
         (canOpen : string -> bool)
         (inputPath outputPath : string) (bitstream : list Z)
         (options : Addon.EmbedOptions) (wav : Native.WavData)
         (total ch samplesPerBit : nat),
    readWav inputPath = Ok wav ->
    Native.channels wav = Z.of_nat ch ->
    (1 <= ch)%nat ->
    length (Native.samples wav) = (total * ch)%nat ->
    Native.sampleRate wav
    = Native.int32Value (Addon.orDefault (Addon.sampleRate options) 44100) ->
    Native.channels wav = Native.int32Value (Addon.orDefault (Addon.channels options) 2) ->
    Native.int32Value (Addon.orDefault (Addon.hopSize options) 1024) * 4
    = Z.of_nat samplesPerBit ->
    (1 <= samplesPerBit)%nat ->
    Z.of_nat samplesPerBit <= Native.int_max ->
    bitstream <> [] ->
    canOpen outputPath = true ->
    exists out (delta : nat -> f32),
      Addon.embedWatermark readWav canOpen inputPath outputPath bitstream options
      = Native.Done (outputPath, out) /\
      forall c i,
        (c < Nat.min ch 2)%nat ->
        (i < total / samplesPerBit * samplesPerBit)%nat ->
        nth (i * ch + c) (Native.samples out) f32_zero
        = f32_add (nth (i * ch + c) (Native.samples wav) f32_zero) (delta i).
Proof.
  intros FO readWav canOpen inputPath outputPath bitstream options wav total ch spb
         Hread Hch Hone Hlen Hrate Hchan Hspb Hpos Hmax Hbits Hopen.
  unfold Addon.embedWatermark. rewrite Hread.
  destruct (native_embed_same_increment wav bitstream (Addon.nativeOptions options) total ch)
    as (out & delta & E & Hinc); try assumption.
  - cbn [Addon.nativeOptions Native.oHopSize]. lia.
  - cbn [Addon.nativeOptions Native.oHopSize]. lia.
  - rewrite E, Hopen. exists out, delta. split; [reflexivity |].
    intros c i Hci Hi. rewrite (Nat.add_comm (i * ch) c). apply Hinc; [exact Hci |].
    cbn [Addon.nativeOptions Native.oHopSize]. rewrite Hspb, Nat2Z.id. exact Hi.
Qed.

Lemma embedWatermark_same_increment_witness :
  exists out (delta : nat -> Z),
    Addon.embedWatermark (FO := IntFloat) (fun _ => Ok sampleWav) (fun _ => true)
                         "in.wav" "out.wav" [1] sampleOptions
    = Native.Done ("out.wav"%string, out) /\
    nth 0 (Native.samples out) 0 = 10 + delta 0%nat /\
    nth 1 (Native.samples out) 0 = 11 + delta 0%nat.
Proof.
  destruct (embedWatermark_same_increment IntFloat (fun _ => Ok sampleWav) (fun _ => true)
              "in.wav" "out.wav" [1] sampleOptions sampleWav 5 2 4)
    as (out & delta & E & Hinc);
    try reflexivity; try lia; try discriminate.
  exists out, delta. split; [exact E |]. split.
  - apply (Hinc 0%nat 0%nat); cbn; lia.
  - apply (Hinc 1%nat 0%nat); cbn; lia.
Defined.

(** ** The extractor: one correlation per whole block *)

Section ExtractorProperties.

Context {FO : FloatOps} {FA : FloatAbs FO}.

Import Native NativeExtract.

(** The block loop ends and pushes one correlation per whole block
    still ahead. *)
Lemma extractLoop_count :
  forall spb total block,
    (1 <= spb)%nat ->
    forall fuel k bitIndex correlations confidenceSum bitsAnalyzed,
      (total < k * spb + fuel * spb)%nat ->
      (k <= total / spb)%nat ->
      exists correlations' confidenceSum',
        extractLoop fuel block spb total (k * spb) bitIndex
                    (correlations, confidenceSum, bitsAnalyzed)
        = Some (correlations', confidenceSum', (bitsAnalyzed + (total / spb - k))%nat) /\
        length correlations' = (length correlations + (total / spb - k))%nat.
Proof.
  intros spb total block Hspb.
  assert (Hwhole : (total / spb * spb <= total)%nat)
    by (rewrite Nat.mul_comm; apply Nat.Div0.mul_div_le).
  assert (Hnext : (total < S (total / spb) * spb)%nat).
  { pose proof (Nat.div_mod_eq total spb). pose proof (Nat.mod_upper_bound total spb).
    cbn [Nat.mul]. lia. }
  induction fuel as [| fuel IH]; intros k bitIndex cs sum n Hfuel Hk.
  - cbn [extractLoop].
    destruct (Nat.leb_spec (k * spb + spb) total); [lia |].
    assert (k = total / spb)%nat.
    { destruct (Nat.eq_dec k (total / spb)) as [E | Hne]; [exact E |].
      assert (S k <= total / spb)%nat by lia.
      assert (S k * spb <= total / spb * spb)%nat by (apply Nat.mul_le_mono_r; lia).
      cbn [Nat.mul] in *. lia. }
    subst k. rewrite Nat.sub_diag, !Nat.add_0_r. exists cs, sum. split; reflexivity.
  - cbn [extractLoop].
    destruct (Nat.leb_spec (k * spb + spb) total) as [Hle | Hgt].
    + destruct (block (k * spb)%nat bitIndex) as [c conf].
      assert (Hk' : (S k <= total / spb)%nat).
      { apply Nat.div_le_lower_bound; [lia |]. cbn [Nat.mul]. lia. }
      destruct (IH (S k) (S bitIndex) (cs ++ [c]) (f64_add sum conf) (S n))
        as (cs' & sum' & E & Hlen).
      { cbn [Nat.mul]. cbn [Nat.mul] in Hfuel. lia. }
      { exact Hk'. }
      replace (k * spb + spb)%nat with (S k * spb)%nat by (cbn [Nat.mul]; lia).
      exists cs', sum'. split.
      * rewrite E. f_equal. f_equal. lia.
      * rewrite Hlen, length_app. cbn [length]. lia.
    + assert (k = total / spb)%nat.
      { destruct (Nat.eq_dec k (total / spb)) as [E | Hne]; [exact E |].
        assert (S k <= total / spb)%nat by lia.
        assert (S k * spb <= total / spb * spb)%nat by (apply Nat.mul_le_mono_r; lia).
        cbn [Nat.mul] in *. lia. }
      subst k. rewrite Nat.sub_diag, !Nat.add_0_r. exists cs, sum. split; reflexivity.
Qed.

(** The native extractor on whole frames of at least one channel. *)
Lemma native_extract_shape :
  forall (wav : WavData) (options : Options) (total ch : nat),
    channels wav = Z.of_nat ch ->
    (1 <= ch)%nat ->
    length (samples wav) = (total * ch)%nat ->
    sampleRate wav = oSampleRate options ->
    channels wav = oChannels options ->
    1 <= oHopSize options ->
    oHopSize options * 4 <= int_max ->
    exists x,
      ExtractWatermark wav options = Done x /\
      length (xCorrelations x) = (total / Z.to_nat (oHopSize options * 4))%nat /\
      length (xBitstream x) = (total / Z.to_nat (oHopSize options * 4))%nat /\
      xBlocksAnalyzed x = f64_of_Z (Z.of_nat (total / Z.to_nat (oHopSize options * 4))).
Proof.
  intros wav options total ch Hch Hone Hlen Hrate Hchan Hhop Hmax.
  unfold ExtractWatermark.
  rewrite <- Hrate, <- Hchan, !Z.eqb_refl. cbn [andb negb].
  rewrite Hch.
  destruct (Z.leb_spec (Z.of_nat ch) 0) as [Hbad | _]; [lia |].
  rewrite Nat2Z.id, Hlen.
  rewrite (strideInBounds_exact total ch 0) by lia.
  assert (Hsecond : ((Z.of_nat ch <=? 1) || strideInBounds (total * ch) ch 1) = true).
  { destruct (Z.leb_spec (Z.of_nat ch) 1); [reflexivity |].
    rewrite (strideInBounds_exact total ch 1) by lia. reflexivity. }
  rewrite Hsecond. cbn [andb negb].
  unfold int_max in Hmax |- *.
  destruct (Z.leb_spec (- (2 ^ 31 - 1) - 1) (oHopSize options * 4)) as [_ | Hbad]; [| lia].
  destruct (Z.leb_spec (oHopSize options * 4) (2 ^ 31 - 1)) as [_ | Hbad]; [| lia].
  cbn [andb negb].
  destruct (Z.ltb_spec (oHopSize options * 4) 0) as [Hbad | _]; [lia |].
  destruct (Z.eqb_spec (oHopSize options * 4) 0) as [Hbad | _]; [lia |].
  set (spb := Z.to_nat (oHopSize options * 4)).
  destruct (getChannelSamples_nth (samples wav) total ch 0 Hlen) as (HlenL & _); [lia |].
  rewrite HlenL.
  match goal with
  | |- context [extractLoop _ ?block _ _ _ _ _] =>
      destruct (extractLoop_count spb total block) with
        (fuel := S total) (k := 0%nat) (bitIndex := 0%nat)
        (correlations := @nil f32) (confidenceSum := f64_dec 0 0) (bitsAnalyzed := 0%nat)
        as (cs & sum & E & Hcs)
  end.
  { unfold spb. lia. }
  { assert (1 <= spb)%nat by (unfold spb; lia). cbn [Nat.mul]. nia. }
  { lia. }
  cbn [Nat.mul] in E. rewrite E.
  eexists. split; [reflexivity |].
  cbn [xCorrelations xBitstream xBlocksAnalyzed length] in *.
  rewrite length_map, Hcs, Nat.sub_0_r. repeat split.
Qed.

(** What every returned object satisfies. *)
Lemma native_extract_bits :
  forall (wav : WavData) (options : Options) (x : Extracted),
    ExtractWatermark wav options = Done x ->
    xBitstream x = map signBit (xCorrelations x) /\
    xBandAgreement x = f64_dec 1 0.
Proof.
  intros wav options x. unfold ExtractWatermark.
  repeat match goal with
         | |- context [if ?b then _ else _] => destruct b
         end;
    try discriminate;
    (destruct (extractLoop _ _ _ _ _ _ _) as [[[cs sum] n] |]; [| discriminate]);
    intros E; inversion E; subst; cbn [xBitstream xCorrelations xBandAgreement];
    split; reflexivity.
Qed.

End ExtractorProperties.

(** X22: on whole frames of at least one channel whose header agrees
    with the options, [extractWatermark] returns one correlation and
    one bit per whole block of [4 * hopSize] frames, and reports that
    number as [blocksAnalyzed]. *)
Theorem extractWatermark_one_value_per_block :
  forall (FO : FloatOps) (FA : FloatAbs FO) (readWav : string -> result Native.WavData)
         (inputPath : string) (options : Addon.EmbedOptions) (wav : Native.WavData)
         (total ch samplesPerBit : nat),
    readWav inputPath = Ok wav ->
    Native.channels wav = Z.of_nat ch ->
    (1 <= ch)%nat ->
    length (Native.samples wav) = (total * ch)%nat ->
    Native.sampleRate wav
    = Native.int32Value (Addon.orDefault (Addon.sampleRate options) 44100) ->
    Native.channels wav = Native.int32Value (Addon.orDefault (Addon.channels options) 2) ->
    Native.int32Value (Addon.orDefault (Addon.hopSize options) 1024) * 4
    = Z.of_nat samplesPerBit ->
    (1 <= samplesPerBit)%nat ->
    Z.of_nat samplesPerBit <= Native.int_max ->
    exists x,
      NativeExtract.extractWatermark readWav inputPath options = Native.Done x /\
      length (Engine.correlations x) = (total / samplesPerBit)%nat /\
      length (Engine.bitstream x) = (total / samplesPerBit)%nat /\
      Engine.blocksAnalyzed x = f64_of_Z (Z.of_nat (total / samplesPerBit)).
Proof.
  intros FO FA readWav inputPath options wav total ch spb
         Hread Hch Hone Hlen Hrate Hchan Hspb Hpos Hmax.
  unfold NativeExtract.extractWatermark. rewrite Hread.
  match goal with
  | |- context [NativeExtract.ExtractWatermark wav ?o] =>
      destruct (native_extract_shape wav o total ch) as (x & E & Hc & Hb & Hn)
  end; try assumption.
  - cbn [Native.oHopSize]. lia.
  - cbn [Native.oHopSize]. lia.
  - rewrite E. eexists. split; [reflexivity |].
    cbn [Engine.correlations Engine.bitstream Engine.blocksAnalyzed].
    cbn [Native.oHopSize] in Hc, Hb, Hn. rewrite Hspb, Nat2Z.id in Hc, Hb, Hn.
    repeat split; assumption.
Qed.

Lemma extractWatermark_one_value_per_block_witness :
  exists x,
    NativeExtract.extractWatermark (FO := IntFloat) (fun _ => Ok sampleWav) "in.wav"
                                   sampleOptions = Native.Done x /\
    length (Engine.correlations x) = 1%nat.
Proof.
  destruct (extractWatermark_one_value_per_block IntFloat IntAbs (fun _ => Ok sampleWav)
              "in.wav" sampleOptions sampleWav 5 2 4)
    as (x & E & Hc & _);
    try reflexivity; try lia; try discriminate.
  exists x. split; [exact E | exact Hc].
Defined.

(** X23: every object returned by [extractWatermark] has
    [bandAgreement = 1.0] and a bitstream that is the sign of its
    correlations ([1] where the correlation is greater than 0); so for
    a recording of fewer than 928 blocks the voted bitstream that
    [detect] parses is the bitstream of the extractor. *)
Theorem extractWatermark_bits_are_signs :
  forall (FO : FloatOps) (FA : FloatAbs FO) (readWav : string -> result Native.WavData)
         (inputPath : string) (options : Addon.EmbedOptions) (x : Engine.ExtractResult),
    NativeExtract.extractWatermark readWav inputPath options = Native.Done x ->
    Engine.bitstream x = map signBit (Engine.correlations x) /\
    Engine.bandAgreement x = f64_dec 1 0 /\
    ((length (Engine.correlations x) < 928)%nat ->
     applySoftMajorityVoting (Engine.correlations x) = Engine.bitstream x).
Proof.
  intros FO FA readWav inputPath options x. unfold NativeExtract.extractWatermark.
  destruct (readWav inputPath) as [wav | msg]; [| discriminate].
  destruct (NativeExtract.ExtractWatermark wav _) as [y | msg |] eqn:E; try discriminate.
  intros Ex. inversion Ex; subst. clear Ex.
  cbn [Engine.bitstream Engine.correlations Engine.bandAgreement].
  destruct (native_extract_bits wav _ y E) as (Hb & Ha).
  split; [exact Hb |]. split; [exact Ha |].
  intros Hshort. unfold applySoftMajorityVoting.
  assert (Hrep : (length (NativeExtract.xCorrelations y) / period < 2)%nat).
  { apply Nat.Div0.div_lt_upper_bound. unfold period. cbn. lia. }
  destruct (Nat.ltb_spec (length (NativeExtract.xCorrelations y) / period) 2); [| lia].
  symmetry. exact Hb.
Qed.

Lemma extractWatermark_bits_are_signs_witness :
  exists x,
    NativeExtract.extractWatermark (FO := IntFloat) (fun _ => Ok sampleWav) "in.wav"
                                   sampleOptions = Native.Done x /\
    applySoftMajorityVoting (Engine.correlations x) = Engine.bitstream x.
Proof.
  assert (H : exists x,
             NativeExtract.extractWatermark (FO := IntFloat) (fun _ => Ok sampleWav) "in.wav"
                                            sampleOptions = Native.Done x /\
             (length (Engine.correlations x) < 928)%nat).
  { eexists. split; [lazy; reflexivity | cbn; lia]. }
  destruct H as (x & E & Hshort).
  exists x. split; [exact E |].
  apply (extractWatermark_bits_are_signs IntFloat IntAbs (fun _ => Ok sampleWav)
           "in.wav" sampleOptions x E).
  exact Hshort.
Defined.

(** ** Options without effect *)

(** X24: options that are passed to the native code and never used
    there: [blockSize] and [rotationSeconds] in [embedWatermark],
    [embedStrength] and [blockSize] in [extractWatermark].  Two option
    records that differ only in these give the same outcome. *)
Theorem unused_options_have_no_effect :
  forall (FO : FloatOps) (FA : FloatAbs FO) (readWav : string -> result Native.WavData)
         (canOpen : string -> bool)
         (inputPath outputPath : string) (bitstream : list Z)
         (options : Addon.EmbedOptions)
         (b1 b2 : option Z) (r1 r2 s1 s2 : option f64),
    Addon.embedWatermark readWav canOpen inputPath outputPath bitstream
                         (withBlockSizeRotation options b1 r1)
    = Addon.embedWatermark readWav canOpen inputPath outputPath bitstream
                           (withBlockSizeRotation options b2 r2) /\
    NativeExtract.extractWatermark readWav inputPath (withStrengthBlockSize options s1 b1)
    = NativeExtract.extractWatermark readWav inputPath (withStrengthBlockSize options s2 b2).
Proof.
  intros. split.
  - unfold Addon.embedWatermark.
    destruct (readWav inputPath) as [wav | msg]; reflexivity.
  - unfold NativeExtract.extractWatermark.
    destruct (readWav inputPath) as [wav | msg]; reflexivity.
Qed.

(** ** WAV files: what is written reads back *)

Lemma toLe_length : forall n v, length (Wav.toLe n v) = n.
Proof. intros n v. unfold Wav.toLe. rewrite length_map, length_seq. reflexivity. Qed.

Lemma le_toLe_2 : forall v, 0 <= v < 2 ^ 16 -> Wav.le (Wav.toLe 2 v) = v.
Proof.
  intros v Hv. unfold Wav.toLe, Wav.le. cbn [seq map fold_right Z.of_nat Pos.of_succ_nat Pos.succ].
  change (256 ^ 0) with 1. change (256 ^ 1) with 256.
  change (2 ^ 16) with 65536 in Hv.
  rewrite Z.div_1_r.
  pose proof (Z.div_mod v 256 ltac:(lia)).
  pose proof (Z.mod_pos_bound v 256 ltac:(lia)).
  assert (0 <= v / 256 < 256) by (split; [apply Z.div_pos; lia | apply Z.div_lt_upper_bound; lia]).
  rewrite (Z.mod_small (v / 256)) by lia. lia.
Qed.

Lemma le_toLe_4 : forall v, 0 <= v < 2 ^ 32 -> Wav.le (Wav.toLe 4 v) = v.
Proof.
  intros v Hv. unfold Wav.toLe, Wav.le. cbn [seq map fold_right Z.of_nat Pos.of_succ_nat Pos.succ].
  change (256 ^ 0) with 1. change (256 ^ 1) with 256.
  change (256 ^ 2) with (256 * 256). change (256 ^ 3) with (256 * 256 * 256).
  change (2 ^ 32) with (256 * 256 * 256 * 256) in Hv.
  rewrite Z.div_1_r.
  rewrite <- !Z.div_div by lia.
  set (a := v / 256). set (b := a / 256). set (c := b / 256).
  pose proof (Z.div_mod v 256 ltac:(lia)). fold a in H.
  pose proof (Z.div_mod a 256 ltac:(lia)). fold b in H0.
  pose proof (Z.div_mod b 256 ltac:(lia)). fold c in H1.
  pose proof (Z.mod_pos_bound v 256 ltac:(lia)).
  pose proof (Z.mod_pos_bound a 256 ltac:(lia)).
  pose proof (Z.mod_pos_bound b 256 ltac:(lia)).
  assert (0 <= c < 256) by lia.
  rewrite (Z.mod_small c) by lia. lia.
Qed.

Lemma floats_of_samples :
  forall samples : list Z,
    Forall (fun w => 0 <= w < 2 ^ 32) samples ->
    Wav.floats (flat_map (Wav.toLe 4) samples) = samples.
Proof.
  induction samples as [| w ws IH]; intros H; [reflexivity |].
  inversion H; subst. cbn [flat_map].
  pose proof (le_toLe_4 w ltac:(assumption)) as E.
  unfold Wav.toLe in *. cbn [seq map app] in *. cbn [Wav.floats].
  rewrite E. f_equal. apply IH. assumption.
Qed.

Lemma samples_bytes_length :
  forall samples : list Z, length (flat_map (Wav.toLe 4) samples) = (4 * length samples)%nat.
Proof.
  intros samples. rewrite (flat_map_const_length _ _ _ 4) by (intros a; apply toLe_length). lia.
Qed.

Lemma findData_unfold :
  forall fuel file pos,
    Wav.findData fuel file pos
    = Wav.obind (Wav.readExact file pos 8) (fun '(dataHeader, pos) =>
        if Wav.bytesEqb (Wav.field dataHeader 0 4) (Wav.tag "data")
        then Native.Done (Wav.le (Wav.field dataHeader 4 4), pos)
        else
          match fuel with
          | O => Native.Undef
          | S fuel' =>
              Wav.findData fuel' file (pos + Z.to_nat (Wav.le (Wav.field dataHeader 4 4)))%nat
          end).
Proof. intros [| fuel] file pos; reflexivity. Qed.

Lemma skipn_app_exact :
  forall (A : Type) (pre rest : list A) (n : nat),
    n = length pre -> skipn n (pre ++ rest) = rest.
Proof.
  intros A pre rest n ->. rewrite skipn_app, skipn_all, Nat.sub_diag. reflexivity.
Qed.

(** Reading the middle part of a file. *)
Lemma readExact_part :
  forall pre mid post : list Z,
    mid <> [] ->
    Wav.readExact (pre ++ mid ++ post) (length pre) (length mid)
    = Native.Done (mid, (length pre + length mid)%nat).
Proof.
  intros pre mid post Hne. unfold Wav.readExact.
  destruct (Nat.eqb_spec (length mid) 0) as [E | _].
  { destruct mid; [contradiction | discriminate E]. }
  rewrite !length_app.
  destruct (Nat.leb_spec (length pre + length mid) (length pre + (length mid + length post)));
    [| lia].
  rewrite skipn_app, skipn_all, Nat.sub_diag, skipn_O. cbn [app].
  rewrite firstn_app, firstn_all, Nat.sub_diag, firstn_O, app_nil_r. reflexivity.
Qed.

(** X25: a buffer written by [writeWav] is a 44-byte header followed by
    four bytes per sample, and [readWav] gives the buffer back, for a
    sample rate below [2^31], a channel count below [2^16] and less than
    [2^30] samples. *)
Theorem readWav_writeWav :
  forall data : Wav.WavData,
    0 <= Wav.sampleRate data < 2 ^ 31 ->
    0 <= Wav.channels data < 2 ^ 16 ->
    Forall (fun w => 0 <= w < 2 ^ 32) (Wav.samples data) ->
    Z.of_nat (length (Wav.samples data)) < 2 ^ 30 ->
    exists file,
      Wav.writeWav true data = Ok file /\
      length file = (44 + 4 * length (Wav.samples data))%nat /\
      Wav.readWav (Some file) = Native.Done data.
Proof.
  intros [sr ch samples] Hsr Hch Hs Hn. cbn [Wav.sampleRate Wav.channels Wav.samples] in *.
  unfold Wav.writeWav. cbn [negb Wav.sampleRate Wav.channels Wav.samples]. cbv zeta.
  assert (Hds : (Z.of_nat (length samples) * 4) mod 2 ^ 32 = Z.of_nat (4 * length samples)).
  { rewrite Z.mod_small; [lia |]. change (2 ^ 32) with (4 * 2 ^ 30). lia. }
  rewrite Hds.
  rewrite (Z.mod_small ch) by lia.
  rewrite (Z.mod_small sr) by (change (2 ^ 32) with (2 * 2 ^ 31); lia).
  rewrite Nat2Z.id.
  rewrite <- (samples_bytes_length samples), firstn_all.
  set (body := flat_map (Wav.toLe 4) samples).
  assert (Hbody : length body = (4 * length samples)%nat) by apply samples_bytes_length.
  match goal with
  | |- exists file, Ok (?a ++ ?b ++ ?c ++ body) = Ok file /\ _ =>
      set (h1 := a); set (h2 := b); set (h3 := c)
  end.
  assert (L1 : length h1 = 12%nat) by reflexivity.
  assert (L2 : length h2 = 24%nat) by reflexivity.
  assert (L3 : length h3 = 8%nat) by reflexivity.
  eexists. split; [reflexivity |].
  split; [rewrite !length_app, L1, L2, L3, Hbody; lia |].
  unfold Wav.readWav.
  change (Wav.readExact (h1 ++ h2 ++ h3 ++ body) 0 12)
    with (Wav.readExact ([] ++ h1 ++ (h2 ++ h3 ++ body)) (length (@nil Z)) (length h1)).
  rewrite readExact_part by discriminate.
  cbn [Wav.obind length Nat.add app].
  replace (Wav.bytesEqb (Wav.field h1 0 4) (Wav.tag "RIFF")) with true by reflexivity.
  replace (Wav.bytesEqb (Wav.field h1 8 4) (Wav.tag "WAVE")) with true by reflexivity.
  cbn [andb negb].
  change (Wav.readExact (h1 ++ h2 ++ h3 ++ body) 12 24)
    with (Wav.readExact (h1 ++ h2 ++ (h3 ++ body)) (length h1) (length h2)).
  rewrite readExact_part by discriminate.
  cbn [Wav.obind].
  replace (Wav.bytesEqb (Wav.field h2 0 4) (Wav.tag "fmt ")) with true by reflexivity.
  cbn [negb].
  replace (Wav.le (Wav.field h2 4 4)) with 16 by reflexivity.
  replace (Wav.le (Wav.field h2 8 2)) with 3 by reflexivity.
  replace (Wav.le (Wav.field h2 22 2)) with 32 by reflexivity.
  cbn [Z.ltb Z.eqb Z.compare Pos.compare Pos.compare_cont Pos.eqb andb negb].
  rewrite L1, L2. cbn [Nat.add].
  rewrite findData_unfold.
  change (Wav.readExact (h1 ++ h2 ++ h3 ++ body) 36 8)
    with (Wav.readExact (h1 ++ h2 ++ h3 ++ body) (length (h1 ++ h2)) (length h3)).
  rewrite (app_assoc h1 h2), readExact_part by discriminate.
  cbn [Wav.obind].
  replace (Wav.bytesEqb (Wav.field h3 0 4) (Wav.tag "data")) with true by reflexivity.
  change (Wav.field h3 4 4) with (Wav.toLe 4 (Z.of_nat (length body))).
  rewrite le_toLe_4 by (rewrite Hbody; change (2 ^ 32) with (4 * 2 ^ 30); lia).
  change (length (h1 ++ h2) + length h3)%nat with 44%nat.
  cbn [Wav.obind]. rewrite Nat2Z.id.
  assert (Hfile : length ((h1 ++ h2) ++ h3 ++ body) = (44 + 4 * length samples)%nat)
    by (rewrite !length_app, L1, L2, L3, Hbody; lia).
  rewrite Hfile, Hbody.
  replace (44 + 4 * length samples - 44)%nat with (4 * length samples)%nat by lia.
  rewrite Nat.min_id.
  replace (4 * length samples / 4)%nat with (length samples)
    by (rewrite Nat.mul_comm, Nat.div_mul by lia; reflexivity).
  destruct (Nat.ltb_spec (length samples * 4) (4 * length samples)); [lia |].
  destruct (Nat.ltb_spec (4 * length samples) (4 * length samples)); [lia |].
  f_equal.
  change (Wav.field h2 12 4) with (Wav.toLe 4 sr).
  change (Wav.field h2 10 2) with (Wav.toLe 2 ch).
  rewrite le_toLe_4 by (change (2 ^ 32) with (2 * 2 ^ 31); lia).
  rewrite le_toLe_2 by lia.
  unfold Wav.toInt32. destruct (Z.ltb_spec sr (2 ^ 31)); [| lia].
  f_equal.
  replace (skipn 44 ((h1 ++ h2) ++ h3 ++ body)) with body.
  2: { rewrite <- app_assoc, (app_assoc h1 h2), (app_assoc (h1 ++ h2) h3).
       symmetry. apply skipn_app_exact. reflexivity. }
  rewrite <- Hbody, firstn_all. apply floats_of_samples. exact Hs.
Qed.

Lemma readWav_writeWav_witness :
  exists file,
    Wav.writeWav true sampleFloatWav = Ok file /\
    length file = (44 + 4 * length (Wav.samples sampleFloatWav))%nat /\
    Wav.readWav (Some file) = Native.Done sampleFloatWav.
Proof.
  apply (readWav_writeWav sampleFloatWav).
  - cbn. lia.
  - cbn. lia.
  - repeat (apply Forall_cons; [cbn; lia |]). apply Forall_nil.
  - cbn. lia.
Defined.

(** ** WAV files: what is refused *)

Lemma bytesEqb_eq : forall a b, Wav.bytesEqb a b = true <-> a = b.
Proof.
  induction a as [| x a IH]; intros [| y b]; cbn [Wav.bytesEqb]; split; intros H;
    try reflexivity; try discriminate.
  - apply andb_prop in H. destruct H as [Hx Hab]. apply Z.eqb_eq in Hx.
    apply IH in Hab. subst. reflexivity.
  - inversion H; subst. rewrite Z.eqb_refl. cbn [andb]. apply IH. reflexivity.
Qed.

Lemma readExact_result :
  forall file pos size,
    (exists bytes, Wav.readExact file pos size = Native.Done (bytes, (pos + size)%nat) /\
                   bytes = firstn size (skipn pos file) /\
                   (size = 0 \/ pos + size <= length file)%nat) \/
    (Wav.readExact file pos size = Native.Raised "Unexpected EOF" /\
     (length file < pos + size)%nat).
Proof.
  intros file pos size. unfold Wav.readExact.
  destruct (Nat.eqb_spec size 0) as [-> | Hne].
  - left. exists []. rewrite Nat.add_0_r. repeat split. left. reflexivity.
  - destruct (Nat.leb_spec (pos + size) (length file)).
    + left. eexists. repeat split. right. assumption.
    + right. split; [reflexivity | assumption].
Qed.

(** X26: what [readWav] refuses: a path that cannot be opened; any file
    of fewer than 44 bytes; and a file with the three identifiers in
    place whose format is not 3 (IEEE float) on 32 bits, with the
    message "Only 32-bit float WAV supported". *)
Theorem readWav_refusals :
  Wav.readWav None = Native.Raised "Failed to open WAV file" /\
  (forall file : list Z,
      (length file < 44)%nat -> exists msg, Wav.readWav (Some file) = Native.Raised msg) /\
  (forall file : list Z,
      (36 <= length file)%nat ->
      Wav.field file 0 4 = Wav.tag "RIFF" ->
      Wav.field file 8 4 = Wav.tag "WAVE" ->
      Wav.field file 12 4 = Wav.tag "fmt " ->
      Wav.le (Wav.field file 20 2) <> 3 \/ Wav.le (Wav.field file 34 2) <> 32 ->
      Wav.readWav (Some file) = Native.Raised "Only 32-bit float WAV supported").
Proof.
  split; [reflexivity |]. split.
  - intros file Hshort. unfold Wav.readWav.
    destruct (readExact_result file 0 12) as [(riff & -> & _ & Hr) | (-> & _)];
      [| eexists; reflexivity].
    cbn [Wav.obind].
    destruct (negb _); [eexists; reflexivity |].
    destruct (readExact_result file (0 + 12) 24) as [(fmt & -> & _ & Hf) | (-> & _)];
      [| eexists; reflexivity].
    cbn [Wav.obind].
    destruct (negb _); [eexists; reflexivity |].
    destruct (negb _); [eexists; reflexivity |].
    rewrite findData_unfold.
    match goal with
    | |- context [Wav.readExact file ?p 8] =>
        destruct (readExact_result file p 8) as [(hdr & _ & _ & Hd) | (-> & _)];
          [exfalso; destruct (16 <? _); lia | eexists; reflexivity]
    end.
  - intros file Hlen Hriff Hwave Hfmt Hbad. unfold Wav.readWav.
    destruct (readExact_result file 0 12) as [(riff & -> & Eriff & _) | (_ & Hr)]; [| lia].
    cbn [Wav.obind].
    assert (F1 : forall off len, (off + len <= 12)%nat ->
                                 Wav.field riff off len = Wav.field file off len).
    { intros off len Hol. subst riff. unfold Wav.field. cbn [skipn].
      rewrite skipn_firstn_comm, firstn_firstn. f_equal. lia. }
    rewrite (F1 0%nat 4%nat), (F1 8%nat 4%nat) by lia.
    rewrite Hriff, Hwave.
    replace (Wav.bytesEqb (Wav.tag "RIFF") (Wav.tag "RIFF")) with true by reflexivity.
    replace (Wav.bytesEqb (Wav.tag "WAVE") (Wav.tag "WAVE")) with true by reflexivity.
    cbn [andb negb].
    destruct (readExact_result file (0 + 12) 24) as [(fmt & -> & Efmt & _) | (_ & Hr)]; [| lia].
    cbn [Wav.obind].
    assert (F2 : forall off len, (off + len <= 24)%nat ->
                                 Wav.field fmt off len = Wav.field file (12 + off) len).
    { intros off len Hol. subst fmt. unfold Wav.field.
      rewrite skipn_firstn_comm, firstn_firstn, skipn_skipn.
      f_equal; [lia | f_equal; lia]. }
    rewrite (F2 0%nat 4%nat), (F2 8%nat 2%nat), (F2 22%nat 2%nat) by lia.
    cbn [Nat.add]. rewrite Hfmt.
    replace (Wav.bytesEqb (Wav.tag "fmt ") (Wav.tag "fmt ")) with true by reflexivity.
    cbn [negb].
    assert (Hf : (Wav.le (Wav.field file 20 2) =? 3) && (Wav.le (Wav.field file 34 2) =? 32)
                 = false).
    { destruct Hbad as [H | H]; apply Z.eqb_neq in H; rewrite H;
        [reflexivity | apply andb_false_r]. }
    rewrite Hf. reflexivity.
Qed.

Lemma readWav_refusals_witness :
  Wav.readWav (Some pcm16Header) = Native.Raised "Only 32-bit float WAV supported".
Proof.
  apply (proj2 (proj2 readWav_refusals) pcm16Header).
  - cbn. lia.
  - reflexivity.
  - reflexivity.
  - reflexivity.
  - left. discriminate.
Defined.

(** ** WAV files: chunks before the data chunk are skipped *)

Lemma readExact_in_prefix :
  forall (pre post : list Z) (pos size : nat),
    (size <> 0)%nat -> (pos + size <= length pre)%nat ->
    Wav.readExact (pre ++ post) pos size
    = Native.Done (firstn size (skipn pos pre), (pos + size)%nat).
Proof.
  intros pre post pos size Hne Hfit. unfold Wav.readExact.
  destruct (Nat.eqb_spec size 0); [contradiction |].
  rewrite length_app.
  destruct (Nat.leb_spec (pos + size) (length pre + length post)); [| lia].
  rewrite skipn_app, firstn_app, length_skipn.
  replace (size - (length pre - pos))%nat with 0%nat by lia.
  rewrite firstn_O, app_nil_r. reflexivity.
Qed.

Lemma skipn_past_insert :
  forall (A : Type) (pre ins post : list A) (pos : nat),
    (length pre <= pos)%nat ->
    skipn (pos + length ins) (pre ++ ins ++ post) = skipn pos (pre ++ post).
Proof.
  intros A pre ins post pos Hpos.
  rewrite !skipn_app.
  rewrite !(skipn_all2 pre) by lia.
  rewrite (skipn_all2 ins) by lia. cbn [app].
  f_equal. lia.
Qed.

(** The search does not depend on fuel it does not use. *)
Lemma findData_fuel :
  forall file fuel fuel' pos,
    (length file - pos <= fuel)%nat -> (length file - pos <= fuel')%nat ->
    Wav.findData fuel file pos = Wav.findData fuel' file pos.
Proof.
  intros file fuel. induction fuel as [| fuel IH]; intros fuel' pos Hf Hf'.
  - rewrite !findData_unfold.
    destruct (readExact_result file pos 8) as [(hdr & -> & _ & Hd) | (-> & _)];
      [lia | reflexivity].
  - rewrite !findData_unfold.
    destruct (readExact_result file pos 8) as [(hdr & -> & _ & Hd) | (-> & _)];
      [| reflexivity].
    cbn [Wav.obind]. destruct (Wav.bytesEqb _ _); [reflexivity |].
    destruct fuel' as [| fuel']; [lia |].
    apply IH; lia.
Qed.

(** A search that starts behind an inserted part finds what it finds
    without it, that much further. *)
Lemma findData_shift :
  forall (pre ins post : list Z) (fuel pos : nat),
    (length pre <= pos)%nat ->
    Wav.findData fuel (pre ++ ins ++ post) (pos + length ins)
    = shiftPos (length ins) (Wav.findData fuel (pre ++ post) pos).
Proof.
  intros pre ins post fuel. induction fuel as [| fuel IH]; intros pos Hpos;
    rewrite !findData_unfold; unfold Wav.readExact; cbn [Nat.eqb];
    rewrite !length_app, skipn_past_insert by exact Hpos;
    (destruct (Nat.leb_spec (pos + length ins + 8) (length pre + (length ins + length post)));
     destruct (Nat.leb_spec (pos + 8) (length pre + length post)); try lia;
     [| reflexivity]);
    cbn [Wav.obind];
    (destruct (Wav.bytesEqb _ _);
     [cbn [shiftPos]; f_equal; f_equal; lia |]).
  - reflexivity.
  - match goal with
    | |- Wav.findData fuel _ ?p = _ =>
        match goal with
        | |- _ = shiftPos _ (Wav.findData fuel _ ?q) =>
            replace p with (q + length ins)%nat by lia
        end
    end.
    apply IH. lia.
Qed.

(** A first chunk that is not the data chunk costs one turn. *)
Lemma findData_skip_first :
  forall (pre hdr8 post : list Z) (fuel : nat),
    length hdr8 = 8%nat ->
    Wav.bytesEqb (Wav.field hdr8 0 4) (Wav.tag "data") = false ->
    Wav.findData (S fuel) (pre ++ hdr8 ++ post) (length pre)
    = Wav.findData fuel (pre ++ hdr8 ++ post)
                   (length pre + 8 + Z.to_nat (Wav.le (Wav.field hdr8 4 4)))%nat.
Proof.
  intros pre hdr8 post fuel H8 Hid.
  rewrite findData_unfold. rewrite <- H8 at 1.
  rewrite readExact_part by (intros E; rewrite E in H8; discriminate H8).
  cbn [Wav.obind]. rewrite Hid, H8. reflexivity.
Qed.

Lemma findData_position :
  forall file fuel pos size p,
    Wav.findData fuel file pos = Native.Done (size, p) -> (pos + 8 <= p)%nat.
Proof.
  intros file fuel. induction fuel as [| fuel IH]; intros pos size p;
    rewrite findData_unfold;
    (destruct (readExact_result file pos 8) as [(hdr & -> & _ & Hd) | (-> & _)];
     [| discriminate]);
    cbn [Wav.obind]; (destruct (Wav.bytesEqb _ _); [intros E; inversion E; lia |]).
  - discriminate.
  - intros E. apply IH in E. lia.
Qed.

(** X27: a chunk whose identifier is not "data", standing between the
    format chunk and the rest of the file, is skipped: the file reads
    like the file without it. *)
Theorem readWav_skips_chunk :
  forall header id payload rest : list Z,
    length header = 36%nat ->
    Wav.le (Wav.field header 16 4) <= 16 ->
    length id = 4%nat ->
    id <> Wav.tag "data" ->
    Z.of_nat (length payload) < 2 ^ 32 ->
    Wav.readWav (Some (header ++ (id ++ Wav.toLe 4 (Z.of_nat (length payload)) ++ payload)
                              ++ rest))
    = Wav.readWav (Some (header ++ rest)).
Proof.
  intros header id payload rest Hh Hsize Hid Hne Hp.
  set (chunk := id ++ Wav.toLe 4 (Z.of_nat (length payload)) ++ payload).
  assert (Hchunk : length chunk = (8 + length payload)%nat).
  { unfold chunk. rewrite !length_app, toLe_length, Hid. lia. }
  unfold Wav.readWav.
  rewrite !(readExact_in_prefix header) by lia.
  cbn [Wav.obind].
  destruct (negb _); [reflexivity |].
  rewrite !(readExact_in_prefix header) by lia.
  cbn [Wav.obind].
  destruct (negb _); [reflexivity |].
  assert (F : Wav.field (firstn 24 (skipn (0 + 12) header)) 4 4 = Wav.field header 16 4).
  { unfold Wav.field. rewrite skipn_firstn_comm, firstn_firstn, skipn_skipn. reflexivity. }
  rewrite F.
  destruct (Z.ltb_spec 16 (Wav.le (Wav.field header 16 4))) as [Hbad | _]; [lia |].
  destruct (negb _); [reflexivity |].
  replace (0 + 12 + 24)%nat with (length header) by (rewrite Hh; reflexivity).
  set (hdr8 := id ++ Wav.toLe 4 (Z.of_nat (length payload))).
  assert (Hhdr8 : length hdr8 = 8%nat)
    by (unfold hdr8; rewrite length_app, toLe_length, Hid; reflexivity).
  assert (Hsplit : header ++ chunk ++ rest = header ++ hdr8 ++ (payload ++ rest))
    by (unfold chunk, hdr8; rewrite <- !app_assoc; reflexivity).
  assert (Eid : Wav.field hdr8 0 4 = id).
  { unfold Wav.field, hdr8. rewrite skipn_O, firstn_app, Hid, Nat.sub_diag, firstn_O, app_nil_r.
    apply firstn_all2. lia. }
  assert (Esz : Wav.field hdr8 4 4 = Wav.toLe 4 (Z.of_nat (length payload))).
  { unfold Wav.field, hdr8. rewrite skipn_app, Hid, Nat.sub_diag, skipn_O.
    rewrite (skipn_all2 id) by lia. rewrite app_nil_l.
    apply firstn_all2. rewrite toLe_length. lia. }
  assert (Hfind : Wav.findData (length (header ++ chunk ++ rest)) (header ++ chunk ++ rest)
                               (length header)
                  = shiftPos (length chunk)
                             (Wav.findData (length (header ++ rest)) (header ++ rest)
                                           (length header))).
  { assert (Hpos : exists m, length (header ++ chunk ++ rest) = S m).
    { rewrite length_app, Hh. eexists. reflexivity. }
    destruct Hpos as (m & Hm). rewrite Hm.
    rewrite Hsplit at 1.
    rewrite findData_skip_first.
    - rewrite Esz, le_toLe_4, Nat2Z.id by lia.
      rewrite <- Hsplit.
      replace (length header + 8 + length payload)%nat
        with (length header + length chunk)%nat by lia.
      rewrite findData_shift by lia.
      f_equal. apply findData_fuel; rewrite !length_app in *; lia.
    - exact Hhdr8.
    - rewrite Eid. destruct (Wav.bytesEqb id (Wav.tag "data")) eqn:Eb; [| reflexivity].
      apply bytesEqb_eq in Eb. contradiction. }
  rewrite Hfind.
  destruct (Wav.findData (length (header ++ rest)) (header ++ rest) (length header))
    as [[size pos] | msg |] eqn:E; cbn [shiftPos Wav.obind]; try reflexivity.
  apply findData_position in E.
  rewrite skipn_past_insert by lia.
  rewrite !length_app.
  replace (length header + (length chunk + length rest) - (pos + length chunk))%nat
    with (length header + length rest - pos)%nat by lia.
  reflexivity.
Qed.

Lemma readWav_skips_chunk_witness :
  Wav.readWav (Some (floatHeader ++ (Wav.tag "LIST" ++ Wav.toLe 4 (Z.of_nat (length [7; 9]))
                                              ++ [7; 9])
                                 ++ floatData))
  = Wav.readWav (Some (floatHeader ++ floatData)).
Proof.
  apply (readWav_skips_chunk floatHeader (Wav.tag "LIST") [7; 9] floatData).
  - reflexivity.
  - vm_compute. discriminate.
  - reflexivity.
  - discriminate.
  - cbn. lia.
Defined.

(** ** Signing: what is embedded and what is returned *)

(** X28: [sign] embeds the frame of the drawn signature identifier and
    nothing else: what it writes is what [embedWatermark] writes for
    [buildBitstream uuid] (464 bits), whatever the project, the
    recipient and the time; and the result it returns carries the
    output path, the drawn identifier, and the payload made of the
    identifier, the project, the recipient and the time, with the digest
    of its JSON text. *)
Theorem sign_embeds_signature_only :
  forall (FO : FloatOps) (sha256_hex_string : string -> string)
         (json_stringify : Engine.WatermarkPayload -> string)
         (readWav : string -> result Native.WavData) (canOpen : string -> bool)
         (uuid now inputWavPath outputWavPath projectId recipientId : string)
         (options : Sign.WatermarkOptions),
    let run := Sign.sign sha256_hex_string json_stringify readWav canOpen uuid now
                         inputWavPath outputWavPath projectId recipientId options in
    Sign.written run
    = Addon.embedWatermark readWav canOpen inputWavPath outputWavPath (buildBitstream uuid)
        (Addon.mkEmbedOptions (Sign.wSecret options) (Sign.wSampleRate options)
                              (Sign.wChannels options) (Sign.wBlockSize options)
                              (Sign.wHopSize options) (Sign.wEmbedStrength options) None None)
    /\ length (buildBitstream uuid) = 464%nat
    /\ (forall now' projectId' recipientId',
           Sign.written (Sign.sign sha256_hex_string json_stringify readWav canOpen uuid now'
                                   inputWavPath outputWavPath projectId' recipientId' options)
           = Sign.written run)
    /\ (forall r w, run = Native.Done (r, w) ->
                    Sign.outputPath r = outputWavPath /\
                    Sign.sSignatureId r = uuid /\
                    Sign.sPayload r
                    = Engine.mkWatermarkPayload uuid projectId recipientId now /\
                    Sign.sPayloadHash r
                    = sha256_hex_string (json_stringify (Sign.sPayload r))).
Proof.
  intros FO sha json readWav canOpen uuid now inp outp proj rcpt options run.
  assert (Hw : forall now' proj' rcpt',
             Sign.written (Sign.sign sha json readWav canOpen uuid now' inp outp proj' rcpt'
                                     options)
             = Addon.embedWatermark readWav canOpen inp outp (buildBitstream uuid)
                 (Addon.mkEmbedOptions (Sign.wSecret options) (Sign.wSampleRate options)
                                       (Sign.wChannels options) (Sign.wBlockSize options)
                                       (Sign.wHopSize options) (Sign.wEmbedStrength options)
                                       None None)).
  { intros now' proj' rcpt'. unfold Sign.sign, Sign.encodePayload. cbv zeta.
    cbn [Sign.eBitstream].
    destruct (Addon.embedWatermark _ _ _ _ _ _) as [w | msg |]; reflexivity. }
  split; [apply Hw |].
  split.
  { rewrite buildBitstream_frame, !length_app, interleaveBits_length, bytesToBits_length,
      rsEncode_length, uuidToBytes_length, numberToBits_length. reflexivity. }
  split; [intros; unfold run; rewrite !Hw; reflexivity |].
  intros r w. unfold run, Sign.sign, Sign.encodePayload. cbv zeta.
  cbn [Sign.eBitstream Sign.ePayload Sign.ePayloadHash Engine.signature_id].
  destruct (Addon.embedWatermark _ _ _ _ _ _) as [w' | msg |]; try discriminate.
  intros E. inversion E; subst. cbn. repeat split.
Qed.
